(** * ouster_example1: the view_tigr and lidar_view_example programs

    A shallow embedding of the two example programs of the repository
    (examples/view_tigr/src/view_tigr.cpp and
    examples/lidar_view_example/src/lidar_view_example.cpp) and the
    properties of their glue code: the min/max normalisation of a scan
    channel into a grey-scale bitmap, the mouse probe, the fatal error
    paths of the acquisition loop and the lock discipline around the
    shared bitmap. *)

From stdpp Require Import base numbers list strings pretty relations.
From Stdlib Require Import ZArith Lia.

Local Open Scope Z_scope.

(** ** Machine integers *)

Definition INT32_MAX : Z := 2147483647.
Definition INT32_MIN : Z := -2147483648.

Definition in_int32 (z : Z) : bool := (INT32_MIN <=? z) && (z <=? INT32_MAX).

(** Conversion of any integer to [int32_t] (two's complement, modulo 2^32);
    this is what [int32_t value = img(y, x)] does to a [uint32_t]. *)
Definition to_int32 (z : Z) : Z := (z + 2147483648) mod 4294967296 - 2147483648.

(** Conversion to [unsigned char], as in the assignment [pix[i].r = value]. *)
Definition to_uint8 (z : Z) : Z := z mod 256.

(** What can go wrong in the C++ code without it saying so. *)
Inductive ub : Type :=
  | SignedOverflow      (* an int result outside of [INT32_MIN, INT32_MAX] *)
  | DivideByZero        (* integer division by zero *)
  | OutOfBounds         (* an array access outside of the array *)
  | NullPointer.        (* a null pointer is read, or made a std::string *)

Inductive result (A : Type) : Type :=
  | Ok (a : A)
  | Err (e : ub).
Arguments Ok {A} a.
Arguments Err {A} e.

#[global] Instance result_ret : MRet result := fun A a => Ok a.
#[global] Instance result_bind : MBind result := fun A B k m =>
  match m with
  | Ok a => k a
  | Err e => Err e
  end.

(** Signed overflow is undefined in C++.  The two behaviours a build of the
    program shows are both modelled: [Trap] reports the overflow, [Wrap]
    is two's complement wrap-around. *)
Inductive overflow : Type := Trap | Wrap.

Definition int32 (o : overflow) (z : Z) : result Z :=
  if in_int32 z then Ok z
  else match o with
       | Trap => Err SignedOverflow
       | Wrap => Ok (to_int32 z)
       end.

Definition add32 (o : overflow) (a b : Z) : result Z := int32 o (a + b).
Definition sub32 (o : overflow) (a b : Z) : result Z := int32 o (a - b).
Definition mul32 (o : overflow) (a b : Z) : result Z := int32 o (a * b).
(** C++ division truncates towards zero.  The one quotient that is not an
    [int32_t], [INT32_MIN / -1], stops the program in either build: the
    division instruction traps on it, it does not wrap around. *)
Definition div32 (o : overflow) (a b : Z) : result Z :=
  if b =? 0 then Err DivideByZero else int32 Trap (Z.quot a b).

(** ** Loops

    [for (int k = 0; k < n; ++k) body] over a state [S]; the body may fail. *)
Fixpoint for_from {S : Type} (k : Z) (count : nat) (body : Z -> S -> result S)
    (s : S) : result S :=
  match count with
  | O => Ok s
  | Datatypes.S count' => s' ← body k s; for_from (k + 1) count' body s'
  end.

Definition for_range {S : Type} (n : Z) (body : Z -> S -> result S) (s : S)
    : result S :=
  for_from 0 (Z.to_nat n) body s.

(** ** Data of the external libraries, as far as the programs use it *)

(** tigr.h: [TPixel] has four [unsigned char] components. *)
Record TPixel : Type := mkPixel { r : Z; g : Z; b : Z; a : Z }.

(** tigr.h: a bitmap has its dimensions and a row-major pixel array. *)
Record Tigr : Type := mkTigr { w : Z; h : Z; pix : list TPixel }.

(** tigr_mouse.h *)
Record tigr_mouse_t : Type := mkMouse {
  btn : Z;
  up : Z;
  down : Z;
  x : Z;
  y : Z
}.

(** ouster_client/types.h: the channel fields of a scan. *)
Inductive ChanField : Type :=
  | RANGE | RANGE2 | SIGNAL | SIGNAL2 | REFLECTIVITY | REFLECTIVITY2 | NEAR_IR.

(** ouster_client/lidar_scan.h: a scan is [scan_w] columns by [scan_h] rows;
    every field is a row-major [h] by [w] array of [uint32_t]. *)
Record LidarScan : Type := mkScan {
  scan_w : Z;
  scan_h : Z;
  field : ChanField -> list Z
}.

(** [img(y, x)]: row [y], column [x]. *)
Definition img_at (scan : LidarScan) (f : ChanField) (y x : Z) : result Z :=
  if (0 <=? y) && (y <? scan_h scan) && (0 <=? x) && (x <? scan_w scan) then
    match field scan f !! Z.to_nat (y * scan_w scan + x) with
    | Some v => Ok v
    | None => Err OutOfBounds
    end
  else Err OutOfBounds.

(** A field of the scan has the scan's dimensions, which are those of a
    bitmap ([int]s), and holds [uint32_t]s. *)
Definition field_ok (scan : LidarScan) (f : ChanField) : bool :=
  (0 <=? scan_w scan) && (0 <=? scan_h scan)
  && (scan_w scan <=? INT32_MAX) && (scan_h scan <=? INT32_MAX)
  && (Z.of_nat (length (field scan f)) =? scan_w scan * scan_h scan)
  && forallb (fun u => (0 <=? u) && (u <? 4294967296)) (field scan f).

(** Writing one component of [bmp->pix[i]]. *)
Definition set_pix (upd : TPixel -> TPixel) (bmp : Tigr) (i : Z) : result Tigr :=
  if (0 <=? i) && (i <? Z.of_nat (length (pix bmp))) then
    Ok (mkTigr (w bmp) (h bmp) (alter upd (Z.to_nat i) (pix bmp)))
  else Err OutOfBounds.

Definition set_r (v : Z) (p : TPixel) : TPixel := mkPixel (to_uint8 v) (g p) (b p) (a p).
Definition set_g (v : Z) (p : TPixel) : TPixel := mkPixel (r p) (to_uint8 v) (b p) (a p).
Definition set_b (v : Z) (p : TPixel) : TPixel := mkPixel (r p) (g p) (to_uint8 v) (a p).
Definition set_a (v : Z) (p : TPixel) : TPixel := mkPixel (r p) (g p) (b p) (to_uint8 v).

(** ** view_tigr.cpp: scan_to_bmp and print_range *)

(** The first pair of loops of [scan_to_bmp]: the minimum and the maximum of
    the channel values, read as [int32_t]. *)
Definition minmax_step (scan : LidarScan) (f : ChanField) (x y : Z)
    (mm : Z * Z) : result (Z * Z) :=
  u ← img_at scan f y x;
  let value := to_int32 u in
  let min := if value <? fst mm then value else fst mm in
  let max := if value >? snd mm then value else snd mm in
  Ok (min, max).

(** [int w = scan.w; int h = scan.h;]: the dimensions of the scan, which
    are [std::ptrdiff_t]s, as [int]s. *)
Definition int_w (scan : LidarScan) : Z := to_int32 (scan_w scan).
Definition int_h (scan : LidarScan) : Z := to_int32 (scan_h scan).

Definition scan_minmax (scan : LidarScan) (f : ChanField) : result (Z * Z) :=
  for_range (int_w scan) (fun x =>
    for_range (int_h scan) (fun y => minmax_step scan f x y))
    (INT32_MAX, INT32_MIN).

(** [value -= min; value *= 255; value /= (max - min);] *)
Definition normalise (o : overflow) (min max value : Z) : result Z :=
  value ← sub32 o value min;
  value ← mul32 o value 255;
  range ← sub32 o max min;
  div32 o value range.

(** [int i = y * bmp->w + x;] *)
Definition pix_index (o : overflow) (bmp : Tigr) (x y : Z) : result Z :=
  yw ← mul32 o y (w bmp);
  add32 o yw x.

(** The four assignments to the components of [bmp->pix[i]]. *)
Definition paint (bmp : Tigr) (i : Z) (vr vg vb va : Z) : result Tigr :=
  bmp ← set_pix (set_r vr) bmp i;
  bmp ← set_pix (set_g vg) bmp i;
  bmp ← set_pix (set_b vb) bmp i;
  set_pix (set_a va) bmp i.

(** The body of the second pair of loops. *)
Definition pixel_step (o : overflow) (scan : LidarScan) (f : ChanField)
    (min max : Z) (x y : Z) (bmp : Tigr) : result Tigr :=
  u ← img_at scan f y x;
  let value := to_int32 u in
  value ← normalise o min max value;
  i ← pix_index o bmp x y;
  paint bmp i value value value 255.

Definition scan_to_bmp (o : overflow) (scan : LidarScan) (f : ChanField)
    (bmp : Tigr) : result Tigr :=
  '(min, max) ← scan_minmax scan f;
  for_range (int_w scan) (fun x =>
    for_range (int_h scan) (fun y => pixel_step o scan f min max x y))
    bmp.

(** [printf("%i %i : %i\n", x, y, value)] *)
Definition format_range (x y value : Z) : string :=
  pretty x +:+ " " +:+ pretty y +:+ " : " +:+ pretty value +:+ "
".

(** [print_range] returns the bitmap and what it wrote to standard output. *)
Definition print_range (o : overflow) (scan : LidarScan) (f : ChanField)
    (bmp : Tigr) (x y : Z) : result (Tigr * list string) :=
  if (x <? 0) || (x >=? scan_w scan) then Ok (bmp, [])
  else if (y <? 0) || (y >=? scan_h scan) then Ok (bmp, [])
  else
    i ← pix_index o bmp x y;
    bmp ← paint bmp i 255 0 0 255;
    u ← img_at scan f y x;
    let value := to_int32 u in
    Ok (bmp, [format_range x y value]).

(** The frame-write step of [render_thread], between [pthread_mutex_lock]
    and [pthread_mutex_unlock]: the scan is drawn, and probed when the mouse
    button is down. *)
Definition write_frame (o : overflow) (scan : LidarScan) (bmp : Tigr)
    (mouse : tigr_mouse_t) : result (Tigr * list string) :=
  bmp ← scan_to_bmp o scan RANGE bmp;
  if btn mouse =? 0 then Ok (bmp, [])
  else print_range o scan RANGE bmp (x mouse) (y mouse).

(** ** The external collaborators *)

(** <cstdlib> *)
Definition EXIT_SUCCESS : Z := 0.
Definition EXIT_FAILURE : Z := 1.

(** ouster_client/types.h: what the programs read of [sensor_info]. *)
Record sensor_info : Type := mkInfo {
  fw_rev : string;
  sn : string;
  prod_line : string;
  columns_per_frame : Z;
  pixels_per_column : Z;
  column_window : Z * Z;
  udp_profile_lidar : Z
}.

(** A default-constructed [sensor_info]. *)
Definition no_info : sensor_info :=
  mkInfo EmptyString EmptyString EmptyString 0 0 (0, 0) 0.

(** The sensor SDK (ouster_client), which is not part of the repository:
    its constants and the calls the programs make, as functions on the state
    of the connection. *)
Record Sdk : Type := mkSdk {
  SDK_VERSION : string;
  SDK_VERSION_FULL : string;
  BUILD_SYSTEM : string;
  (* the bits of sensor::client_state *)
  CLIENT_ERROR : Z;
  LIDAR_DATA : Z;
  IMU_DATA : Z;
  (* sensor::client, the connection *)
  client : Type;
  init_client : string -> string -> option client;
  get_metadata : client -> string * client;
  parse_metadata : string -> sensor_info;
  poll_client : client -> Z * client;
  packet_format : Type;
  get_format : sensor_info -> packet_format;
  read_lidar_packet : client -> list Z -> packet_format -> bool * list Z * client;
  read_imu_packet : client -> list Z -> packet_format -> bool * list Z * client;
  (* ScanBatcher and LidarScan *)
  ScanBatcher : Type;
  new_batcher : Z -> packet_format -> ScanBatcher;
  batch : ScanBatcher -> list Z -> LidarScan -> bool * ScanBatcher * LidarScan;
  new_scan : Z -> Z -> Z -> LidarScan;
  complete : LidarScan -> Z * Z -> bool;
  (* the projection to Cartesian coordinates *)
  XYZLut : Type;
  Points : Type;
  make_xyz_lut : sensor_info -> XYZLut;
  cartesian : LidarScan -> XYZLut -> Points
}.

(** The calls a program makes that its environment sees, in order. *)
Inductive event : Type :=
  | InitLogger
  | InitClient (hostname destination : string) (connected : bool)
  | GetMetadata
  | PollClient (st : Z)
  | ReadLidarPacket (ok : bool)
  | ReadImuPacket (ok : bool)
  | BatchToScan (done : bool)
  | Complete (ok : bool)
  | Cartesian
  | MutexLock
  | MutexUnlock
  | VizSetup
  | SetXyz
  | SetKey
  | TigrWindow (width height : Z)
  | TigrBitmap (width height : Z)
  | PthreadCreate.

(** What a process writes and calls. *)
Record io : Type := mkIo {
  cerr : string;          (* std::cerr *)
  cout : string;          (* stdout *)
  calls : list event
}.

Definition no_io : io := mkIo EmptyString EmptyString [].
Definition to_cerr (s : string) (t : io) : io := mkIo (cerr t +:+ s) (cout t) (calls t).
Definition to_cout (s : string) (t : io) : io := mkIo (cerr t) (cout t +:+ s) (calls t).
Definition call (e : event) (t : io) : io := mkIo (cerr t) (cout t) (calls t ++ [e]).

(** [std::endl] *)
Definition endl : string := "
".

(** A piece of program either goes on with a state, or ends the process
    with an exit status, or has no defined behaviour. *)
Inductive outcome (A : Type) : Type :=
  | Running (s : A) (t : io)
  | Exited (status : Z) (t : io)
  | Undefined (e : ub) (t : io).
Arguments Running {A} s t.
Arguments Exited {A} status t.
Arguments Undefined {A} e t.

Definition and_then {A B : Type} (m : outcome A) (k : A -> io -> outcome B)
    : outcome B :=
  match m with
  | Running s t => k s t
  | Exited status t => Exited status t
  | Undefined e t => Undefined e t
  end.

(** Both programs have the same [FATAL]:
    [std::cerr << msg << std::endl; std::exit(EXIT_FAILURE);] *)
Definition FATAL {A : Type} (msg : string) (t : io) : outcome A :=
  Exited EXIT_FAILURE (to_cerr endl (to_cerr msg t)).

(** Modelled from the spec: [tigrBitmap] of tigr.c, which is not part of
    the repository and of which the specification says
    allocate-bitmap(width, height); the pixels start as zeroes. *)
Definition tigrBitmap (width height : Z) : Tigr :=
  mkTigr width height (replicate (Z.to_nat (width * height)) (mkPixel 0 0 0 0)).

(** [st & FLAG] as a condition *)
Definition has_flag (st flag : Z) : bool := negb (Z.land st flag =? 0).

(** [UDP_BUF_SIZE] and the packet buffer of both programs,
    [std::make_unique<uint8_t[]>(UDP_BUF_SIZE)]. *)
Definition UDP_BUF_SIZE : Z := 65536.
Definition new_packet_buf : list Z := replicate (Z.to_nat UDP_BUF_SIZE) 0.

(** The text both programs print about the sensor. *)
Definition describe (info : sensor_info) : string :=
  "  Firmware version:  " +:+ fw_rev info +:+ endl
  +:+ "  Serial number:     " +:+ sn info +:+ endl
  +:+ "  Product line:      " +:+ prod_line info +:+ endl
  +:+ "  Scan dimensions:   " +:+ pretty (columns_per_frame info) +:+ " x "
  +:+ pretty (pixels_per_column info) +:+ endl
  +:+ "  Column window:     [" +:+ pretty (fst (column_window info)) +:+ ", "
  +:+ pretty (snd (column_window info)) +:+ "]" +:+ endl.

(** The character of a double quote. *)
Definition dquote : string := String (Ascii.ascii_of_nat 34) EmptyString.

(** ** view_tigr.cpp: the program *)

Module ViewTigr.
Section Program.
Context (sdk : Sdk) (o : overflow).

Record app_t : Type := mkApp {
  sensor_hostname : string;
  info : sensor_info;
  handle : option (client sdk);    (* a null pointer until connected *)
  app_w : Z;
  app_h : Z;
  mouse : tigr_mouse_t;
  lock : bool;                     (* the mutex: is it held? *)
  bmp : option Tigr                (* a null pointer until allocated *)
}.

Definition with_handle (c : client sdk) (app : app_t) : app_t :=
  mkApp (sensor_hostname app) (info app) (Some c) (app_w app) (app_h app)
    (mouse app) (lock app) (bmp app).
Definition with_lock (held : bool) (app : app_t) : app_t :=
  mkApp (sensor_hostname app) (info app) (handle app) (app_w app) (app_h app)
    (mouse app) held (bmp app).
Definition with_bmp (b : Tigr) (app : app_t) : app_t :=
  mkApp (sensor_hostname app) (info app) (handle app) (app_w app) (app_h app)
    (mouse app) (lock app) (Some b).
Definition with_mouse (m : tigr_mouse_t) (app : app_t) : app_t :=
  mkApp (sensor_hostname app) (info app) (handle app) (app_w app) (app_h app)
    m (lock app) (bmp app).

(** The variables of [render_thread]. *)
Record locals : Type := mkLocals {
  thread_info : sensor_info;
  pf : packet_format sdk;
  batch_to_scan : ScanBatcher sdk;
  packet_buf : list Z;
  scan : LidarScan;
  lut : XYZLut sdk
}.

Definition with_packet_buf (buf : list Z) (l : locals) : locals :=
  mkLocals (thread_info l) (pf l) (batch_to_scan l) buf (scan l) (lut l).
Definition with_batch (bt : ScanBatcher sdk) (sc : LidarScan) (l : locals) : locals :=
  mkLocals (thread_info l) (pf l) bt (packet_buf l) sc (lut l).

(** [init] *)
Definition init (app : app_t) (t : io) : outcome app_t :=
  let t := call InitLogger t in
  let t := to_cerr ("Ouster client example " +:+ SDK_VERSION sdk +:+ endl) t in
  let t := to_cerr ("Connecting to " +:+ dquote +:+ sensor_hostname app +:+ dquote
                    +:+ "..." +:+ endl) t in
  let connection := init_client sdk (sensor_hostname app) EmptyString in
  let t := call (InitClient (sensor_hostname app) EmptyString
                   (bool_decide (is_Some connection))) t in
  match connection with
  | None => FATAL "Failed to connect" t
  | Some c =>
      let t := to_cerr ("Connection to sensor succeeded" +:+ endl) t in
      let t := to_cerr ("Gathering metadata..." +:+ endl) t in
      let '(metadata, c) := get_metadata sdk c in
      let t := call GetMetadata t in
      let info := parse_metadata sdk metadata in
      Running (mkApp (sensor_hostname app) info (Some c)
                 (to_int32 (columns_per_frame info))
                 (to_int32 (pixels_per_column info))
                 (mouse app) (lock app) (bmp app)) t
  end.

(** [main], up to the creation of the acquisition thread.  From there the
    display loop of [main] and [render_thread] run side by side.
    [argv !! 1] is absent when the program is started without an
    argument: [argv[1]] is then a null pointer, from which no
    [std::string] can be built. *)
Definition main (argv : list string) (t : io) : outcome app_t :=
  match argv !! 1%nat with
  | None => Undefined NullPointer t
  | Some hostname =>
      let app := mkApp hostname no_info None 0 0 (mkMouse 0 0 0 0 0) false None in
      and_then (init app t) (fun app t =>
        let t := call (TigrWindow (app_w app) (app_h app)) t in
        let t := call (TigrBitmap (app_w app) (app_h app)) t in
        let app := with_bmp (tigrBitmap (app_w app) (app_h app)) app in
        let t := call PthreadCreate t in
        Running app t)
  end.

(** [render_thread], before its loop. *)
Definition render_thread_start (app : app_t) (t : io) : outcome (app_t * locals) :=
  let info := info app in
  let w := columns_per_frame info in
  let h := pixels_per_column info in
  let t := to_cerr (describe info) t in
  let pf := get_format sdk info in
  let batch_to_scan := new_batcher sdk (columns_per_frame info) pf in
  let packet_buf := new_packet_buf in
  let scan := new_scan sdk w h (udp_profile_lidar info) in
  let lut := make_xyz_lut sdk info in
  Running (app, mkLocals info pf batch_to_scan packet_buf scan lut) t.

(** The frame is written under the lock.  [pthread_mutex_lock] returns
    when the display loop does not hold the lock; how the two threads
    take turns is the subject of the module [Locking]. *)
Definition publish (s : app_t * locals) (t : io) : outcome (app_t * locals) :=
  let '(app, l) := s in
  let t := call MutexLock t in
  let app := with_lock true app in
  match bmp app with
  | None => Undefined NullPointer t
  | Some b =>
      match write_frame o (scan l) b (mouse app) with
      | Err e => Undefined e t
      | Ok (b, out) =>
          let app := with_bmp b app in
          let t := to_cout (String.concat EmptyString out) t in
          let t := call MutexUnlock t in
          let app := with_lock false app in
          let t := call Cartesian t in
          Running (app, l) t
      end
  end.

(** [if (st & sensor::LIDAR_DATA) { ... }] *)
Definition lidar_data (st : Z) (s : app_t * locals) (t : io)
    : outcome (app_t * locals) :=
  let '(app, l) := s in
  if has_flag st (LIDAR_DATA sdk) then
    match handle app with
    | None => Undefined NullPointer t
    | Some c =>
        let '(ok, buf, c) := read_lidar_packet sdk c (packet_buf l) (pf l) in
        let app := with_handle c app in
        let l := with_packet_buf buf l in
        let t := call (ReadLidarPacket ok) t in
        if negb ok then FATAL "Failed to read a packet of the expected size!" t
        else
          let '(done, bt, sc) := batch sdk (batch_to_scan l) (packet_buf l) (scan l) in
          let l := with_batch bt sc l in
          let t := call (BatchToScan done) t in
          if done then
            let ok := complete sdk (scan l) (column_window (thread_info l)) in
            let t := call (Complete ok) t in
            if ok then publish (app, l) t else Running (app, l) t
          else Running (app, l) t
    end
  else Running (app, l) t.

(** [if (st & sensor::IMU_DATA) { ... }] *)
Definition imu_data (st : Z) (s : app_t * locals) (t : io)
    : outcome (app_t * locals) :=
  let '(app, l) := s in
  if has_flag st (IMU_DATA sdk) then
    match handle app with
    | None => Undefined NullPointer t
    | Some c =>
        let '(ok, buf, c) := read_imu_packet sdk c (packet_buf l) (pf l) in
        let app := with_handle c app in
        let l := with_packet_buf buf l in
        let t := call (ReadImuPacket ok) t in
        Running (app, l) t
    end
  else Running (app, l) t.

(** One turn of the [while (1)] loop of [render_thread]. *)
Definition iteration (s : app_t * locals) (t : io) : outcome (app_t * locals) :=
  let '(app, l) := s in
  match handle app with
  | None => Undefined NullPointer t
  | Some c =>
      let '(st, c) := poll_client sdk c in
      let app := with_handle c app in
      let t := call (PollClient st) t in
      if has_flag st (CLIENT_ERROR sdk) then
        FATAL "Sensor client returned error state!" t
      else and_then (lidar_data st (app, l) t) (imu_data st)
  end.

(** The loop never ends by itself.  Its first turns are run on the mouse
    states the display loop has stored when each of them starts. *)
Fixpoint loop (mice : list tigr_mouse_t) (s : app_t * locals) (t : io)
    : outcome (app_t * locals) :=
  match mice with
  | [] => Running s t
  | m :: mice' =>
      and_then (iteration (with_mouse m (fst s), snd s) t) (loop mice')
  end.

Definition render_thread (mice : list tigr_mouse_t) (app : app_t) (t : io)
    : outcome (app_t * locals) :=
  and_then (render_thread_start app t) (loop mice).
End Program.
End ViewTigr.

(** ** lidar_view_example.cpp: the program

    The thread [func] of this program only drives the visualizer; it shares
    nothing with the loop of [main] but the visualizer itself, and is left
    out. *)

Module LidarViewExample.
Section Program.
Context (sdk : Sdk).

(** The variables of [main] that its loop uses; [xyz] is what the cloud of
    the visualizer was last given by [cloud->set_xyz]. *)
Record locals : Type := mkLocals {
  handle : client sdk;
  info : sensor_info;
  pf : packet_format sdk;
  batch_to_scan : ScanBatcher sdk;
  packet_buf : list Z;
  scan : LidarScan;
  lut : XYZLut sdk;
  xyz : option (Points sdk)
}.

Definition with_handle (c : client sdk) (l : locals) : locals :=
  mkLocals c (info l) (pf l) (batch_to_scan l) (packet_buf l) (scan l) (lut l) (xyz l).
Definition with_packet_buf (buf : list Z) (l : locals) : locals :=
  mkLocals (handle l) (info l) (pf l) (batch_to_scan l) buf (scan l) (lut l) (xyz l).
Definition with_batch (bt : ScanBatcher sdk) (sc : LidarScan) (l : locals) : locals :=
  mkLocals (handle l) (info l) (pf l) bt (packet_buf l) sc (lut l) (xyz l).
Definition with_xyz (p : Points sdk) (l : locals) : locals :=
  mkLocals (handle l) (info l) (pf l) (batch_to_scan l) (packet_buf l) (scan l) (lut l)
    (Some p).

Definition usage : string :=
  "Version: " +:+ SDK_VERSION_FULL sdk +:+ " (" +:+ BUILD_SYSTEM sdk +:+ ")"
  +:+ endl +:+ endl
  +:+ "Usage: client_example <sensor_hostname> [<udp_destination>]"
  +:+ endl +:+ endl
  +:+ "<udp_destination> is optional: leave blank for "
  +:+ "automatic destination detection"
  +:+ endl.

(** [main], up to its loop; [argc] is the length of [argv]. *)
Definition main (argv : list string) (t : io) : outcome locals :=
  let argc := Z.of_nat (length argv) in
  if negb (argc =? 2) && negb (argc =? 3) then
    let t := to_cerr usage t in
    Exited (if argc =? 1 then EXIT_SUCCESS else EXIT_FAILURE) t
  else
    let t := call InitLogger t in
    let t := to_cerr ("Ouster client example " +:+ SDK_VERSION sdk +:+ endl) t in
    let sensor_hostname := default EmptyString (argv !! 1%nat) in
    let data_destination :=
      if argc =? 3 then default EmptyString (argv !! 2%nat) else EmptyString in
    let t := to_cerr ("Connecting to " +:+ dquote +:+ sensor_hostname +:+ dquote
                      +:+ "..." +:+ endl) t in
    let connection := init_client sdk sensor_hostname data_destination in
    let t := call (InitClient sensor_hostname data_destination
                     (bool_decide (is_Some connection))) t in
    match connection with
    | None => FATAL "Failed to connect" t
    | Some handle =>
        let t := to_cerr ("Connection to sensor succeeded" +:+ endl) t in
        let t := to_cerr ("Gathering metadata..." +:+ endl) t in
        let '(metadata, handle) := get_metadata sdk handle in
        let t := call GetMetadata t in
        let info := parse_metadata sdk metadata in
        let w := columns_per_frame info in
        let h := pixels_per_column info in
        let t := to_cerr (describe info) t in
        let pf := get_format sdk info in
        let batch_to_scan := new_batcher sdk (columns_per_frame info) pf in
        let packet_buf := new_packet_buf in
        let scan := new_scan sdk w h (udp_profile_lidar info) in
        let lut := make_xyz_lut sdk info in
        let t := call VizSetup t in
        let t := call PthreadCreate t in
        Running (mkLocals handle info pf batch_to_scan packet_buf scan lut None) t
    end.

(** [if (st & sensor::LIDAR_DATA) { ... }] *)
Definition lidar_data (st : Z) (l : locals) (t : io) : outcome locals :=
  if has_flag st (LIDAR_DATA sdk) then
    let '(ok, buf, c) := read_lidar_packet sdk (handle l) (packet_buf l) (pf l) in
    let l := with_packet_buf buf (with_handle c l) in
    let t := call (ReadLidarPacket ok) t in
    if negb ok then FATAL "Failed to read a packet of the expected size!" t
    else
      let '(done, bt, sc) := batch sdk (batch_to_scan l) (packet_buf l) (scan l) in
      let l := with_batch bt sc l in
      let t := call (BatchToScan done) t in
      if done then
        let ok := complete sdk (scan l) (column_window (info l)) in
        let t := call (Complete ok) t in
        if ok then
          let p := cartesian sdk (scan l) (lut l) in
          let t := call Cartesian t in
          let l := with_xyz p l in
          let t := call SetXyz t in
          let t := call SetKey t in
          Running l t
        else Running l t
      else Running l t
  else Running l t.

(** [if (st & sensor::IMU_DATA) { ... }] *)
Definition imu_data (st : Z) (l : locals) (t : io) : outcome locals :=
  if has_flag st (IMU_DATA sdk) then
    let '(ok, buf, c) := read_imu_packet sdk (handle l) (packet_buf l) (pf l) in
    let l := with_packet_buf buf (with_handle c l) in
    let t := call (ReadImuPacket ok) t in
    Running l t
  else Running l t.

(** One turn of the [while (1)] loop of [main]. *)
Definition iteration (l : locals) (t : io) : outcome locals :=
  let '(st, c) := poll_client sdk (handle l) in
  let l := with_handle c l in
  let t := call (PollClient st) t in
  if has_flag st (CLIENT_ERROR sdk) then
    FATAL "Sensor client returned error state!" t
  else and_then (lidar_data st l t) (imu_data st).

(** The first [n] turns of the loop, which never ends by itself. *)
Fixpoint loop (n : nat) (l : locals) (t : io) : outcome locals :=
  match n with
  | O => Running l t
  | S n' => and_then (iteration l t) (loop n')
  end.

Definition run (n : nat) (argv : list string) (t : io) : outcome locals :=
  and_then (main argv t) (loop n).
End Program.
End LidarViewExample.

(** ** view_tigr.cpp: the two threads and the lock *)

(** The cells of a scan in the order of the loops of [scan_to_bmp]. *)
Definition cells (scan : LidarScan) : list (Z * Z) :=
  x ← seqZ 0 (int_w scan); y ← seqZ 0 (int_h scan); [(x, y)].

Module Locking.

Inductive thread : Type :=
  | Acquisition     (* render_thread *)
  | Display.        (* the loop of main *)

(** Where [render_thread] is in its loop. *)
Inductive acquisition_pc : Type :=
  | APoll                                   (* lines 133-152: poll, read, batch *)
  | ALock                                   (* line 154: pthread_mutex_lock *)
  | AScanToBmp                              (* line 155, the loops of lines 57-65 *)
  | ADraw (min max : Z) (todo : list (Z * Z))   (* line 155, the loops of lines 67-81 *)
  | AProbe                                  (* lines 156-159 *)
  | AUnlock                                 (* line 160: pthread_mutex_unlock *)
  | ARest.                                  (* lines 161-170: cartesian, IMU *)

(** Where [main] is in its loop. *)
Inductive display_pc : Type :=
  | DClosed                                 (* line 221: tigrClosed *)
  | DInput                                  (* lines 223-230: tigrReadChar, tigr_mouse_get *)
  | DClear                                  (* line 232: tigrClear *)
  | DLock                                   (* line 233: pthread_mutex_lock *)
  | DBlit (copied : nat)                    (* line 235: tigrBlit, pixel by pixel *)
  | DUnlock                                 (* line 237: pthread_mutex_unlock *)
  | DUpdate                                 (* line 238: tigrUpdate *)
  | DFree.                                  (* lines 240-242: tigrFree, return *)

(** The process: the two threads, the mutex [app.lock] with the thread that
    holds it, the shared bitmap [app.bmp] and mouse [app.mouse], the scan of
    [render_thread], the window of [main]; [alive] until the process ends. *)
Record state : Type := mkState {
  pa : acquisition_pc;
  pd : display_pc;
  owner : option thread;
  bmp : Tigr;
  mouse : tigr_mouse_t;
  scan : LidarScan;
  screen : Tigr;
  alive : bool
}.

Definition at_a (pc : acquisition_pc) (s : state) : state :=
  mkState pc (pd s) (owner s) (bmp s) (mouse s) (scan s) (screen s) (alive s).
Definition at_d (pc : display_pc) (s : state) : state :=
  mkState (pa s) pc (owner s) (bmp s) (mouse s) (scan s) (screen s) (alive s).
Definition owned (th : option thread) (s : state) : state :=
  mkState (pa s) (pd s) th (bmp s) (mouse s) (scan s) (screen s) (alive s).
Definition store (b : Tigr) (s : state) : state :=
  mkState (pa s) (pd s) (owner s) b (mouse s) (scan s) (screen s) (alive s).
Definition sample (m : tigr_mouse_t) (s : state) : state :=
  mkState (pa s) (pd s) (owner s) (bmp s) m (scan s) (screen s) (alive s).
Definition batched (sc : LidarScan) (s : state) : state :=
  mkState (pa s) (pd s) (owner s) (bmp s) (mouse s) sc (screen s) (alive s).
Definition shown (b : Tigr) (s : state) : state :=
  mkState (pa s) (pd s) (owner s) (bmp s) (mouse s) (scan s) b (alive s).
Definition ended (s : state) : state :=
  mkState (pa s) (pd s) (owner s) (bmp s) (mouse s) (scan s) (screen s) false.

(** What a step does to the shared bitmap. *)
Inductive access : Type := Quiet | Store | Load.

(** Modelled from the spec: [tigrClear(screen, tigrRGB(0x80, 0x90, 0xa0))]
    of tigr.c, clear(color): every pixel of the window gets the colour. *)
Definition cleared (b : Tigr) : Tigr :=
  mkTigr (w b) (h b) (replicate (length (pix b)) (mkPixel 128 144 160 255)).

(** The steps of the process.  A thread that calls [pthread_mutex_lock]
    steps when no thread holds the mutex.  [scan_to_bmp] stores one pixel in
    a step and [tigrBlit] copies one pixel in a step, so that the threads
    may take turns between any two pixels.  The process ends at [FATAL], at
    the return of [main], and where the code has no defined behaviour.
    What [render_thread] polls, reads and batches is left open: it ends the
    process, or has a complete scan, or has none.  So is what the window
    gives [main]: it is closed or not, and the mouse is anywhere.

    Modelled from the spec: [tigrBlit(screen, app.bmp, 0, 0, 0, 0, app.w,
    app.h)] of tigr.c, blit(dest, src, region), the copy of the shared frame
    buffer onto the display surface at 1:1 scale. *)
Inductive step (o : overflow) : state -> thread -> access -> state -> Prop :=
  | a_fatal s :
      alive s = true -> pa s = APoll ->
      step o s Acquisition Quiet (ended s)
  | a_frame s sc :
      alive s = true -> pa s = APoll ->
      step o s Acquisition Quiet (at_a ALock (batched sc s))
  | a_no_frame s sc :
      alive s = true -> pa s = APoll ->
      step o s Acquisition Quiet (at_a ARest (batched sc s))
  | a_lock s :
      alive s = true -> pa s = ALock -> owner s = None ->
      step o s Acquisition Quiet (at_a AScanToBmp (owned (Some Acquisition) s))
  | a_minmax s min max :
      alive s = true -> pa s = AScanToBmp ->
      scan_minmax (scan s) RANGE = Ok (min, max) ->
      step o s Acquisition Quiet (at_a (ADraw min max (cells (scan s))) s)
  | a_minmax_undefined s e :
      alive s = true -> pa s = AScanToBmp ->
      scan_minmax (scan s) RANGE = Err e ->
      step o s Acquisition Quiet (ended s)
  | a_draw s min max x y todo b :
      alive s = true -> pa s = ADraw min max ((x, y) :: todo) ->
      pixel_step o (scan s) RANGE min max x y (bmp s) = Ok b ->
      step o s Acquisition Store (at_a (ADraw min max todo) (store b s))
  | a_draw_undefined s min max x y todo e :
      alive s = true -> pa s = ADraw min max ((x, y) :: todo) ->
      pixel_step o (scan s) RANGE min max x y (bmp s) = Err e ->
      step o s Acquisition Quiet (ended s)
  | a_drawn s min max :
      alive s = true -> pa s = ADraw min max [] ->
      step o s Acquisition Quiet (at_a AProbe s)
  | a_probe s b out :
      alive s = true -> pa s = AProbe -> btn (mouse s) <> 0 ->
      print_range o (scan s) RANGE (bmp s) (x (mouse s)) (y (mouse s)) = Ok (b, out) ->
      step o s Acquisition Store (at_a AUnlock (store b s))
  | a_probe_undefined s e :
      alive s = true -> pa s = AProbe -> btn (mouse s) <> 0 ->
      print_range o (scan s) RANGE (bmp s) (x (mouse s)) (y (mouse s)) = Err e ->
      step o s Acquisition Quiet (ended s)
  | a_no_probe s :
      alive s = true -> pa s = AProbe -> btn (mouse s) = 0 ->
      step o s Acquisition Quiet (at_a AUnlock s)
  | a_unlock s :
      alive s = true -> pa s = AUnlock ->
      step o s Acquisition Quiet (at_a ARest (owned None s))
  | a_rest s :
      alive s = true -> pa s = ARest ->
      step o s Acquisition Quiet (at_a APoll s)
  | d_open s :
      alive s = true -> pd s = DClosed ->
      step o s Display Quiet (at_d DInput s)
  | d_closed s :
      alive s = true -> pd s = DClosed ->
      step o s Display Quiet (at_d DFree s)
  | d_input s m :
      alive s = true -> pd s = DInput ->
      step o s Display Quiet (at_d DClear (sample m s))
  | d_clear s :
      alive s = true -> pd s = DClear ->
      step o s Display Quiet (at_d DLock (shown (cleared (screen s)) s))
  | d_lock s :
      alive s = true -> pd s = DLock -> owner s = None ->
      step o s Display Quiet (at_d (DBlit 0) (owned (Some Display) s))
  | d_blit s k p :
      alive s = true -> pd s = DBlit k -> pix (bmp s) !! k = Some p ->
      step o s Display Load
        (at_d (DBlit (S k))
           (shown (mkTigr (w (screen s)) (h (screen s)) (<[k := p]> (pix (screen s)))) s))
  | d_blit_done s k :
      alive s = true -> pd s = DBlit k -> pix (bmp s) !! k = None ->
      step o s Display Quiet (at_d DUnlock s)
  | d_unlock s :
      alive s = true -> pd s = DUnlock ->
      step o s Display Quiet (at_d DUpdate (owned None s))
  | d_update s :
      alive s = true -> pd s = DUpdate ->
      step o s Display Quiet (at_d DClosed s)
  | d_free s :
      alive s = true -> pd s = DFree ->
      step o s Display Quiet (ended s).

(** The process when [main] has created the thread: nobody holds the mutex
    (it is a member of [app], which [main] initialises to zeroes). *)
Definition initial (s : state) : Prop :=
  pa s = APoll /\ pd s = DClosed /\ owner s = None /\ alive s = true.

Inductive reachable (o : overflow) : state -> Prop :=
  | reachable_initial s : initial s -> reachable o s
  | reachable_step s th acc s' :
      reachable o s -> step o s th acc s' -> reachable o s'.

(** [render_thread] is between its lock and its unlock. *)
Definition writing (pc : acquisition_pc) : bool :=
  match pc with
  | AScanToBmp | ADraw _ _ _ | AProbe | AUnlock => true
  | APoll | ALock | ARest => false
  end.

(** [main] is between its lock and its unlock. *)
Definition reading (pc : display_pc) : bool :=
  match pc with
  | DBlit _ | DUnlock => true
  | DClosed | DInput | DClear | DLock | DUpdate | DFree => false
  end.

(** The holder of the mutex is the thread that is between its lock and its
    unlock. *)
Definition lock_inv (s : state) : Prop :=
  (writing (pa s) = true <-> owner s = Some Acquisition)
  /\ (reading (pd s) = true <-> owner s = Some Display).
End Locking.

(** * Specification *)

(** ** Scans and bitmaps *)

(** The shared bitmap is allocated with the dimensions of the scan
    ([tigrBitmap(app.w, app.h)]), which are [int]s. *)
Definition bmp_fits (scan : LidarScan) (bmp : Tigr) : bool :=
  (w bmp =? scan_w scan) && (h bmp =? scan_h scan)
  && (Z.of_nat (length (pix bmp)) =? scan_w scan * scan_h scan)
  && (scan_w scan * scan_h scan <=? INT32_MAX).

(** The minimum and the maximum of a list, as the specification words them. *)
Definition is_minimum (m : Z) (l : list Z) : Prop := m ∈ l ∧ Forall (fun v => m <= v) l.
Definition is_maximum (m : Z) (l : list Z) : Prop := m ∈ l ∧ Forall (fun v => v <= m) l.

(** The raw [uint32_t] at column [x], row [y], and the [int32_t] the code
    reads it into. *)
Definition raw (scan : LidarScan) (f : ChanField) (x y : Z) : Z :=
  default 0 (field scan f !! Z.to_nat (y * scan_w scan + x)).
Definition value_at (scan : LidarScan) (f : ChanField) (x y : Z) : Z :=
  to_int32 (raw scan f x y).

Definition in_scan (scan : LidarScan) (x y : Z) : Prop :=
  0 <= x < scan_w scan /\ 0 <= y < scan_h scan.

(** The cells that the loops of [scan_to_bmp] visit. *)
Definition drawn (scan : LidarScan) (x y : Z) : Prop :=
  0 <= x < int_w scan /\ 0 <= y < int_h scan.

(** The cells that a frame write stores: those of the scan and, with the
    button down, the one at the cursor when it is in the scan. *)
Definition framed (scan : LidarScan) (mouse : tigr_mouse_t) (x' y' : Z) : Prop :=
  drawn scan x' y'
  \/ (btn mouse <> 0 /\ x' = x mouse /\ y' = y mouse /\ in_scan scan x' y').

(** The grey pixel the code stores for the [int32_t] [v]. *)
Definition grey (v : Z) : TPixel := mkPixel (to_uint8 v) (to_uint8 v) (to_uint8 v) 255.

Definition highlight : TPixel := mkPixel 255 0 0 255.

Definition same_shape (bmp bmp' : Tigr) : Prop :=
  w bmp' = w bmp /\ h bmp' = h bmp /\ length (pix bmp') = length (pix bmp).

Definition in_pix (bmp : Tigr) (i : Z) : bool :=
  (0 <=? i) && (i <? Z.of_nat (length (pix bmp))).

(** Going from [bmp] to [bmp'], the pixels of the cells in [written] have
    been stored opaque, and every pixel is opaque or as it was. *)
Definition opaque_after (o : overflow) (bmp bmp' : Tigr) (written : Z -> Z -> Prop) : Prop :=
  (forall x y i, written x y -> pix_index o bmp x y = Ok i ->
     exists p, pix bmp' !! Z.to_nat i = Some p /\ a p = 255)
  /\ (forall j p, pix bmp' !! j = Some p -> pix bmp !! j = Some p \/ a p = 255).

(** ** The loops *)

(** [(x', y')] is visited before [(x, y)] in the column-by-column order. *)
Definition visited (x y x' y' : Z) : Prop := x' < x \/ (x' = x /\ y' < y).

Definition minmax_inv (scan : LidarScan) (f : ChanField) (x y : Z) (mm : Z * Z) : Prop :=
  (forall x' y', 0 <= x' < scan_w scan -> 0 <= y' < scan_h scan ->
     visited x y x' y' -> fst mm <= value_at scan f x' y' <= snd mm)
  /\ (fst mm = INT32_MAX \/
      exists x' y', 0 <= x' < scan_w scan /\ 0 <= y' < scan_h scan
                    /\ value_at scan f x' y' = fst mm)
  /\ (snd mm = INT32_MIN \/
      exists x' y', 0 <= x' < scan_w scan /\ 0 <= y' < scan_h scan
                    /\ value_at scan f x' y' = snd mm).

(** What holds of the bitmap whenever the loops return: every pixel they
    stored is opaque, every other pixel is as before. *)
Definition opaque_inv (o : overflow) (scan : LidarScan) (bmp : Tigr)
    (x y : Z) (bmp' : Tigr) : Prop :=
  same_shape bmp bmp'
  /\ (forall x' y' i, 0 <= x' < int_w scan -> 0 <= y' < int_h scan ->
        visited x y x' y' -> pix_index o bmp x' y' = Ok i ->
        exists p, pix bmp' !! Z.to_nat i = Some p /\ a p = 255)
  /\ (forall j p, pix bmp' !! j = Some p -> pix bmp !! j = Some p \/ a p = 255).

(** What the loops store when the arithmetic is within [int32_t]. *)
Definition grey_inv (scan : LidarScan) (f : ChanField) (min max : Z) (bmp : Tigr)
    (x y : Z) (bmp' : Tigr) : Prop :=
  same_shape bmp bmp'
  /\ (forall x' y', 0 <= x' < scan_w scan -> 0 <= y' < scan_h scan ->
        visited x y x' y' ->
        pix bmp' !! Z.to_nat (y' * scan_w scan + x')
        = Some (grey ((value_at scan f x' y' - min) * 255 / (max - min)))).

Fixpoint for_each {S A : Type} (l : list A) (body : A -> S -> result S) (s : S)
    : result S :=
  match l with
  | [] => Ok s
  | c :: l' => s' ← body c s; for_each l' body s'
  end.

(** ** The ends of a process *)

Definition io_of {A : Type} (out : outcome A) : io :=
  match out with
  | Running _ t => t
  | Exited _ t => t
  | Undefined _ t => t
  end.

(** The process has ended with [EXIT_FAILURE]: since [t] it has written
    [said], then [msg] and a line end to [std::cerr] and nothing to the
    standard output, and it has made the calls [made]. *)
Definition fatal_exit {A : Type} (out : outcome A) (t : io) (said msg : string)
    (made : list event) : Prop :=
  exists t', out = Exited EXIT_FAILURE t'
             /\ cerr t' = cerr t +:+ said +:+ msg +:+ "
"
             /\ cout t' = cout t
             /\ calls t' = calls t ++ made.

(** What both programs write to [std::cerr] before they connect to [host]. *)
Definition greeting (sdk : Sdk) (host : string) : string :=
  "Ouster client example " +:+ SDK_VERSION sdk +:+ "
" +:+ "Connecting to " +:+ dquote +:+ host +:+ dquote +:+ "...
".

(** The steps of [main] alone: states in which [render_thread] has not
    come back from its first poll. *)
Definition display_only (o : overflow) : relation Locking.state :=
  rtc (fun s s' => exists acc, Locking.step o s Locking.Display acc s').

(** Of the calls made since [t], a failed read of a lidar packet is the
    last one, and the process has then ended with [EXIT_FAILURE]. *)
Definition stops_at_failed_read {A : Type} (out : outcome A) (t : io) : Prop :=
  exists made,
    calls (io_of out) = calls t ++ made
    /\ forall before after,
         made = before ++ ReadLidarPacket false :: after ->
         after = [] /\ exists t', out = Exited EXIT_FAILURE t'.

(** The two shapes of what a piece of the loop does: no read fails, or the
    process ends at the read that fails. *)
Inductive shape {A : Type} (t : io) : outcome A -> Prop :=
  | shape_fine out made :
      calls (io_of out) = calls t ++ made ->
      ReadLidarPacket false ∉ made ->
      shape t out
  | shape_failed t' made :
      calls t' = calls t ++ made ++ [ReadLidarPacket false] ->
      ReadLidarPacket false ∉ made ->
      shape t (Exited EXIT_FAILURE t').

(** ** The threads *)

Definition acquisition_step (o : overflow) (s s' : Locking.state) : Prop :=
  exists acc, Locking.step o s Locking.Acquisition acc s'.

(** ** Examples *)

(** A scan of four by four whose range values go evenly from 0 to 1000, with
    its bitmap; a scan whose values are all the same; a scan with a value
    ten kilometres away; and a scan with the largest [uint32_t]. *)
Definition even_scan : LidarScan :=
  mkScan 4 4 (fun _ => [0; 66; 133; 200; 266; 333; 400; 466;
                        533; 600; 666; 733; 800; 866; 933; 1000]).
Definition even_bmp : Tigr := tigrBitmap 4 4.
Definition flat_scan : LidarScan := mkScan 2 2 (fun _ => [7; 7; 7; 7]).
Definition far_scan : LidarScan := mkScan 2 1 (fun _ => [0; 10000000]).
Definition far_bmp : Tigr := tigrBitmap 2 1.
Definition top_scan : LidarScan := mkScan 2 1 (fun _ => [0; 4294967295]).

(** A sensor for examples.  It connects when [reachable]; each poll takes
    the next answer of a script, which is the state [poll_client] returns
    and whether the read that follows gets a whole packet; every packet
    completes the scan [even_scan]. *)
Record script : Type := mkScript {
  answers : list (Z * bool);
  read_ok : bool
}.

Definition script_poll (c : script) : Z * script :=
  match answers c with
  | [] => (0, c)
  | (st, ok) :: rest => (st, mkScript rest ok)
  end.

Definition script_sdk (reachable : bool) (script_answers : list (Z * bool)) : Sdk :=
  mkSdk "0.4.1" "0.4.1-example" "example" 1 2 4
    script
    (fun _ _ => if reachable then Some (mkScript script_answers true) else None)
    (fun c => ("{}", c))
    (fun _ => mkInfo "v2.3.1" "992000000001" "OS-1-16" 4 4 (0, 3) 1)
    script_poll
    unit (fun _ => tt)
    (fun c buf _ => (read_ok c, buf, c))
    (fun c buf _ => (read_ok c, buf, c))
    unit (fun _ _ => tt)
    (fun bt _ _ => (true, bt, even_scan))
    (fun w h _ => mkScan w h (fun _ => replicate (Z.to_nat (w * h)) 0))
    (fun _ _ => true)
    unit unit (fun _ => tt) (fun _ _ => tt).

(** States of the two programs on the example sensor. *)
Definition example_app (script_answers : list (Z * bool))
    : ViewTigr.app_t (script_sdk true script_answers) :=
  ViewTigr.mkApp (script_sdk true script_answers) "os-1"
    (mkInfo "v2.3.1" "992000000001" "OS-1-16" 4 4 (0, 3) 1)
    (Some (mkScript script_answers true)) 4 4 (mkMouse 0 0 0 0 0) false (Some even_bmp).

Definition example_thread (script_answers : list (Z * bool))
    : ViewTigr.locals (script_sdk true script_answers) :=
  ViewTigr.mkLocals (script_sdk true script_answers)
    (mkInfo "v2.3.1" "992000000001" "OS-1-16" 4 4 (0, 3) 1)
    tt tt new_packet_buf even_scan tt.

Definition example_main (script_answers : list (Z * bool))
    : LidarViewExample.locals (script_sdk true script_answers) :=
  LidarViewExample.mkLocals (script_sdk true script_answers)
    (mkScript script_answers true)
    (mkInfo "v2.3.1" "992000000001" "OS-1-16" 4 4 (0, 3) 1)
    tt tt new_packet_buf even_scan tt None.

Definition lock_start : Locking.state :=
  Locking.mkState Locking.APoll Locking.DClosed None even_bmp (mkMouse 1 0 0 3 1)
    flat_scan even_bmp true.

(** ** Errors *)

(** The errors of integer arithmetic, as opposed to those of memory. *)
Definition arithmetic (e : ub) : Prop := e = SignedOverflow \/ e = DivideByZero.

(** A result that is not an access outside of an array or through a null
    pointer. *)
Definition in_memory {A : Type} (res : result A) : Prop :=
  match res with
  | Ok _ => True
  | Err e => arithmetic e
  end.

(** A scan without cells. *)
Definition no_scan : LidarScan := mkScan 0 4 (fun _ => []).

(** A bitmap one pixel short of the scan [even_scan]. *)
Definition short_bmp : Tigr := mkTigr 4 4 (replicate 15 (mkPixel 0 0 0 0)).

(** What the loops of [scan_to_bmp] have stored when they return, whatever
    the arithmetic did: the grey of what [normalise] returned. *)
Definition stored_inv (o : overflow) (scan : LidarScan) (f : ChanField) (min max : Z)
    (bmp : Tigr) (x y : Z) (bmp' : Tigr) : Prop :=
  same_shape bmp bmp'
  /\ (forall x' y', 0 <= x' < scan_w scan -> 0 <= y' < scan_h scan ->
        visited x y x' y' ->
        exists v, normalise o min max (value_at scan f x' y') = Ok v
                  /\ pix bmp' !! Z.to_nat (y' * scan_w scan + x') = Some (grey v)).

(** The scan [even_scan] from three metres further away, and a bitmap of
    its dimensions with something in it. *)
Definition away_scan : LidarScan :=
  mkScan 4 4 (fun _ => [3000; 3066; 3133; 3200; 3266; 3333; 3400; 3466;
                        3533; 3600; 3666; 3733; 3800; 3866; 3933; 4000]).
Definition used_bmp : Tigr := mkTigr 4 4 (replicate 16 (mkPixel 255 0 0 255)).

(** ** The blit *)

(** The first [n] pixels of the window are those of the shared bitmap. *)
Definition copied (s : Locking.state) (n : nat) : Prop :=
  forall j, (j < n)%nat -> (j < length (pix (Locking.screen s)))%nat ->
    pix (Locking.screen s) !! j = pix (Locking.bmp s) !! j.

(** In its blit [main] has copied the pixels before the one it is at, and
    at its unlock all of them. *)
Definition blit_inv (s : Locking.state) : Prop :=
  match Locking.pd s with
  | Locking.DBlit k => copied s k
  | Locking.DUnlock => copied s (length (pix (Locking.bmp s)))
  | _ => True
  end.

(** A process with a window and a bitmap of one pixel. *)
Definition tiny_start : Locking.state :=
  Locking.mkState Locking.APoll Locking.DClosed None
    (mkTigr 1 1 [mkPixel 7 7 7 255]) (mkMouse 0 0 0 0 0) flat_scan
    (mkTigr 1 1 [mkPixel 0 0 0 0]) true.

(** ** The cloud of lidar_view_example *)

(** What [cloud->set_xyz] was last given is the image by [cartesian] of a
    scan that [complete] accepted for the column window of the sensor. *)
Definition cloud_of_scan {sdk : Sdk} (l : LidarViewExample.locals sdk) : Prop :=
  match LidarViewExample.xyz sdk l with
  | None => True
  | Some p =>
      exists sc,
        complete sdk sc (column_window (LidarViewExample.info sdk l)) = true
        /\ p = cartesian sdk sc (LidarViewExample.lut sdk l)
  end.

Definition cloud_inv {sdk : Sdk} (l : LidarViewExample.locals sdk) (t : io) : Prop :=
  cloud_of_scan l
  /\ LidarViewExample.lut sdk l = make_xyz_lut sdk (LidarViewExample.info sdk l)
  /\ (is_Some (LidarViewExample.xyz sdk l) <-> Complete true ∈ calls t).

(** * Properties *)

(** ** Machine integers *)

Lemma in_int32_spec z : in_int32 z = true <-> INT32_MIN <= z <= INT32_MAX.
Proof. unfold in_int32. rewrite andb_true_iff, !Z.leb_le. tauto. Qed.

Lemma int32_exact o z : INT32_MIN <= z <= INT32_MAX -> int32 o z = Ok z.
Proof.
  intros Hz. unfold int32.
  now rewrite (proj2 (in_int32_spec z) Hz).
Qed.

Lemma to_int32_range z : INT32_MIN <= to_int32 z <= INT32_MAX.
Proof.
  unfold to_int32, INT32_MIN, INT32_MAX.
  pose proof (Z.mod_pos_bound (z + 2147483648) 4294967296). lia.
Qed.

Lemma to_int32_small z : INT32_MIN <= z <= INT32_MAX -> to_int32 z = z.
Proof.
  unfold to_int32, INT32_MIN, INT32_MAX. intros Hz.
  rewrite Z.mod_small by lia. lia.
Qed.

Lemma to_uint8_small z : 0 <= z <= 255 -> to_uint8 z = z.
Proof. intros Hz. unfold to_uint8. apply Z.mod_small. lia. Qed.

(** ** Loops *)

Section Loops.
Context {S : Type} (body : Z -> S -> result S) (I : Z -> S -> Prop).

(** If the loop returns, an invariant kept by every returning iteration
    holds at the end. *)
Lemma for_from_partial count : forall k s s',
  for_from k count body s = Ok s' ->
  I k s ->
  (forall j t t', k <= j < k + Z.of_nat count -> I j t -> body j t = Ok t' -> I (j + 1) t') ->
  I (k + Z.of_nat count) s'.
Proof.
  induction count as [|n IH]; intros k s s' Hrun Hk Hstep; simpl in Hrun.
  - injection Hrun as <-. now replace (k + Z.of_nat 0) with k by lia.
  - destruct (body k s) as [t|e] eqn:Hb; simpl in Hrun; [|discriminate].
    replace (k + Z.of_nat (Datatypes.S n)) with ((k + 1) + Z.of_nat n) by lia.
    apply (IH (k + 1) t s' Hrun).
    + apply (Hstep k s t); [lia|assumption..].
    + intros j u u' Hj. apply Hstep. lia.
Qed.

(** If every iteration returns and keeps the invariant, the loop returns. *)
Lemma for_from_total count : forall k s,
  I k s ->
  (forall j t, k <= j < k + Z.of_nat count -> I j t ->
     exists t', body j t = Ok t' /\ I (j + 1) t') ->
  exists s', for_from k count body s = Ok s' /\ I (k + Z.of_nat count) s'.
Proof.
  induction count as [|n IH]; intros k s Hk Hstep; simpl.
  - exists s. split; [reflexivity|]. now replace (k + Z.of_nat 0) with k by lia.
  - destruct (Hstep k s) as (t & Hb & Ht); [lia|assumption|].
    rewrite Hb. simpl.
    destruct (IH (k + 1) t Ht) as (s' & Hrun & Hs').
    + intros j u Hj. apply Hstep. lia.
    + exists s'. split; [assumption|].
      now replace (k + Z.of_nat (Datatypes.S n)) with ((k + 1) + Z.of_nat n) by lia.
Qed.

Lemma for_range_partial n s s' :
  for_range n body s = Ok s' ->
  I 0 s ->
  (forall j t t', 0 <= j < n -> I j t -> body j t = Ok t' -> I (j + 1) t') ->
  I (Z.max 0 n) s'.
Proof.
  unfold for_range. intros Hrun H0 Hstep.
  replace (Z.max 0 n) with (0 + Z.of_nat (Z.to_nat n)) by lia.
  apply (for_from_partial _ _ _ _ Hrun H0).
  intros j t t' Hj. apply Hstep. lia.
Qed.

Lemma for_range_total n s :
  I 0 s ->
  (forall j t, 0 <= j < n -> I j t -> exists t', body j t = Ok t' /\ I (j + 1) t') ->
  exists s', for_range n body s = Ok s' /\ I (Z.max 0 n) s'.
Proof.
  unfold for_range. intros H0 Hstep.
  replace (Z.max 0 n) with (0 + Z.of_nat (Z.to_nat n)) by lia.
  apply (for_from_total _ _ _ H0).
  intros j t Hj. apply Hstep. lia.
Qed.
End Loops.

(** Two nested loops, the outer one over [0 <= x < cols], the inner one over
    [0 <= y < rows]; [P x y s] reads: [s] is the state before iteration
    [(x, y)]. *)
Section Nest.
Context {S : Type} (body : Z -> Z -> S -> result S) (P : Z -> Z -> S -> Prop).
Context (cols rows : Z).
Hypothesis next_column :
  forall x t, 0 <= x < cols -> P x (Z.max 0 rows) t -> P (x + 1) 0 t.

Lemma nest_partial s s' :
  for_range cols (fun x => for_range rows (body x)) s = Ok s' ->
  P 0 0 s ->
  (forall x y t t', 0 <= x < cols -> 0 <= y < rows ->
     P x y t -> body x y t = Ok t' -> P x (y + 1) t') ->
  P (Z.max 0 cols) 0 s'.
Proof.
  intros Hrun H0 Hstep.
  apply (for_range_partial _ (fun x t => P x 0 t) _ _ _ Hrun H0).
  intros x t t' Hx Ht Hcol.
  apply next_column; [assumption|].
  apply (for_range_partial _ (P x) _ _ _ Hcol Ht).
  intros y u u' Hy. now apply Hstep.
Qed.

Lemma nest_total s :
  P 0 0 s ->
  (forall x y t, 0 <= x < cols -> 0 <= y < rows -> P x y t ->
     exists t', body x y t = Ok t' /\ P x (y + 1) t') ->
  exists s', for_range cols (fun x => for_range rows (body x)) s = Ok s'
             /\ P (Z.max 0 cols) 0 s'.
Proof.
  intros H0 Hstep.
  apply (for_range_total _ (fun x t => P x 0 t) _ _ H0).
  intros x t Hx Ht.
  destruct (for_range_total (body x) (P x) rows t Ht) as (t' & Hcol & Ht').
  - intros y u Hy. now apply Hstep.
  - exists t'. split; [assumption|]. now apply next_column.
Qed.
End Nest.

(** ** Reading the scan *)

Lemma field_ok_spec scan f :
  field_ok scan f = true ->
  0 <= scan_w scan /\ 0 <= scan_h scan
  /\ Z.of_nat (length (field scan f)) = scan_w scan * scan_h scan
  /\ Forall (fun u => 0 <= u < 4294967296) (field scan f).
Proof.
  unfold field_ok. rewrite !andb_true_iff, !Z.leb_le, Z.eqb_eq.
  intros [[[[[Hw Hh] _] _] Hlen] Hall]. repeat split; try assumption.
  apply Forall_forall. intros u Hu.
  rewrite forallb_forall in Hall.
  specialize (Hall u (proj1 (list_elem_of_In _ _) Hu)).
  rewrite andb_true_iff, Z.leb_le, Z.ltb_lt in Hall. lia.
Qed.

Lemma int_dims scan f :
  field_ok scan f = true -> int_w scan = scan_w scan /\ int_h scan = scan_h scan.
Proof.
  unfold field_ok. rewrite !andb_true_iff, !Z.leb_le.
  intros [[[[[Hw Hh] Hwmax] Hhmax] _] _].
  unfold int_w, int_h. split; apply to_int32_small; unfold INT32_MIN; lia.
Qed.

Lemma cell_index scan x y :
  0 <= x < scan_w scan -> 0 <= y < scan_h scan ->
  0 <= y * scan_w scan + x < scan_w scan * scan_h scan.
Proof. intros Hx Hy. nia. Qed.

Lemma img_at_ok scan f x y :
  field_ok scan f = true ->
  0 <= x < scan_w scan -> 0 <= y < scan_h scan ->
  img_at scan f y x = Ok (raw scan f x y)
  /\ field scan f !! Z.to_nat (y * scan_w scan + x) = Some (raw scan f x y).
Proof.
  intros Hok Hx Hy.
  destruct (field_ok_spec _ _ Hok) as (_ & _ & Hlen & _).
  pose proof (cell_index scan x y Hx Hy) as Hi.
  unfold img_at, raw.
  destruct (field scan f !! Z.to_nat (y * scan_w scan + x)) as [u|] eqn:Hu.
  - replace ((0 <=? y) && (y <? scan_h scan) && (0 <=? x) && (x <? scan_w scan))
      with true; [now split|].
    symmetry. rewrite !andb_true_iff, !Z.leb_le, !Z.ltb_lt. lia.
  - apply lookup_ge_None in Hu. lia.
Qed.

Lemma raw_uint32 scan f x y :
  field_ok scan f = true ->
  0 <= x < scan_w scan -> 0 <= y < scan_h scan ->
  0 <= raw scan f x y < 4294967296.
Proof.
  intros Hok Hx Hy.
  destruct (img_at_ok scan f x y Hok Hx Hy) as [_ Hu].
  destruct (field_ok_spec _ _ Hok) as (_ & _ & _ & Hall).
  rewrite Forall_forall in Hall. apply Hall.
  eapply list_elem_of_lookup_2, Hu.
Qed.

(** Every value of a field sits at some column and row of the scan. *)
Lemma field_cells scan f (v : Z) :
  field_ok scan f = true ->
  v ∈ to_int32 <$> field scan f <->
  exists x y, 0 <= x < scan_w scan /\ 0 <= y < scan_h scan /\ value_at scan f x y = v.
Proof.
  intros Hok.
  destruct (field_ok_spec _ _ Hok) as (Hw & Hh & Hlen & _).
  rewrite list_elem_of_fmap. split.
  - intros (u & -> & Hu).
    apply list_elem_of_lookup in Hu as [i Hi].
    pose proof (lookup_lt_Some _ _ _ Hi) as Hlt.
    assert (0 < scan_w scan) as Hpos by nia.
    exists (Z.of_nat i mod scan_w scan), (Z.of_nat i / scan_w scan).
    pose proof (Z.mod_pos_bound (Z.of_nat i) (scan_w scan) Hpos) as Hm.
    pose proof (Z.div_mod (Z.of_nat i) (scan_w scan) ltac:(lia)) as Hdm.
    assert (0 <= Z.of_nat i / scan_w scan) as Hd0 by (apply Z.div_pos; lia).
    assert (Z.of_nat i / scan_w scan < scan_h scan) as Hd1.
    { apply Z.div_lt_upper_bound; lia. }
    repeat split; try lia.
    unfold value_at, raw.
    replace (Z.to_nat (Z.of_nat i / scan_w scan * scan_w scan + Z.of_nat i mod scan_w scan))
      with i by lia.
    now rewrite Hi.
  - intros (x & y & Hx & Hy & <-).
    destruct (img_at_ok scan f x y Hok Hx Hy) as [_ Hu].
    exists (raw scan f x y). split; [reflexivity|].
    eapply list_elem_of_lookup_2, Hu.
Qed.

(** ** The minimum and maximum loops *)

Lemma minmax_step_inv scan f x y mm :
  field_ok scan f = true ->
  0 <= x < scan_w scan -> 0 <= y < scan_h scan ->
  minmax_inv scan f x y mm ->
  exists mm', minmax_step scan f x y mm = Ok mm' /\ minmax_inv scan f x (y + 1) mm'.
Proof.
  intros Hok Hx Hy (Hbnd & Hmin & Hmax).
  destruct (img_at_ok scan f x y Hok Hx Hy) as [Hread _].
  unfold minmax_step. rewrite Hread. simpl.
  fold (value_at scan f x y). set (v := value_at scan f x y) in *.
  eexists. split; [reflexivity|].
  unfold minmax_inv; simpl. split; [|split].
  - intros x' y' Hx' Hy' Hv'.
    assert ((x' = x /\ y' = y) \/ visited x y x' y') as [[-> ->]|Hv]
      by (unfold visited in *; lia).
    + fold v. destruct (Z.ltb_spec v (fst mm)), (Z.gtb_spec v (snd mm)); lia.
    + specialize (Hbnd x' y' Hx' Hy' Hv).
      destruct (Z.ltb_spec v (fst mm)), (Z.gtb_spec v (snd mm)); lia.
  - destruct (Z.ltb_spec v (fst mm)); [|assumption].
    right. exists x, y. auto.
  - destruct (Z.gtb_spec v (snd mm)); [|assumption].
    right. exists x, y. auto.
Qed.

Lemma scan_minmax_inv scan f :
  field_ok scan f = true ->
  exists mm, scan_minmax scan f = Ok mm
             /\ minmax_inv scan f (scan_w scan) 0 mm.
Proof.
  intros Hok.
  destruct (field_ok_spec _ _ Hok) as (Hw & Hh & _).
  destruct (int_dims _ _ Hok) as [Hiw Hih].
  unfold scan_minmax. rewrite Hiw, Hih.
  destruct (nest_total (minmax_step scan f) (minmax_inv scan f)
              (scan_w scan) (scan_h scan)) with (s := (INT32_MAX, INT32_MIN))
    as (mm & Hrun & Hinv).
  - intros x t Hx (Hbnd & Hmin & Hmax). repeat split; try assumption.
    + intros. apply Hbnd; try assumption. unfold visited in *. lia.
    + intros. apply Hbnd; try assumption. unfold visited in *. lia.
  - repeat split; try (now left); intros; unfold visited in *; lia.
  - intros x y t Hx Hy Ht. now apply minmax_step_inv.
  - exists mm. split; [assumption|].
    now replace (Z.max 0 (scan_w scan)) with (scan_w scan) in Hinv by lia.
Qed.

(** The loops compute the minimum and the maximum of the field. *)
Lemma scan_minmax_spec scan f lo hi :
  field_ok scan f = true ->
  is_minimum lo (to_int32 <$> field scan f) ->
  is_maximum hi (to_int32 <$> field scan f) ->
  scan_minmax scan f = Ok (lo, hi).
Proof.
  intros Hok [Hlo_in Hlo] [Hhi_in Hhi].
  destruct (scan_minmax_inv scan f Hok) as ([mn mx] & Hrun & Hbnd & Hmin & Hmax).
  simpl in *. rewrite Hrun. do 2 f_equal.
  - apply (field_cells scan f lo Hok) in Hlo_in as (x & y & Hx & Hy & Hv).
    assert (mn <= lo) as H1.
    { rewrite <- Hv. apply Hbnd; try assumption. unfold visited. lia. }
    assert (lo <= mn) as H2; [|lia].
    destruct Hmin as [->|(x' & y' & Hx' & Hy' & <-)].
    + rewrite <- Hv. apply to_int32_range.
    + rewrite Forall_forall in Hlo. apply Hlo.
      apply (field_cells scan f _ Hok). eauto.
  - apply (field_cells scan f hi Hok) in Hhi_in as (x & y & Hx & Hy & Hv).
    assert (hi <= mx) as H1.
    { rewrite <- Hv. apply Hbnd; try assumption. unfold visited. lia. }
    assert (mx <= hi) as H2; [|lia].
    destruct Hmax as [->|(x' & y' & Hx' & Hy' & <-)].
    + rewrite <- Hv. apply to_int32_range.
    + rewrite Forall_forall in Hhi. apply Hhi.
      apply (field_cells scan f _ Hok). eauto.
Qed.

(** ** Writing pixels *)

(** The four assignments store one pixel, when the index is in the array. *)
Lemma paint_spec bmp i vr vg vb va :
  paint bmp i vr vg vb va =
  if in_pix bmp i then
    Ok (mkTigr (w bmp) (h bmp)
          (<[Z.to_nat i := mkPixel (to_uint8 vr) (to_uint8 vg) (to_uint8 vb) (to_uint8 va)]>
             (pix bmp)))
  else Err OutOfBounds.
Proof.
  unfold paint, set_pix, in_pix.
  destruct ((0 <=? i) && (i <? Z.of_nat (length (pix bmp)))) eqn:Hi; [|reflexivity].
  simpl. rewrite !length_alter, Hi. simpl.
  rewrite !length_alter, Hi. simpl. rewrite !length_alter, Hi. simpl.
  f_equal. f_equal.
  rewrite !list_alter_alter_eq, list_insert_alter.
  apply list_alter_ext; [|reflexivity].
  intros p _. reflexivity.
Qed.

Lemma paint_Ok bmp i vr vg vb va bmp' :
  paint bmp i vr vg vb va = Ok bmp' ->
  0 <= i < Z.of_nat (length (pix bmp))
  /\ bmp' = mkTigr (w bmp) (h bmp)
       (<[Z.to_nat i := mkPixel (to_uint8 vr) (to_uint8 vg) (to_uint8 vb) (to_uint8 va)]>
          (pix bmp)).
Proof.
  rewrite paint_spec. unfold in_pix.
  destruct ((0 <=? i) && (i <? Z.of_nat (length (pix bmp)))) eqn:Hi; [|discriminate].
  rewrite andb_true_iff, Z.leb_le, Z.ltb_lt in Hi.
  intros [= <-]. now split.
Qed.

Lemma bmp_fits_spec scan bmp :
  bmp_fits scan bmp = true ->
  w bmp = scan_w scan /\ h bmp = scan_h scan
  /\ Z.of_nat (length (pix bmp)) = scan_w scan * scan_h scan
  /\ scan_w scan * scan_h scan <= INT32_MAX.
Proof.
  unfold bmp_fits. rewrite !andb_true_iff, !Z.eqb_eq, Z.leb_le. tauto.
Qed.

(** In a bitmap of the scan's dimensions the index is computed exactly. *)
Lemma pix_index_exact o scan bmp x y :
  w bmp = scan_w scan ->
  scan_w scan * scan_h scan <= INT32_MAX ->
  0 <= x < scan_w scan -> 0 <= y < scan_h scan ->
  pix_index o bmp x y = Ok (y * scan_w scan + x).
Proof.
  intros Hw Hmax Hx Hy.
  pose proof (cell_index scan x y Hx Hy) as Hi.
  unfold pix_index, mul32, add32. rewrite Hw.
  rewrite int32_exact by (unfold INT32_MIN; nia). simpl.
  apply int32_exact. unfold INT32_MIN. lia.
Qed.

(** The index depends on the bitmap's width only. *)
Lemma pix_index_width o bmp bmp' x y :
  w bmp' = w bmp -> pix_index o bmp' x y = pix_index o bmp x y.
Proof. intros Hw. unfold pix_index. now rewrite Hw. Qed.

(** ** The arithmetic of the normalisation *)

Lemma normalise_exact o min max v :
  min <= v <= max -> min < max -> (max - min) * 255 <= INT32_MAX ->
  normalise o min max v = Ok ((v - min) * 255 / (max - min))
  /\ 0 <= (v - min) * 255 / (max - min) <= 255.
Proof.
  intros Hv Hlt Hrange.
  assert (0 <= (v - min) * 255 / (max - min) <= 255) as Hq.
  { split.
    - apply Z.div_pos; lia.
    - apply Z.div_le_upper_bound; nia. }
  split; [|assumption].
  unfold normalise, sub32, mul32, div32.
  rewrite int32_exact by (unfold INT32_MIN; lia). simpl.
  rewrite int32_exact by (unfold INT32_MIN; nia). simpl.
  rewrite int32_exact by (unfold INT32_MIN; lia). simpl.
  destruct (Z.eqb_spec (max - min) 0) as [Heq|_]; [lia|].
  rewrite Z.quot_div_nonneg by lia.
  apply int32_exact. unfold INT32_MIN, INT32_MAX. lia.
Qed.

(** When all values are equal the division is a division by zero. *)
Lemma normalise_zero_range o m : normalise o m m m = Err DivideByZero.
Proof.
  unfold normalise, sub32, mul32, div32.
  replace (m - m) with 0 by lia. reflexivity.
Qed.

(** ** The pixel loops *)

Lemma pixel_step_Ok o scan f min max x y bmp bmp' :
  pixel_step o scan f min max x y bmp = Ok bmp' ->
  exists u v i,
    img_at scan f y x = Ok u
    /\ normalise o min max (to_int32 u) = Ok v
    /\ pix_index o bmp x y = Ok i
    /\ 0 <= i < Z.of_nat (length (pix bmp))
    /\ bmp' = mkTigr (w bmp) (h bmp) (<[Z.to_nat i := grey v]> (pix bmp)).
Proof.
  unfold pixel_step. intros Hstep.
  destruct (img_at scan f y x) as [u|] eqn:Hu; [|discriminate]. simpl in Hstep.
  destruct (normalise o min max (to_int32 u)) as [v|] eqn:Hv; [|discriminate].
  simpl in Hstep.
  destruct (pix_index o bmp x y) as [i|] eqn:Hi; [|discriminate]. simpl in Hstep.
  apply paint_Ok in Hstep as [Hin ->].
  exists u, v, i. repeat split; try assumption; lia.
Qed.

Lemma pixel_loops_opaque o scan f min max bmp bmp' :
  for_range (int_w scan) (fun x =>
    for_range (int_h scan) (fun y => pixel_step o scan f min max x y)) bmp = Ok bmp' ->
  opaque_inv o scan bmp (Z.max 0 (int_w scan)) 0 bmp'.
Proof.
  intros Hrun.
  apply (nest_partial (pixel_step o scan f min max) (opaque_inv o scan bmp)
           (int_w scan) (int_h scan)) with (s := bmp); try assumption.
  - intros x t Hx (Hshape & Hdone & Hrest). repeat split; try apply Hshape; try assumption.
    intros x' y' i Hx' Hy' Hv. apply Hdone; try assumption. unfold visited in *. lia.
  - repeat split; try reflexivity.
    + intros x' y' i Hx' Hy' Hv. unfold visited in Hv. lia.
    + intros j p Hp. now left.
  - intros x y t t' Hx Hy ((Hw & Hh & Hlen) & Hdone & Hrest) Hstep.
    apply pixel_step_Ok in Hstep as (u & v & i & _ & _ & Hi & Hin & ->).
    rewrite (pix_index_width o bmp t x y Hw) in Hi.
    split; [|split].
    + repeat split; simpl; try assumption. now rewrite length_insert.
    + intros x' y' i' Hx' Hy' Hv Hi'. simpl.
      destruct (decide (Z.to_nat i = Z.to_nat i')) as [<-|Hne].
      * exists (grey v). split; [|reflexivity].
        apply list_lookup_insert_eq. lia.
      * rewrite list_lookup_insert_ne by assumption.
        apply (Hdone x' y' i' Hx' Hy'); [|assumption].
        assert ((x' = x /\ y' = y) \/ visited x y x' y') as [[-> ->]|Hv']
          by (unfold visited in *; lia); [|assumption].
        congruence.
    + intros j p. simpl.
      destruct (decide (Z.to_nat i = j)) as [<-|Hne].
      * rewrite list_lookup_insert_eq by lia. intros [= <-]. now right.
      * rewrite list_lookup_insert_ne by assumption. apply Hrest.
Qed.

Lemma pixel_loops_grey o scan f min max bmp :
  field_ok scan f = true -> bmp_fits scan bmp = true ->
  (forall x y, 0 <= x < scan_w scan -> 0 <= y < scan_h scan ->
     min <= value_at scan f x y <= max) ->
  min < max -> (max - min) * 255 <= INT32_MAX ->
  exists bmp',
    for_range (scan_w scan) (fun x =>
      for_range (scan_h scan) (fun y => pixel_step o scan f min max x y)) bmp = Ok bmp'
    /\ grey_inv scan f min max bmp (scan_w scan) 0 bmp'.
Proof.
  intros Hok Hfits Hbnd Hlt Hrange.
  destruct (field_ok_spec _ _ Hok) as (Hw0 & Hh0 & _).
  destruct (bmp_fits_spec _ _ Hfits) as (Hbw & Hbh & Hblen & Hsize).
  destruct (nest_total (pixel_step o scan f min max) (grey_inv scan f min max bmp)
              (scan_w scan) (scan_h scan)) with (s := bmp) as (bmp' & Hrun & Hinv).
  - intros x t Hx [Hshape Hdone]. split; [assumption|].
    intros x' y' Hx' Hy' Hv. apply Hdone; try assumption. unfold visited in *. lia.
  - split; [repeat split|].
    intros x' y' Hx' Hy' Hv. unfold visited in Hv. lia.
  - intros x y t Hx Hy [(Hw & Hh & Hlen) Hdone].
    destruct (img_at_ok scan f x y Hok Hx Hy) as [Hread _].
    destruct (normalise_exact o min max (value_at scan f x y) (Hbnd x y Hx Hy) Hlt Hrange)
      as [Hnorm _].
    pose proof (cell_index scan x y Hx Hy) as Hi.
    unfold pixel_step. rewrite Hread. simpl.
    fold (value_at scan f x y). rewrite Hnorm. simpl.
    rewrite (pix_index_exact o scan t x y) by (try assumption; congruence). simpl.
    rewrite paint_spec. unfold in_pix.
    replace ((0 <=? y * scan_w scan + x)
             && (y * scan_w scan + x <? Z.of_nat (length (pix t)))) with true
      by (symmetry; rewrite andb_true_iff, Z.leb_le, Z.ltb_lt; lia).
    eexists. split; [reflexivity|]. split.
    + repeat split; simpl; try assumption. now rewrite length_insert.
    + intros x' y' Hx' Hy' Hv. simpl.
      assert ((x' = x /\ y' = y) \/ visited x y x' y') as [[-> ->]|Hv']
        by (unfold visited in *; lia).
      * rewrite list_lookup_insert_eq by lia. reflexivity.
      * rewrite list_lookup_insert_ne.
        -- now apply Hdone.
        -- pose proof (cell_index scan x' y' Hx' Hy').
           assert (y * scan_w scan + x <> y' * scan_w scan + x'); [|lia].
           unfold visited in Hv'. intros Heq.
           destruct (Z.lt_trichotomy y y') as [Hyy|[Hyy|Hyy]]; nia.
  - exists bmp'. split; [assumption|].
    now replace (Z.max 0 (scan_w scan)) with (scan_w scan) in Hinv by lia.
Qed.

(** ** scan_to_bmp *)

Lemma minmax_bounds scan f lo hi x y :
  field_ok scan f = true ->
  is_minimum lo (to_int32 <$> field scan f) ->
  is_maximum hi (to_int32 <$> field scan f) ->
  0 <= x < scan_w scan -> 0 <= y < scan_h scan ->
  lo <= value_at scan f x y <= hi.
Proof.
  intros Hok [_ Hlo] [_ Hhi] Hx Hy.
  rewrite Forall_forall in Hlo, Hhi.
  assert (value_at scan f x y ∈ to_int32 <$> field scan f) as Hin.
  { apply (field_cells scan f _ Hok). eauto. }
  split; [apply Hlo|apply Hhi]; assumption.
Qed.

(** Within [int32_t] the loops return, and store the grey of every value. *)
Lemma scan_to_bmp_grey o scan f bmp lo hi :
  field_ok scan f = true -> bmp_fits scan bmp = true ->
  is_minimum lo (to_int32 <$> field scan f) ->
  is_maximum hi (to_int32 <$> field scan f) ->
  lo < hi -> (hi - lo) * 255 <= INT32_MAX ->
  exists bmp',
    scan_to_bmp o scan f bmp = Ok bmp'
    /\ grey_inv scan f lo hi bmp (scan_w scan) 0 bmp'.
Proof.
  intros Hok Hfits Hlo Hhi Hlt Hrange.
  destruct (int_dims _ _ Hok) as [Hiw Hih].
  unfold scan_to_bmp.
  rewrite (scan_minmax_spec scan f lo hi Hok Hlo Hhi), Hiw, Hih. simpl.
  apply pixel_loops_grey; try assumption.
  intros x y Hx Hy. now apply minmax_bounds.
Qed.

Lemma scan_to_bmp_opaque o scan f bmp bmp' :
  scan_to_bmp o scan f bmp = Ok bmp' ->
  opaque_inv o scan bmp (Z.max 0 (int_w scan)) 0 bmp'.
Proof.
  unfold scan_to_bmp. intros Hrun.
  destruct (scan_minmax scan f) as [[mn mx]|] eqn:Hmm; [|discriminate].
  simpl in Hrun. eapply pixel_loops_opaque, Hrun.
Qed.

(** ** print_range *)

Lemma append_empty (s : string) : s +:+ EmptyString = s.
Proof.
  induction s as [|c s IH]; [reflexivity|].
  change (String c (s +:+ EmptyString) = String c s). now rewrite IH.
Qed.

Lemma string_app_assoc (s1 s2 s3 : string) :
  (s1 +:+ s2) +:+ s3 = s1 +:+ (s2 +:+ s3).
Proof.
  induction s1 as [|c s1 IH]; [reflexivity|].
  change (String c ((s1 +:+ s2) +:+ s3) = String c (s1 +:+ (s2 +:+ s3))).
  now rewrite IH.
Qed.

Lemma print_range_outside o scan f bmp x y :
  ~ (0 <= x < scan_w scan /\ 0 <= y < scan_h scan) ->
  print_range o scan f bmp x y = Ok (bmp, []).
Proof.
  intros Hout. unfold print_range.
  destruct (Z.ltb_spec x 0), (Z.geb_spec x (scan_w scan)); simpl; try reflexivity.
  destruct (Z.ltb_spec y 0), (Z.geb_spec y (scan_h scan)); simpl; try reflexivity.
  lia.
Qed.

Lemma print_range_inside o scan f bmp x y :
  0 <= x < scan_w scan -> 0 <= y < scan_h scan ->
  print_range o scan f bmp x y =
    (i ← pix_index o bmp x y;
     bmp ← paint bmp i 255 0 0 255;
     u ← img_at scan f y x;
     Ok (bmp, [format_range x y (to_int32 u)])).
Proof.
  intros Hx Hy. unfold print_range.
  destruct (Z.ltb_spec x 0), (Z.geb_spec x (scan_w scan)); try lia.
  destruct (Z.ltb_spec y 0), (Z.geb_spec y (scan_h scan)); try lia.
  reflexivity.
Qed.

(** In a bitmap of the scan's dimensions the probe stores the highlight
    colour at the cursor and prints the value there. *)
Lemma print_range_probe o scan f bmp x y :
  field_ok scan f = true -> bmp_fits scan bmp = true ->
  0 <= x < scan_w scan -> 0 <= y < scan_h scan ->
  print_range o scan f bmp x y =
    Ok (mkTigr (w bmp) (h bmp) (<[Z.to_nat (y * w bmp + x) := highlight]> (pix bmp)),
        [format_range x y (value_at scan f x y)]).
Proof.
  intros Hok Hfits Hx Hy.
  destruct (bmp_fits_spec _ _ Hfits) as (Hbw & Hbh & Hblen & Hsize).
  destruct (img_at_ok scan f x y Hok Hx Hy) as [Hread _].
  pose proof (cell_index scan x y Hx Hy) as Hi.
  rewrite print_range_inside by assumption.
  rewrite (pix_index_exact o scan bmp x y) by assumption. simpl.
  rewrite paint_spec. unfold in_pix.
  replace ((0 <=? y * scan_w scan + x)
           && (y * scan_w scan + x <? Z.of_nat (length (pix bmp)))) with true
    by (symmetry; rewrite andb_true_iff, Z.leb_le, Z.ltb_lt; lia).
  simpl. rewrite Hread. simpl. rewrite Hbw. reflexivity.
Qed.

Lemma print_range_opaque o scan f bmp x y bmp' out :
  print_range o scan f bmp x y = Ok (bmp', out) ->
  same_shape bmp bmp'
  /\ (forall i, 0 <= x < scan_w scan -> 0 <= y < scan_h scan ->
        pix_index o bmp x y = Ok i ->
        exists p, pix bmp' !! Z.to_nat i = Some p /\ a p = 255)
  /\ (forall j p, pix bmp' !! j = Some p -> pix bmp !! j = Some p \/ a p = 255).
Proof.
  intros Hrun.
  destruct (decide (0 <= x < scan_w scan /\ 0 <= y < scan_h scan)) as [[Hx Hy]|Hout].
  - rewrite print_range_inside in Hrun by assumption.
    destruct (pix_index o bmp x y) as [i|] eqn:Hi; [|discriminate]. simpl in Hrun.
    destruct (paint bmp i 255 0 0 255) as [b1|] eqn:Hp; [|discriminate]. simpl in Hrun.
    destruct (img_at scan f y x) as [u|]; [|discriminate]. simpl in Hrun.
    injection Hrun as <- <-.
    apply paint_Ok in Hp as [Hin ->]. simpl. split; [|split].
    + repeat split; simpl. now rewrite length_insert.
    + intros i' _ _ [= <-]. exists highlight. split; [|reflexivity].
      rewrite list_lookup_insert_eq by lia. reflexivity.
    + intros j p. destruct (decide (Z.to_nat i = j)) as [<-|Hne].
      * rewrite list_lookup_insert_eq by lia. intros [= <-]. now right.
      * rewrite list_lookup_insert_ne by assumption. now left.
  - rewrite print_range_outside in Hrun by assumption.
    injection Hrun as <- <-. split; [repeat split|]. split.
    + intros i Hx Hy. tauto.
    + intros j p Hp. now left.
Qed.

(** ** The normalisation *)

(** C1, as amended.  For every scan whose values, read as [int32_t], have a
    minimum [lo] and a maximum [hi] with [lo < hi] and
    [(hi - lo) * 255 <= INT32_MAX], [scan_to_bmp] returns, and the pixel of
    every value [v] holds the intensity [(v - lo) * 255 / (hi - lo)] in its
    three colours; the intensity is between 0 and 255, it is 0 for the
    minimum and 255 for the maximum. *)
Theorem scan_to_bmp_normalises o scan f bmp lo hi :
  field_ok scan f = true -> bmp_fits scan bmp = true ->
  is_minimum lo (to_int32 <$> field scan f) ->
  is_maximum hi (to_int32 <$> field scan f) ->
  lo < hi -> (hi - lo) * 255 <= INT32_MAX ->
  exists bmp',
    scan_to_bmp o scan f bmp = Ok bmp'
    /\ forall x y, 0 <= x < scan_w scan -> 0 <= y < scan_h scan ->
         let v := value_at scan f x y in
         let i := (v - lo) * 255 / (hi - lo) in
         pix bmp' !! Z.to_nat (y * w bmp + x) = Some (mkPixel i i i 255)
         /\ 0 <= i <= 255 /\ (v = lo -> i = 0) /\ (v = hi -> i = 255).
Proof.
  intros Hok Hfits Hlo Hhi Hlt Hrange.
  destruct (scan_to_bmp_grey o scan f bmp lo hi Hok Hfits Hlo Hhi Hlt Hrange)
    as (bmp' & Hrun & _ & Hpix).
  destruct (bmp_fits_spec _ _ Hfits) as (Hbw & _).
  exists bmp'. split; [assumption|].
  intros x y Hx Hy v i.
  pose proof (minmax_bounds scan f lo hi x y Hok Hlo Hhi Hx Hy) as Hv.
  destruct (normalise_exact o lo hi v Hv Hlt Hrange) as [_ Hi].
  split; [|split; [exact Hi|split]].
  - rewrite Hbw, (Hpix x y Hx Hy) by (unfold visited; lia).
    unfold grey. fold v. fold i. now rewrite to_uint8_small.
  - intros Heq. subst i. rewrite Heq. replace (lo - lo) with 0 by lia.
    apply Z.div_0_l. lia.
  - intros Heq. subst i. rewrite Heq.
    rewrite Z.mul_comm. apply Z.div_mul. lia.
Qed.

Lemma scan_to_bmp_normalises_witness :
  exists bmp',
    scan_to_bmp Trap even_scan RANGE even_bmp = Ok bmp'
    /\ forall x y, 0 <= x < 4 -> 0 <= y < 4 ->
         let v := value_at even_scan RANGE x y in
         let i := (v - 0) * 255 / (1000 - 0) in
         pix bmp' !! Z.to_nat (y * 4 + x) = Some (mkPixel i i i 255)
         /\ 0 <= i <= 255 /\ (v = 0 -> i = 0) /\ (v = 1000 -> i = 255).
Proof.
  apply (scan_to_bmp_normalises Trap even_scan RANGE even_bmp 0 1000).
  - reflexivity.
  - reflexivity.
  - split; [apply list_elem_of_In; simpl; tauto|].
    repeat constructor; vm_compute; discriminate.
  - split; [apply list_elem_of_In; simpl; tauto|].
    repeat constructor; vm_compute; discriminate.
  - lia.
  - vm_compute. discriminate.
Defined.

(** C1, as it is stated, fails on a scan with the values 0 and 10000000:
    the maximum is above the minimum, and [(v - min) * 255] is not an
    [int32_t].  With the overflow reported there is no bitmap; with
    wrap-around the pixel of the maximum holds 82, not 255.  It also fails
    on a scan with the values 0 and 4294967295: the larger one is read as
    -1, so that the pixel of 0 holds 255 and the pixel of 4294967295
    holds 0. *)
Lemma scan_to_bmp_overflow_counterexample :
  (field_ok far_scan RANGE = true /\ bmp_fits far_scan far_bmp = true
   /\ is_minimum 0 (field far_scan RANGE)
   /\ is_maximum 10000000 (field far_scan RANGE)
   /\ raw far_scan RANGE 1 0 = 10000000
   /\ scan_to_bmp Trap far_scan RANGE far_bmp = Err SignedOverflow
   /\ scan_to_bmp Wrap far_scan RANGE far_bmp
      = Ok (mkTigr 2 1 [mkPixel 0 0 0 255; mkPixel 82 82 82 255])
   /\ ~ (exists bmp', scan_to_bmp Trap far_scan RANGE far_bmp = Ok bmp'
                      /\ pix bmp' !! Z.to_nat (0 * 2 + 1) = Some (mkPixel 255 255 255 255))
   /\ ~ (exists bmp', scan_to_bmp Wrap far_scan RANGE far_bmp = Ok bmp'
                      /\ pix bmp' !! Z.to_nat (0 * 2 + 1) = Some (mkPixel 255 255 255 255)))
  /\ (field_ok top_scan RANGE = true /\ bmp_fits top_scan far_bmp = true
      /\ is_minimum 0 (field top_scan RANGE)
      /\ is_maximum 4294967295 (field top_scan RANGE)
      /\ raw top_scan RANGE 0 0 = 0 /\ raw top_scan RANGE 1 0 = 4294967295
      /\ scan_to_bmp Trap top_scan RANGE far_bmp
         = Ok (mkTigr 2 1 [mkPixel 255 255 255 255; mkPixel 0 0 0 255])
      /\ scan_to_bmp Wrap top_scan RANGE far_bmp
         = Ok (mkTigr 2 1 [mkPixel 255 255 255 255; mkPixel 0 0 0 255])).
Proof.
  split.
  - split; [reflexivity|]. split; [reflexivity|].
    split; [split; [apply list_elem_of_In; simpl; tauto|
                    repeat constructor; vm_compute; discriminate]|].
    split; [split; [apply list_elem_of_In; simpl; tauto|
                    repeat constructor; vm_compute; discriminate]|].
    split; [reflexivity|]. split; [reflexivity|]. split; [reflexivity|].
    split.
    + intros (bmp' & Hrun & _). vm_compute in Hrun. discriminate.
    + intros (bmp' & Hrun & Hpix). vm_compute in Hrun.
      injection Hrun as <-. vm_compute in Hpix. discriminate.
  - split; [reflexivity|]. split; [reflexivity|].
    split; [split; [apply list_elem_of_In; simpl; tauto|
                    repeat constructor; vm_compute; discriminate]|].
    split; [split; [apply list_elem_of_In; simpl; tauto|
                    repeat constructor; vm_compute; discriminate]|].
    repeat split; reflexivity.
Qed.

(** C10.  When every value of the field is in [0, 2^31), and the maximum
    [hi] is above the minimum [lo] by at most [(2^31 - 1) / 255], every
    value is read into an [int32_t] unchanged, [v - lo], [(v - lo) * 255] and
    [hi - lo] are [int32_t]s, [scan_to_bmp] returns, and the pixel of every
    value [u] holds [(u - lo) * 255 / (hi - lo)], rounded down. *)
Theorem scan_to_bmp_int32 o scan f bmp lo hi :
  field_ok scan f = true -> bmp_fits scan bmp = true ->
  Forall (fun u => 0 <= u < 2147483648) (field scan f) ->
  is_minimum lo (field scan f) -> is_maximum hi (field scan f) ->
  lo < hi -> hi - lo <= INT32_MAX / 255 ->
  exists bmp',
    scan_to_bmp o scan f bmp = Ok bmp'
    /\ forall x y, 0 <= x < scan_w scan -> 0 <= y < scan_h scan ->
         let u := raw scan f x y in
         let i := (u - lo) * 255 / (hi - lo) in
         value_at scan f x y = u
         /\ in_int32 (u - lo) = true /\ in_int32 ((u - lo) * 255) = true
         /\ in_int32 (hi - lo) = true
         /\ pix bmp' !! Z.to_nat (y * w bmp + x) = Some (mkPixel i i i 255).
Proof.
  intros Hok Hfits Hpos Hlo Hhi Hlt Hrange.
  assert (to_int32 <$> field scan f = field scan f) as Hsame.
  { rewrite <- (list_fmap_id (field scan f)) at 2.
    apply Forall_fmap_ext_1. eapply Forall_impl; [exact Hpos|].
    intros u Hu. simpl in Hu. unfold id. apply to_int32_small.
    unfold INT32_MIN, INT32_MAX. lia. }
  assert ((hi - lo) * 255 <= INT32_MAX) as Hmul.
  { pose proof (Z.mul_div_le INT32_MAX 255 ltac:(lia)). lia. }
  rewrite <- Hsame in Hlo, Hhi.
  destruct (scan_to_bmp_grey o scan f bmp lo hi Hok Hfits Hlo Hhi Hlt Hmul)
    as (bmp' & Hrun & _ & Hpix).
  destruct (bmp_fits_spec _ _ Hfits) as (Hbw & _).
  exists bmp'. split; [assumption|].
  intros x y Hx Hy u i.
  pose proof (minmax_bounds scan f lo hi x y Hok Hlo Hhi Hx Hy) as Hv.
  assert (value_at scan f x y = u) as Hvu.
  { unfold value_at. fold u. apply to_int32_small.
    destruct (img_at_ok scan f x y Hok Hx Hy) as [_ Hu].
    rewrite Forall_forall in Hpos.
    specialize (Hpos u (list_elem_of_lookup_2 _ _ _ Hu)).
    unfold INT32_MIN, INT32_MAX. lia. }
  rewrite Hvu in Hv.
  destruct (normalise_exact o lo hi u Hv Hlt Hmul) as [_ Hi].
  split; [assumption|].
  rewrite !in_int32_spec. unfold INT32_MIN in *.
  repeat split; try nia.
  rewrite Hbw, (Hpix x y Hx Hy) by (unfold visited; lia).
  unfold grey. rewrite Hvu. fold i. now rewrite to_uint8_small.
Qed.

Lemma scan_to_bmp_int32_witness :
  exists bmp',
    scan_to_bmp Trap even_scan RANGE even_bmp = Ok bmp'
    /\ forall x y, 0 <= x < 4 -> 0 <= y < 4 ->
         let u := raw even_scan RANGE x y in
         let i := (u - 0) * 255 / (1000 - 0) in
         value_at even_scan RANGE x y = u
         /\ in_int32 (u - 0) = true /\ in_int32 ((u - 0) * 255) = true
         /\ in_int32 (1000 - 0) = true
         /\ pix bmp' !! Z.to_nat (y * 4 + x) = Some (mkPixel i i i 255).
Proof.
  apply (scan_to_bmp_int32 Trap even_scan RANGE even_bmp 0 1000).
  - reflexivity.
  - reflexivity.
  - repeat constructor; vm_compute; discriminate.
  - split; [apply list_elem_of_In; simpl; tauto|].
    repeat constructor; vm_compute; discriminate.
  - split; [apply list_elem_of_In; simpl; tauto|].
    repeat constructor; vm_compute; discriminate.
  - lia.
  - vm_compute. discriminate.
Defined.

(** C3.  When the maximum of the values equals their minimum, nothing
    stands between the loops and the division by [max - min]:
    [scan_to_bmp] computes that minimum and maximum and ends in a division
    by zero, whatever the bitmap. *)
Theorem scan_to_bmp_zero_range o scan f bmp m :
  field_ok scan f = true ->
  is_minimum m (to_int32 <$> field scan f) ->
  is_maximum m (to_int32 <$> field scan f) ->
  scan_minmax scan f = Ok (m, m)
  /\ scan_to_bmp o scan f bmp = Err DivideByZero.
Proof.
  intros Hok Hlo Hhi.
  pose proof (scan_minmax_spec scan f m m Hok Hlo Hhi) as Hmm.
  split; [assumption|].
  pose proof Hlo as [Hin _].
  apply (field_cells scan f m Hok) in Hin as (x & y & Hx & Hy & _).
  assert (value_at scan f 0 0 = m) as Hv.
  { pose proof (minmax_bounds scan f m m 0 0 Hok Hlo Hhi). lia. }
  destruct (img_at_ok scan f 0 0 Hok) as [Hread _]; [lia..|].
  destruct (int_dims _ _ Hok) as [Hiw Hih].
  unfold scan_to_bmp. rewrite Hmm, Hiw, Hih. simpl.
  unfold for_range.
  destruct (Z.to_nat (scan_w scan)) as [|nx] eqn:Hnx; [lia|].
  destruct (Z.to_nat (scan_h scan)) as [|ny] eqn:Hny; [lia|].
  simpl.
  unfold pixel_step. rewrite Hread. simpl.
  fold (value_at scan f 0 0). rewrite Hv, normalise_zero_range. reflexivity.
Qed.

Lemma scan_to_bmp_zero_range_witness :
  scan_minmax flat_scan RANGE = Ok (7, 7)
  /\ scan_to_bmp Trap flat_scan RANGE (tigrBitmap 2 2) = Err DivideByZero.
Proof.
  apply (scan_to_bmp_zero_range Trap flat_scan RANGE (tigrBitmap 2 2) 7).
  - reflexivity.
  - split; [apply list_elem_of_In; simpl; tauto|].
    repeat constructor; vm_compute; discriminate.
  - split; [apply list_elem_of_In; simpl; tauto|].
    repeat constructor; vm_compute; discriminate.
Defined.

(** ** The frame write and the probe *)

Lemma write_frame_unfold o scan bmp mouse bmp1 :
  scan_to_bmp o scan RANGE bmp = Ok bmp1 ->
  write_frame o scan bmp mouse =
    if btn mouse =? 0 then Ok (bmp1, [])
    else print_range o scan RANGE bmp1 (x mouse) (y mouse).
Proof. intros Hrun. unfold write_frame. now rewrite Hrun. Qed.

Lemma same_shape_fits scan bmp bmp' :
  same_shape bmp bmp' -> bmp_fits scan bmp = true -> bmp_fits scan bmp' = true.
Proof.
  intros (Hw & Hh & Hlen) Hfits. unfold bmp_fits in *.
  now rewrite Hw, Hh, Hlen.
Qed.

(** C4, as amended.  Take a frame write on the shared bitmap, which has the
    dimensions of the scan, with the mouse button down and the cursor at a
    column and a row of the scan.  Whenever [scan_to_bmp] returns, with the
    bitmap [bmp1], the frame write returns: the pixel at the cursor holds
    the highlight colour (0xFF, 0, 0, 255), the other pixels are those of
    [bmp1], and the one line printed is the column, a space, the row,
    " : ", the value of the range there read as an [int32_t] (it is the raw
    value when that is below 2^31) and a line feed.  [scan_to_bmp] returns
    when the values of the range, read as [int32_t], have a minimum [lo]
    and a maximum [hi] with [lo < hi] and [(hi - lo) * 255 <= INT32_MAX].
    With the cursor elsewhere, [print_range] returns the bitmap as it was
    and prints nothing. *)
Theorem probe_overlay o scan bmp mouse :
  field_ok scan RANGE = true -> bmp_fits scan bmp = true ->
  (forall bmp1,
     scan_to_bmp o scan RANGE bmp = Ok bmp1 ->
     btn mouse <> 0 ->
     0 <= x mouse < scan_w scan -> 0 <= y mouse < scan_h scan ->
     exists bmp2,
       write_frame o scan bmp mouse
       = Ok (bmp2, [pretty (x mouse) +:+ " " +:+ pretty (y mouse) +:+ " : "
                    +:+ pretty (to_int32 (raw scan RANGE (x mouse) (y mouse))) +:+ "
"])
       /\ pix bmp2 !! Z.to_nat (y mouse * w bmp + x mouse) = Some (mkPixel 255 0 0 255)
       /\ (forall j, j <> Z.to_nat (y mouse * w bmp + x mouse) ->
             pix bmp2 !! j = pix bmp1 !! j)
       /\ (raw scan RANGE (x mouse) (y mouse) < 2147483648 ->
           to_int32 (raw scan RANGE (x mouse) (y mouse))
           = raw scan RANGE (x mouse) (y mouse)))
  /\ (forall lo hi,
        is_minimum lo (to_int32 <$> field scan RANGE) ->
        is_maximum hi (to_int32 <$> field scan RANGE) ->
        lo < hi -> (hi - lo) * 255 <= INT32_MAX ->
        exists bmp1, scan_to_bmp o scan RANGE bmp = Ok bmp1)
  /\ (forall f b x y, ~ (0 <= x < scan_w scan /\ 0 <= y < scan_h scan) ->
        print_range o scan f b x y = Ok (b, [])).
Proof.
  intros Hok Hfits. split; [|split].
  - intros bmp1 Hrun Hbtn Hx Hy.
    destruct (scan_to_bmp_opaque o scan RANGE bmp bmp1 Hrun) as (Hshape & _).
    pose proof (same_shape_fits scan bmp bmp1 Hshape Hfits) as Hfits1.
    destruct Hshape as (Hw1 & _ & Hlen1).
    destruct (bmp_fits_spec _ _ Hfits) as (Hbw & _ & Hblen & _).
    pose proof (cell_index scan _ _ Hx Hy) as Hi.
    rewrite (write_frame_unfold o scan bmp mouse bmp1 Hrun).
    destruct (Z.eqb_spec (btn mouse) 0) as [|_]; [contradiction|].
    rewrite (print_range_probe o scan RANGE bmp1 _ _ Hok Hfits1 Hx Hy).
    eexists. split; [reflexivity|]. simpl. rewrite Hw1.
    split; [|split].
    + apply list_lookup_insert_eq. lia.
    + intros j Hj. now apply list_lookup_insert_ne.
    + intros Hsmall. apply to_int32_small.
      pose proof (raw_uint32 scan RANGE _ _ Hok Hx Hy).
      unfold INT32_MIN, INT32_MAX. lia.
  - intros lo hi Hlo Hhi Hlt Hrange.
    destruct (scan_to_bmp_grey o scan RANGE bmp lo hi Hok Hfits Hlo Hhi Hlt Hrange)
      as (bmp1 & Hrun & _).
    now exists bmp1.
  - intros f b x y. apply print_range_outside.
Qed.

Lemma probe_overlay_witness :
  exists bmp2,
    write_frame Trap even_scan even_bmp (mkMouse 1 0 0 3 1)
    = Ok (bmp2, ["3 1 : 466
"])
    /\ pix bmp2 !! Z.to_nat (1 * 4 + 3) = Some (mkPixel 255 0 0 255).
Proof.
  destruct (probe_overlay Trap even_scan even_bmp (mkMouse 1 0 0 3 1)
              eq_refl eq_refl) as (Hprobe & Hreturns & _).
  destruct (Hreturns 0 1000) as [bmp1 Hrun].
  - split; [apply list_elem_of_In; simpl; tauto|].
    repeat constructor; vm_compute; discriminate.
  - split; [apply list_elem_of_In; simpl; tauto|].
    repeat constructor; vm_compute; discriminate.
  - lia.
  - vm_compute. discriminate.
  - destruct (Hprobe bmp1 Hrun) as (bmp2 & Hw & Hp & _); simpl; [lia..|].
    exists bmp2. split; [|exact Hp].
    vm_compute. vm_compute in Hw. exact Hw.
Defined.

(** C4, as it is stated, fails on a scan whose values are all 7, with the
    button down and the cursor at column 1, row 0 of the scan:
    [scan_to_bmp] divides by zero, so that the frame write gives no bitmap
    and prints nothing.  It also fails, in what is printed, on the scan
    with the values 0 and 4294967295 and the cursor on the larger one: the
    line printed holds -1, not the raw value. *)
Lemma probe_overlay_counterexample :
  (field_ok flat_scan RANGE = true /\ bmp_fits flat_scan (tigrBitmap 2 2) = true
   /\ btn (mkMouse 1 0 0 1 0) <> 0
   /\ 0 <= x (mkMouse 1 0 0 1 0) < scan_w flat_scan
   /\ 0 <= y (mkMouse 1 0 0 1 0) < scan_h flat_scan
   /\ write_frame Trap flat_scan (tigrBitmap 2 2) (mkMouse 1 0 0 1 0) = Err DivideByZero
   /\ write_frame Wrap flat_scan (tigrBitmap 2 2) (mkMouse 1 0 0 1 0) = Err DivideByZero
   /\ forall o, ~ (exists bmp2 out,
                     write_frame o flat_scan (tigrBitmap 2 2) (mkMouse 1 0 0 1 0)
                     = Ok (bmp2, out)))
  /\ (field_ok top_scan RANGE = true /\ bmp_fits top_scan far_bmp = true
      /\ raw top_scan RANGE 1 0 = 4294967295
      /\ forall o,
           write_frame o top_scan far_bmp (mkMouse 1 0 0 1 0)
           = Ok (mkTigr 2 1 [mkPixel 255 255 255 255; mkPixel 255 0 0 255],
                 ["1 0 : -1
"])).
Proof.
  split.
  - split; [reflexivity|]. split; [reflexivity|].
    split; [discriminate|]. split; [simpl; lia|]. split; [simpl; lia|].
    split; [reflexivity|]. split; [reflexivity|].
    intros [|] (bmp2 & out & Hrun); vm_compute in Hrun; discriminate.
  - split; [reflexivity|]. split; [reflexivity|]. split; [reflexivity|].
    intros [|]; reflexivity.
Qed.

(** ** Opacity *)

Lemma write_frame_opaque o scan bmp mouse bmp' out :
  write_frame o scan bmp mouse = Ok (bmp', out) ->
  same_shape bmp bmp' /\ opaque_after o bmp bmp' (framed scan mouse).
Proof.
  unfold write_frame. intros Hrun.
  destruct (scan_to_bmp o scan RANGE bmp) as [bmp1|] eqn:Hscan; [|discriminate].
  simpl in Hrun.
  destruct (scan_to_bmp_opaque o scan RANGE bmp bmp1 Hscan) as (Hshape & Hdone & Hrest).
  destruct (Z.eqb_spec (btn mouse) 0) as [Hbtn|Hbtn].
  - injection Hrun as <- <-. split; [assumption|]. split; [|assumption].
    intros x' y' i [[Hx Hy]|(Hdown & _)]; [|contradiction].
    apply Hdone; try assumption. unfold visited. lia.
  - apply print_range_opaque in Hrun as (Hshape2 & Hdone2 & Hrest2).
    destruct Hshape as (Hw & Hh & Hlen), Hshape2 as (Hw2 & Hh2 & Hlen2).
    split; [repeat split; congruence|]. split.
    + intros x' y' i [[Hx Hy]|(_ & -> & -> & Hx & Hy)] Hi.
      * destruct (Hdone x' y' i Hx Hy) as (p1 & Hp1 & Ha1);
          [unfold visited; lia|assumption|].
        destruct (lookup_lt_is_Some_2 (pix bmp') (Z.to_nat i)) as [p2 Hp2].
        { rewrite Hlen2. eapply lookup_lt_Some, Hp1. }
        exists p2. split; [assumption|].
        destruct (Hrest2 _ _ Hp2) as [Hsame|Ha2]; [congruence|assumption].
      * apply Hdone2; try assumption.
        now rewrite (pix_index_width o bmp bmp1).
    + intros j p Hp. destruct (Hrest2 _ _ Hp) as [Hsame|Ha2]; [|now right].
      now apply Hrest.
Qed.

(** C9.  Every pixel that [scan_to_bmp] stores (one for each cell of the
    scan), that [print_range] stores (the one at the cursor, when the
    cursor is in the scan) and that a frame write stores has alpha 255,
    and a pixel they do not store is as it was; so after a frame write to a
    bitmap of the scan's dimensions every pixel of the bitmap is opaque. *)
Theorem written_pixels_opaque o scan f bmp :
  (forall bmp', scan_to_bmp o scan f bmp = Ok bmp' ->
     opaque_after o bmp bmp' (drawn scan))
  /\ (forall x y bmp' out, print_range o scan f bmp x y = Ok (bmp', out) ->
        opaque_after o bmp bmp' (fun x' y' => x' = x /\ y' = y /\ in_scan scan x y))
  /\ (forall mouse bmp' out, write_frame o scan bmp mouse = Ok (bmp', out) ->
        opaque_after o bmp bmp' (framed scan mouse)
        /\ (field_ok scan RANGE = true -> bmp_fits scan bmp = true ->
            Forall (fun p => a p = 255) (pix bmp'))).
Proof.
  split; [|split].
  - intros bmp' Hrun.
    destruct (scan_to_bmp_opaque o scan f bmp bmp' Hrun) as (_ & Hdone & Hrest).
    split; [|assumption].
    intros x y i [Hx Hy]. apply Hdone; try assumption. unfold visited. lia.
  - intros x y bmp' out Hrun.
    destruct (print_range_opaque o scan f bmp x y bmp' out Hrun) as (_ & Hdone & Hrest).
    split; [|assumption].
    intros x' y' i (-> & -> & Hx & Hy). now apply Hdone.
  - intros mouse bmp' out Hrun.
    destruct (write_frame_opaque o scan bmp mouse bmp' out Hrun)
      as ((Hw & Hh & Hlen) & Hdone & Hrest).
    split; [now split|].
    intros Hok Hfits.
    destruct (field_ok_spec _ _ Hok) as (Hw0 & Hh0 & _).
    destruct (int_dims _ _ Hok) as [Hiw Hih].
    destruct (bmp_fits_spec _ _ Hfits) as (Hbw & Hbh & Hblen & Hsize).
    apply Forall_lookup. intros j p Hp.
    pose proof (lookup_lt_Some _ _ _ Hp) as Hlt. rewrite Hlen in Hlt.
    assert (0 < scan_w scan) as Hpos by nia.
    pose proof (Z.mod_pos_bound (Z.of_nat j) (scan_w scan) Hpos) as Hm.
    pose proof (Z.div_mod (Z.of_nat j) (scan_w scan) ltac:(lia)) as Hdm.
    assert (0 <= Z.of_nat j / scan_w scan) as Hd0 by (apply Z.div_pos; lia).
    assert (Z.of_nat j / scan_w scan < scan_h scan) as Hd1.
    { apply Z.div_lt_upper_bound; lia. }
    destruct (Hdone (Z.of_nat j mod scan_w scan) (Z.of_nat j / scan_w scan) (Z.of_nat j))
      as (p' & Hp' & Ha).
    + left. unfold drawn. rewrite Hiw, Hih. split; lia.
    + rewrite (pix_index_exact o scan bmp) by (try assumption; lia).
      f_equal. lia.
    + rewrite Nat2Z.id in Hp'. congruence.
Qed.

Lemma written_pixels_opaque_witness :
  Forall (fun p => a p = 255)
    (pix (match write_frame Trap even_scan even_bmp (mkMouse 1 0 0 3 1) with
          | Ok (b, _) => b
          | Err _ => even_bmp
          end)).
Proof.
  destruct (written_pixels_opaque Trap even_scan RANGE even_bmp) as (_ & _ & Hframe).
  destruct (write_frame Trap even_scan even_bmp (mkMouse 1 0 0 3 1))
    as [[b out]|e] eqn:Hrun.
  - destruct (Hframe _ _ _ Hrun) as [_ Hall]. apply Hall; reflexivity.
  - vm_compute in Hrun. discriminate.
Defined.

(** ** The programs *)

(** C2.  Started without a host name, view_tigr prints no usage message and
    has no exit status: [argv[1]] is a null pointer, and [main] makes a
    [std::string] of it before anything else.  lidar_view_example, from
    which view_tigr differs here, prints its usage message and returns
    [EXIT_SUCCESS]. *)
Theorem view_tigr_without_hostname sdk t :
  ViewTigr.main sdk ["view_tigr"] t = Undefined NullPointer t
  /\ LidarViewExample.main sdk ["lidar_view_example"] t
     = Exited EXIT_SUCCESS (to_cerr (LidarViewExample.usage sdk) t).
Proof. split; reflexivity. Qed.

(** lidar_view_example checks the number of its arguments. *)
Lemma lidar_view_example_usage sdk argv t :
  length argv <> 2%nat -> length argv <> 3%nat ->
  LidarViewExample.main sdk argv t
  = Exited (if decide (length argv = 1%nat) then EXIT_SUCCESS else EXIT_FAILURE)
      (to_cerr (LidarViewExample.usage sdk) t).
Proof.
  intros H2 H3. unfold LidarViewExample.main.
  destruct (Z.eqb_spec (Z.of_nat (length argv)) 2) as [|_]; [lia|].
  destruct (Z.eqb_spec (Z.of_nat (length argv)) 3) as [|_]; [lia|].
  simpl. f_equal.
  destruct (Z.eqb_spec (Z.of_nat (length argv)) 1), (decide (length argv = 1%nat));
    try reflexivity; lia.
Qed.

(** ** The turn of the loop, case by case *)

Section ViewTigrTurn.
Context (sdk : Sdk) (o : overflow).
Import ViewTigr.

Lemma view_tigr_poll_error app l t c st c' :
  handle sdk app = Some c -> poll_client sdk c = (st, c') ->
  has_flag st (CLIENT_ERROR sdk) = true ->
  iteration sdk o (app, l) t
  = FATAL "Sensor client returned error state!" (call (PollClient st) t).
Proof.
  intros Hh Hpoll Herr. unfold iteration. now rewrite Hh, Hpoll, Herr.
Qed.

Lemma view_tigr_poll_fine app l t c st c' :
  handle sdk app = Some c -> poll_client sdk c = (st, c') ->
  has_flag st (CLIENT_ERROR sdk) = false ->
  iteration sdk o (app, l) t
  = and_then (lidar_data sdk o st (with_handle sdk c' app, l) (call (PollClient st) t))
      (imu_data sdk st).
Proof.
  intros Hh Hpoll Herr. unfold iteration. now rewrite Hh, Hpoll, Herr.
Qed.

Lemma view_tigr_read_failure st app l t c buf c' :
  has_flag st (LIDAR_DATA sdk) = true ->
  handle sdk app = Some c ->
  read_lidar_packet sdk c (packet_buf sdk l) (pf sdk l) = (false, buf, c') ->
  lidar_data sdk o st (app, l) t
  = FATAL "Failed to read a packet of the expected size!"
      (call (ReadLidarPacket false) t).
Proof.
  intros Hflag Hh Hread. unfold lidar_data. now rewrite Hflag, Hh, Hread.
Qed.

Lemma view_tigr_imu st app l t c ok buf c' :
  has_flag st (IMU_DATA sdk) = true ->
  handle sdk app = Some c ->
  read_imu_packet sdk c (packet_buf sdk l) (pf sdk l) = (ok, buf, c') ->
  imu_data sdk st (app, l) t
  = Running (with_handle sdk c' app, with_packet_buf sdk buf l)
      (call (ReadImuPacket ok) t).
Proof.
  intros Hflag Hh Hread. unfold imu_data. now rewrite Hflag, Hh, Hread.
Qed.
End ViewTigrTurn.

Section LidarViewExampleTurn.
Context (sdk : Sdk).
Import LidarViewExample.

Lemma lidar_view_poll_error l t st c' :
  poll_client sdk (handle sdk l) = (st, c') ->
  has_flag st (CLIENT_ERROR sdk) = true ->
  iteration sdk l t
  = FATAL "Sensor client returned error state!" (call (PollClient st) t).
Proof.
  intros Hpoll Herr. unfold iteration. now rewrite Hpoll, Herr.
Qed.

Lemma lidar_view_poll_fine l t st c' :
  poll_client sdk (handle sdk l) = (st, c') ->
  has_flag st (CLIENT_ERROR sdk) = false ->
  iteration sdk l t
  = and_then (lidar_data sdk st (with_handle sdk c' l) (call (PollClient st) t))
      (imu_data sdk st).
Proof.
  intros Hpoll Herr. unfold iteration. now rewrite Hpoll, Herr.
Qed.

Lemma lidar_view_read_failure st l t buf c' :
  has_flag st (LIDAR_DATA sdk) = true ->
  read_lidar_packet sdk (handle sdk l) (packet_buf sdk l) (pf sdk l) = (false, buf, c') ->
  lidar_data sdk st l t
  = FATAL "Failed to read a packet of the expected size!"
      (call (ReadLidarPacket false) t).
Proof.
  intros Hflag Hread. unfold lidar_data. now rewrite Hflag, Hread.
Qed.

Lemma lidar_view_imu st l t ok buf c' :
  has_flag st (IMU_DATA sdk) = true ->
  read_imu_packet sdk (handle sdk l) (packet_buf sdk l) (pf sdk l) = (ok, buf, c') ->
  imu_data sdk st l t
  = Running (with_packet_buf sdk buf (with_handle sdk c' l))
      (call (ReadImuPacket ok) t).
Proof.
  intros Hflag Hread. unfold imu_data. now rewrite Hflag, Hread.
Qed.
End LidarViewExampleTurn.

(** ** Fatal errors *)

Lemma fatal_exit_FATAL {A : Type} msg said t t' made :
  cerr t' = cerr t +:+ said -> cout t' = cout t -> calls t' = calls t ++ made ->
  fatal_exit (@FATAL A msg t') t said msg made.
Proof.
  intros Hcerr Hcout Hcalls. eexists. split; [reflexivity|]. simpl.
  split; [|split; assumption].
  rewrite Hcerr, !string_app_assoc. reflexivity.
Qed.

Lemma display_step_keeps o s acc s' :
  Locking.step o s Locking.Display acc s' ->
  Locking.bmp s' = Locking.bmp s /\ Locking.pa s' = Locking.pa s.
Proof. inversion 1; subst; simpl; auto. Qed.

Lemma display_only_keeps o s0 s :
  display_only o s0 s ->
  Locking.bmp s = Locking.bmp s0 /\ Locking.pa s = Locking.pa s0.
Proof.
  induction 1 as [s|s1 s2 s3 [acc Hstep] _ [IHb IHp]]; [auto|].
  destruct (display_step_keeps o s1 acc s2 Hstep) as [Hb Hp].
  split; congruence.
Qed.

Lemma ended_no_step o s th acc s' :
  Locking.alive s = false -> ~ Locking.step o s th acc s'.
Proof. intros Hdead Hstep. inversion Hstep; congruence. Qed.

(** C5, as amended.  In both programs a connection that fails, a poll that
    reports the error state and a read of a lidar packet that does not
    return a whole packet each end the process with [EXIT_FAILURE]:
    [std::cerr] then holds what it held, what the program had written
    before, the message and a line end; the call that failed is the last
    call made.  A read of an IMU packet that fails is no error: the turn
    goes on and writes nothing.  When the first poll of [render_thread]
    reports the error state, the poll is the only call of the thread, and
    the lock is never taken; with [main] taking any steps of its own in
    between, the shared bitmap is then the one [main] allocated, and the
    process takes no step any more. *)
Theorem fatal_errors sdk o :
  (forall prog host rest t,
     init_client sdk host EmptyString = None ->
     fatal_exit (ViewTigr.main sdk (prog :: host :: rest) t) t
       (greeting sdk host) "Failed to connect"
       [InitLogger; InitClient host EmptyString false])
  /\ (forall prog host t,
        init_client sdk host EmptyString = None ->
        fatal_exit (LidarViewExample.main sdk [prog; host] t) t
          (greeting sdk host) "Failed to connect"
          [InitLogger; InitClient host EmptyString false])
  /\ (forall prog host dest t,
        init_client sdk host dest = None ->
        fatal_exit (LidarViewExample.main sdk [prog; host; dest] t) t
          (greeting sdk host) "Failed to connect"
          [InitLogger; InitClient host dest false])
  /\ (forall app l t c st c',
        ViewTigr.handle sdk app = Some c -> poll_client sdk c = (st, c') ->
        has_flag st (CLIENT_ERROR sdk) = true ->
        fatal_exit (ViewTigr.iteration sdk o (app, l) t) t
          EmptyString "Sensor client returned error state!" [PollClient st])
  /\ (forall l t st c',
        poll_client sdk (LidarViewExample.handle sdk l) = (st, c') ->
        has_flag st (CLIENT_ERROR sdk) = true ->
        fatal_exit (LidarViewExample.iteration sdk l t) t
          EmptyString "Sensor client returned error state!" [PollClient st])
  /\ (forall app l t c st c' buf c'',
        ViewTigr.handle sdk app = Some c -> poll_client sdk c = (st, c') ->
        has_flag st (CLIENT_ERROR sdk) = false ->
        has_flag st (LIDAR_DATA sdk) = true ->
        read_lidar_packet sdk c' (ViewTigr.packet_buf sdk l) (ViewTigr.pf sdk l)
        = (false, buf, c'') ->
        fatal_exit (ViewTigr.iteration sdk o (app, l) t) t
          EmptyString "Failed to read a packet of the expected size!"
          [PollClient st; ReadLidarPacket false])
  /\ (forall l t st c' buf c'',
        poll_client sdk (LidarViewExample.handle sdk l) = (st, c') ->
        has_flag st (CLIENT_ERROR sdk) = false ->
        has_flag st (LIDAR_DATA sdk) = true ->
        read_lidar_packet sdk c' (LidarViewExample.packet_buf sdk l)
          (LidarViewExample.pf sdk l) = (false, buf, c'') ->
        fatal_exit (LidarViewExample.iteration sdk l t) t
          EmptyString "Failed to read a packet of the expected size!"
          [PollClient st; ReadLidarPacket false])
  /\ (forall app t m mice c st c',
        ViewTigr.handle sdk app = Some c -> poll_client sdk c = (st, c') ->
        has_flag st (CLIENT_ERROR sdk) = true ->
        fatal_exit (ViewTigr.render_thread sdk o (m :: mice) app t) t
          (describe (ViewTigr.info sdk app)) "Sensor client returned error state!"
          [PollClient st])
  /\ (forall app l t c st c' ok buf c'',
        ViewTigr.handle sdk app = Some c -> poll_client sdk c = (st, c') ->
        has_flag st (CLIENT_ERROR sdk) = false ->
        has_flag st (LIDAR_DATA sdk) = false ->
        has_flag st (IMU_DATA sdk) = true ->
        read_imu_packet sdk c' (ViewTigr.packet_buf sdk l) (ViewTigr.pf sdk l)
        = (ok, buf, c'') ->
        exists s' t',
          ViewTigr.iteration sdk o (app, l) t = Running s' t'
          /\ cerr t' = cerr t /\ cout t' = cout t
          /\ calls t' = calls t ++ [PollClient st; ReadImuPacket ok])
  /\ (forall l t st c' ok buf c'',
        poll_client sdk (LidarViewExample.handle sdk l) = (st, c') ->
        has_flag st (CLIENT_ERROR sdk) = false ->
        has_flag st (LIDAR_DATA sdk) = false ->
        has_flag st (IMU_DATA sdk) = true ->
        read_imu_packet sdk c' (LidarViewExample.packet_buf sdk l)
          (LidarViewExample.pf sdk l) = (ok, buf, c'') ->
        exists l' t',
          LidarViewExample.iteration sdk l t = Running l' t'
          /\ cerr t' = cerr t /\ cout t' = cout t
          /\ calls t' = calls t ++ [PollClient st; ReadImuPacket ok])
  /\ (forall s0 s acc s',
        Locking.initial s0 -> display_only o s0 s ->
        Locking.step o s Locking.Acquisition acc s' ->
        Locking.alive s' = false ->
        acc = Locking.Quiet
        /\ Locking.bmp s' = Locking.bmp s0
        /\ forall th acc' s'', ~ Locking.step o s' th acc' s'').
Proof.
  repeat apply conj.
  - intros prog host rest t Hconn.
    unfold ViewTigr.main, ViewTigr.init. simpl. rewrite Hconn. simpl.
    apply fatal_exit_FATAL; simpl; [|reflexivity|now rewrite <- app_assoc].
    rewrite !string_app_assoc. reflexivity.
  - intros prog host t Hconn.
    unfold LidarViewExample.main. simpl. rewrite Hconn. simpl.
    apply fatal_exit_FATAL; simpl; [|reflexivity|now rewrite <- app_assoc].
    rewrite !string_app_assoc. reflexivity.
  - intros prog host dest t Hconn.
    unfold LidarViewExample.main. simpl. rewrite Hconn. simpl.
    apply fatal_exit_FATAL; simpl; [|reflexivity|now rewrite <- app_assoc].
    rewrite !string_app_assoc. reflexivity.
  - intros app l t c st c' Hh Hpoll Herr.
    rewrite (view_tigr_poll_error sdk o app l t c st c' Hh Hpoll Herr).
    apply fatal_exit_FATAL; simpl; [|reflexivity..].
    symmetry. apply append_empty.
  - intros l t st c' Hpoll Herr.
    rewrite (lidar_view_poll_error sdk l t st c' Hpoll Herr).
    apply fatal_exit_FATAL; simpl; [|reflexivity..].
    symmetry. apply append_empty.
  - intros app l t c st c' buf c'' Hh Hpoll Herr Hlidar Hread.
    rewrite (view_tigr_poll_fine sdk o app l t c st c' Hh Hpoll Herr).
    rewrite (view_tigr_read_failure sdk o st (ViewTigr.with_handle sdk c' app) l _ c' buf c''
               Hlidar eq_refl Hread).
    apply fatal_exit_FATAL; simpl; [|reflexivity|now rewrite <- app_assoc].
    symmetry. apply append_empty.
  - intros l t st c' buf c'' Hpoll Herr Hlidar Hread.
    rewrite (lidar_view_poll_fine sdk l t st c' Hpoll Herr).
    rewrite (lidar_view_read_failure sdk st (LidarViewExample.with_handle sdk c' l) _ buf c''
               Hlidar Hread).
    apply fatal_exit_FATAL; simpl; [|reflexivity|now rewrite <- app_assoc].
    symmetry. apply append_empty.
  - intros app t m mice c st c' Hh Hpoll Herr.
    unfold ViewTigr.render_thread, ViewTigr.render_thread_start.
    cbn [and_then ViewTigr.loop fst snd].
    rewrite (view_tigr_poll_error sdk o (ViewTigr.with_mouse sdk m app) _ _ c st c'
               Hh Hpoll Herr).
    cbn [and_then]. apply fatal_exit_FATAL; reflexivity.
  - intros app l t c st c' ok buf c'' Hh Hpoll Herr Hlidar Himu Hread.
    rewrite (view_tigr_poll_fine sdk o app l t c st c' Hh Hpoll Herr).
    unfold ViewTigr.lidar_data. rewrite Hlidar. cbn [and_then].
    rewrite (view_tigr_imu sdk st (ViewTigr.with_handle sdk c' app) l _ c' ok buf c''
               Himu eq_refl Hread).
    do 2 eexists. split; [reflexivity|]. simpl.
    repeat split. now rewrite <- app_assoc.
  - intros l t st c' ok buf c'' Hpoll Herr Hlidar Himu Hread.
    rewrite (lidar_view_poll_fine sdk l t st c' Hpoll Herr).
    unfold LidarViewExample.lidar_data. rewrite Hlidar. cbn [and_then].
    rewrite (lidar_view_imu sdk st (LidarViewExample.with_handle sdk c' l) _ ok buf c''
               Himu Hread).
    do 2 eexists. split; [reflexivity|]. simpl.
    repeat split. now rewrite <- app_assoc.
  - intros s0 s acc s' (Hpa & _) Honly Hstep Hdead.
    destruct (display_only_keeps o s0 s Honly) as [Hbmp Hpc].
    rewrite Hpa in Hpc.
    assert (acc = Locking.Quiet /\ Locking.bmp s' = Locking.bmp s) as [Hacc Hsame].
    { inversion Hstep; subst; simpl in *; try congruence; auto. }
    split; [exact Hacc|]. split; [congruence|].
    intros th acc' s''. now apply ended_no_step.
Qed.

Lemma fatal_errors_witness :
  fatal_exit (ViewTigr.main (script_sdk false []) ["view_tigr"; "os-1"] no_io) no_io
    (greeting (script_sdk false []) "os-1") "Failed to connect"
    [InitLogger; InitClient "os-1" EmptyString false]
  /\ fatal_exit (LidarViewExample.main (script_sdk false []) ["client_example"; "os-1"] no_io)
       no_io (greeting (script_sdk false []) "os-1") "Failed to connect"
       [InitLogger; InitClient "os-1" EmptyString false]
  /\ fatal_exit (LidarViewExample.main (script_sdk false [])
                   ["client_example"; "os-1"; "10.0.0.1"] no_io)
       no_io (greeting (script_sdk false []) "os-1") "Failed to connect"
       [InitLogger; InitClient "os-1" "10.0.0.1" false]
  /\ fatal_exit (ViewTigr.iteration (script_sdk true [(1, true)]) Trap
                   (example_app [(1, true)], example_thread [(1, true)]) no_io)
       no_io EmptyString "Sensor client returned error state!" [PollClient 1]
  /\ fatal_exit (LidarViewExample.iteration (script_sdk true [(1, true)])
                   (example_main [(1, true)]) no_io)
       no_io EmptyString "Sensor client returned error state!" [PollClient 1]
  /\ fatal_exit (ViewTigr.iteration (script_sdk true [(2, false)]) Trap
                   (example_app [(2, false)], example_thread [(2, false)]) no_io)
       no_io EmptyString "Failed to read a packet of the expected size!"
       [PollClient 2; ReadLidarPacket false]
  /\ fatal_exit (LidarViewExample.iteration (script_sdk true [(2, false)])
                   (example_main [(2, false)]) no_io)
       no_io EmptyString "Failed to read a packet of the expected size!"
       [PollClient 2; ReadLidarPacket false]
  /\ fatal_exit (ViewTigr.render_thread (script_sdk true [(1, true)]) Trap
                   [mkMouse 0 0 0 0 0] (example_app [(1, true)]) no_io)
       no_io (describe (ViewTigr.info _ (example_app [(1, true)])))
       "Sensor client returned error state!" [PollClient 1]
  /\ (exists s' t',
        ViewTigr.iteration (script_sdk true [(4, false)]) Trap
          (example_app [(4, false)], example_thread [(4, false)]) no_io
        = Running s' t'
        /\ cerr t' = EmptyString
        /\ calls t' = [PollClient 4; ReadImuPacket false])
  /\ (exists l' t',
        LidarViewExample.iteration (script_sdk true [(4, false)])
          (example_main [(4, false)]) no_io
        = Running l' t'
        /\ cerr t' = EmptyString
        /\ calls t' = [PollClient 4; ReadImuPacket false])
  /\ Locking.bmp (Locking.ended lock_start) = Locking.bmp lock_start.
Proof.
  destruct (fatal_errors (script_sdk false []) Trap) as (H1 & H2 & H3 & _).
  destruct (fatal_errors (script_sdk true [(1, true)]) Trap)
    as (_ & _ & _ & H4 & H5 & _ & _ & H8 & _ & _ & H11).
  destruct (fatal_errors (script_sdk true [(2, false)]) Trap)
    as (_ & _ & _ & _ & _ & H6 & H7 & _).
  destruct (fatal_errors (script_sdk true [(4, false)]) Trap)
    as (_ & _ & _ & _ & _ & _ & _ & _ & H9 & H10 & _).
  repeat apply conj.
  - apply H1. reflexivity.
  - apply H2. reflexivity.
  - apply H3. reflexivity.
  - eapply H4; reflexivity.
  - eapply H5; reflexivity.
  - eapply H6; reflexivity.
  - eapply H7; reflexivity.
  - eapply H8; reflexivity.
  - destruct (H9 (example_app [(4, false)]) (example_thread [(4, false)]) no_io
                (mkScript [(4, false)] true) 4 (mkScript [] false) false
                new_packet_buf (mkScript [] false)
                eq_refl eq_refl eq_refl eq_refl eq_refl eq_refl)
      as (s' & t' & Hrun & Hcerr & _ & Hcalls).
    exists s', t'. auto.
  - destruct (H10 (example_main [(4, false)]) no_io 4 (mkScript [] false) false
                new_packet_buf (mkScript [] false)
                eq_refl eq_refl eq_refl eq_refl eq_refl)
      as (l' & t' & Hrun & Hcerr & _ & Hcalls).
    exists l', t'. auto.
  - refine (proj1 (proj2 (H11 lock_start lock_start Locking.Quiet
                            (Locking.ended lock_start) _ _ _ eq_refl))).
    + repeat split; reflexivity.
    + apply rtc_refl.
    + apply Locking.a_fatal; reflexivity.
Defined.

(** C5, as it is stated, fails on the reads of IMU packets: with the IMU
    flag set at the poll and a read that does not return a whole packet,
    the turn of either loop goes on ([Running]); nothing is written to
    [std::cerr] and the process does not end. *)
Lemma failed_imu_read_counterexample :
  (exists s' t',
     ViewTigr.iteration (script_sdk true [(4, false)]) Trap
       (example_app [(4, false)], example_thread [(4, false)]) no_io
     = Running s' t'
     /\ cerr t' = EmptyString
     /\ calls t' = [PollClient 4; ReadImuPacket false])
  /\ (exists l' t',
        LidarViewExample.iteration (script_sdk true [(4, false)])
          (example_main [(4, false)]) no_io
        = Running l' t'
        /\ cerr t' = EmptyString
        /\ calls t' = [PollClient 4; ReadImuPacket false])
  /\ (forall status t',
        ViewTigr.iteration (script_sdk true [(4, false)]) Trap
          (example_app [(4, false)], example_thread [(4, false)]) no_io
        <> Exited status t')
  /\ (forall status t',
        LidarViewExample.iteration (script_sdk true [(4, false)])
          (example_main [(4, false)]) no_io
        <> Exited status t').
Proof.
  split; [do 2 eexists; split; [reflexivity|split; reflexivity]|].
  split; [do 2 eexists; split; [reflexivity|split; reflexivity]|].
  split; intros status t'; discriminate.
Qed.

(** ** The IMU branch *)

(** C7.  When the poll reports IMU data, the branch of either program
    reads one IMU packet into the packet buffer and does nothing with it:
    but for the packet buffer and the connection the packet is read from,
    every variable of the program is as before (the shared bitmap, the
    mouse, the lock, the scan, the batcher, the cloud), and nothing is
    written to the streams. *)
Theorem imu_packet_discarded sdk :
  (forall st app l t c,
     has_flag st (IMU_DATA sdk) = true -> ViewTigr.handle sdk app = Some c ->
     exists ok buf c' app' l' t',
       read_imu_packet sdk c (ViewTigr.packet_buf sdk l) (ViewTigr.pf sdk l) = (ok, buf, c')
       /\ ViewTigr.imu_data sdk st (app, l) t = Running (app', l') t'
       /\ ViewTigr.packet_buf sdk l' = buf /\ ViewTigr.handle sdk app' = Some c'
       /\ ViewTigr.bmp sdk app' = ViewTigr.bmp sdk app
       /\ ViewTigr.mouse sdk app' = ViewTigr.mouse sdk app
       /\ ViewTigr.lock sdk app' = ViewTigr.lock sdk app
       /\ ViewTigr.info sdk app' = ViewTigr.info sdk app
       /\ ViewTigr.sensor_hostname sdk app' = ViewTigr.sensor_hostname sdk app
       /\ ViewTigr.app_w sdk app' = ViewTigr.app_w sdk app
       /\ ViewTigr.app_h sdk app' = ViewTigr.app_h sdk app
       /\ ViewTigr.scan sdk l' = ViewTigr.scan sdk l
       /\ ViewTigr.batch_to_scan sdk l' = ViewTigr.batch_to_scan sdk l
       /\ ViewTigr.thread_info sdk l' = ViewTigr.thread_info sdk l
       /\ ViewTigr.pf sdk l' = ViewTigr.pf sdk l
       /\ ViewTigr.lut sdk l' = ViewTigr.lut sdk l
       /\ cerr t' = cerr t /\ cout t' = cout t
       /\ calls t' = calls t ++ [ReadImuPacket ok])
  /\ (forall st l t,
        has_flag st (IMU_DATA sdk) = true ->
        exists ok buf c' l' t',
          read_imu_packet sdk (LidarViewExample.handle sdk l)
            (LidarViewExample.packet_buf sdk l) (LidarViewExample.pf sdk l) = (ok, buf, c')
          /\ LidarViewExample.imu_data sdk st l t = Running l' t'
          /\ LidarViewExample.packet_buf sdk l' = buf
          /\ LidarViewExample.handle sdk l' = c'
          /\ LidarViewExample.xyz sdk l' = LidarViewExample.xyz sdk l
          /\ LidarViewExample.scan sdk l' = LidarViewExample.scan sdk l
          /\ LidarViewExample.batch_to_scan sdk l' = LidarViewExample.batch_to_scan sdk l
          /\ LidarViewExample.info sdk l' = LidarViewExample.info sdk l
          /\ LidarViewExample.pf sdk l' = LidarViewExample.pf sdk l
          /\ LidarViewExample.lut sdk l' = LidarViewExample.lut sdk l
          /\ cerr t' = cerr t /\ cout t' = cout t
          /\ calls t' = calls t ++ [ReadImuPacket ok]).
Proof.
  split.
  - intros st app l t c Hflag Hh.
    destruct (read_imu_packet sdk c (ViewTigr.packet_buf sdk l) (ViewTigr.pf sdk l))
      as [[ok buf] c'] eqn:Hread.
    exists ok, buf, c'. do 3 eexists. split; [reflexivity|]. split.
    + exact (view_tigr_imu sdk st app l t c ok buf c' Hflag Hh Hread).
    + repeat split; reflexivity.
  - intros st l t Hflag.
    destruct (read_imu_packet sdk (LidarViewExample.handle sdk l)
                (LidarViewExample.packet_buf sdk l) (LidarViewExample.pf sdk l))
      as [[ok buf] c'] eqn:Hread.
    exists ok, buf, c'. do 2 eexists. split; [reflexivity|]. split.
    + exact (lidar_view_imu sdk st l t ok buf c' Hflag Hread).
    + repeat split; reflexivity.
Qed.

Lemma imu_packet_discarded_witness :
  (exists l' t',
     ViewTigr.imu_data (script_sdk true []) 4 (example_app [], example_thread []) no_io
     = Running (example_app [], l') t'
     /\ calls t' = [ReadImuPacket true])
  /\ (exists l' t',
        LidarViewExample.imu_data (script_sdk true []) 4 (example_main []) no_io
        = Running l' t'
        /\ LidarViewExample.xyz _ l' = None /\ calls t' = [ReadImuPacket true]).
Proof.
  destruct (imu_packet_discarded (script_sdk true [])) as [Hvt Hlv]. split.
  - destruct (Hvt 4 (example_app []) (example_thread []) no_io (mkScript [] true)
                eq_refl eq_refl)
      as (ok & buf & c' & app' & l' & t' & Hread & Hrun & Hsame).
    injection Hread as <- <- <-.
    exists l', t'. split.
    + rewrite Hrun. injection Hrun as <- _ _. reflexivity.
    + decompose [and] Hsame. assumption.
  - destruct (Hlv 4 (example_main []) no_io eq_refl)
      as (ok & buf & c' & l' & t' & Hread & Hrun & Hsame).
    injection Hread as <- <- <-.
    exists l', t'. decompose [and] Hsame. repeat split; assumption.
Defined.

(** ** After a failed read *)

Lemma shape_after {A : Type} (t t1 : io) (out : outcome A) made :
  calls t1 = calls t ++ made -> ReadLidarPacket false ∉ made ->
  shape t1 out -> shape t out.
Proof.
  intros Hcalls Hfine [out' made' Hc Hf|t' made' Hc Hf].
  - apply (shape_fine t out' (made ++ made')).
    + now rewrite Hc, Hcalls, <- app_assoc.
    + rewrite elem_of_app. tauto.
  - apply (shape_failed t t' (made ++ made')).
    + now rewrite Hc, Hcalls, <- !app_assoc.
    + rewrite elem_of_app. tauto.
Qed.

Lemma shape_and_then {A : Type} (t : io) (out : outcome A)
    (k : A -> io -> outcome A) :
  shape t out ->
  (forall s t1, out = Running s t1 -> shape t1 (k s t1)) ->
  shape t (and_then out k).
Proof.
  intros Hout Hk. destruct Hout as [out made Hc Hf|t' made Hc Hf].
  - destruct out as [s t1|status t1|e t1]; simpl in *.
    + apply (shape_after t t1 _ made Hc Hf). now apply Hk.
    + now apply (shape_fine t (Exited status t1) made).
    + now apply (shape_fine t (Undefined e t1) made).
  - simpl. now apply (shape_failed t t' made).
Qed.

Lemma shape_same {A : Type} (t : io) (out : outcome A) :
  calls (io_of out) = calls t -> shape t out.
Proof.
  intros Hc. apply (shape_fine t out []).
  - now rewrite app_nil_r.
  - apply not_elem_of_nil.
Qed.

Lemma shape_one {A : Type} (t : io) (out : outcome A) e :
  calls (io_of out) = calls t ++ [e] -> e <> ReadLidarPacket false -> shape t out.
Proof.
  intros Hc He. apply (shape_fine t out [e] Hc).
  rewrite list_elem_of_singleton. congruence.
Qed.

Lemma last_occurrence {A : Type} (x : A) l before after :
  x ∉ l -> l ++ [x] = before ++ x :: after -> after = [].
Proof.
  revert before. induction l as [|y l IH]; intros before Hx Heq.
  - destruct before as [|z before]; simpl in Heq.
    + now injection Heq.
    + injection Heq as _ Heq. now destruct before.
  - destruct before as [|z before]; simpl in Heq.
    + injection Heq as -> _. exfalso. apply Hx. left.
    + injection Heq as _ Heq. apply (IH before); [|assumption].
      intros Hin. apply Hx. now right.
Qed.

Lemma shape_stops {A : Type} (t : io) (out : outcome A) :
  shape t out -> stops_at_failed_read out t.
Proof.
  intros [out' made Hc Hf|t' made Hc Hf].
  - exists made. split; [assumption|].
    intros before after ->. exfalso. apply Hf.
    rewrite elem_of_app, elem_of_cons. tauto.
  - exists (made ++ [ReadLidarPacket false]). split; [assumption|].
    intros before after Heq. split; [|now exists t'].
    now apply (last_occurrence (ReadLidarPacket false) made before after).
Qed.

Ltac no_failed_read :=
  let Hin := fresh "Hin" in
  intros Hin;
  repeat (apply elem_of_cons in Hin as [Hin|Hin]; [discriminate Hin|]);
  now apply elem_of_nil in Hin.

Ltac fine made :=
  apply (shape_fine _ _ made);
  [simpl; rewrite <- ?app_assoc; reflexivity | no_failed_read].

Section ViewTigrShape.
Context (sdk : Sdk) (o : overflow).
Import ViewTigr.

Lemma view_tigr_publish_shape s t : shape t (publish sdk o s t).
Proof.
  destruct s as [app l]. unfold publish. simpl.
  destruct (bmp sdk app) as [b|]; [|fine [MutexLock]].
  destruct (write_frame o (scan sdk l) b (mouse sdk app)) as [[b' out]|e];
    [|fine [MutexLock]].
  fine [MutexLock; MutexUnlock; Cartesian].
Qed.

Lemma view_tigr_lidar_shape st s t : shape t (lidar_data sdk o st s t).
Proof.
  destruct s as [app l]. unfold lidar_data.
  destruct (has_flag st (LIDAR_DATA sdk)); [|now apply shape_same].
  destruct (handle sdk app) as [c|]; [|now apply shape_same].
  destruct (read_lidar_packet sdk c (packet_buf sdk l) (pf sdk l)) as [[ok buf] c'].
  destruct ok; cbn -[publish].
  - destruct (batch sdk (batch_to_scan sdk l) buf (scan sdk l)) as [[done bt] sc].
    cbn -[publish]. destruct done.
    + destruct (complete sdk sc (column_window (thread_info sdk l))).
      * eapply (shape_after t _ _ [ReadLidarPacket true; BatchToScan true; Complete true]);
          [|no_failed_read|apply view_tigr_publish_shape].
        simpl. now rewrite <- !app_assoc.
      * fine [ReadLidarPacket true; BatchToScan true; Complete false].
    + fine [ReadLidarPacket true; BatchToScan false].
  - apply (shape_failed t _ []); [reflexivity|apply not_elem_of_nil].
Qed.

Lemma view_tigr_imu_shape st s t : shape t (imu_data sdk st s t).
Proof.
  destruct s as [app l]. unfold imu_data.
  destruct (has_flag st (IMU_DATA sdk)); [|now apply shape_same].
  destruct (handle sdk app) as [c|]; [|now apply shape_same].
  destruct (read_imu_packet sdk c (packet_buf sdk l) (pf sdk l)) as [[ok buf] c'].
  fine [ReadImuPacket ok].
Qed.

Lemma view_tigr_iteration_shape s t : shape t (iteration sdk o s t).
Proof.
  destruct s as [app l]. unfold iteration.
  destruct (handle sdk app) as [c|]; [|now apply shape_same].
  destruct (poll_client sdk c) as [st c'].
  destruct (has_flag st (CLIENT_ERROR sdk)).
  - fine [PollClient st].
  - apply (shape_after t (call (PollClient st) t) _ [PollClient st]);
      [reflexivity|no_failed_read|].
    apply shape_and_then; [apply view_tigr_lidar_shape|].
    intros s1 t1 _. apply view_tigr_imu_shape.
Qed.

Lemma view_tigr_loop_shape mice : forall s t, shape t (loop sdk o mice s t).
Proof.
  induction mice as [|m mice IH]; intros s t; cbn [loop].
  - now apply shape_same.
  - apply shape_and_then; [apply view_tigr_iteration_shape|].
    intros s1 t1 _. apply IH.
Qed.
End ViewTigrShape.

Section LidarViewExampleShape.
Context (sdk : Sdk).
Import LidarViewExample.

Lemma lidar_view_lidar_shape st l t : shape t (lidar_data sdk st l t).
Proof.
  unfold lidar_data.
  destruct (has_flag st (LIDAR_DATA sdk)); [|now apply shape_same].
  destruct (read_lidar_packet sdk (handle sdk l) (packet_buf sdk l) (pf sdk l))
    as [[ok buf] c'].
  destruct ok; simpl.
  - destruct (batch sdk (batch_to_scan sdk l) buf (scan sdk l)) as [[done bt] sc].
    simpl. destruct done.
    + destruct (complete sdk sc (column_window (info sdk l))).
      * fine [ReadLidarPacket true; BatchToScan true; Complete true;
              Cartesian; SetXyz; SetKey].
      * fine [ReadLidarPacket true; BatchToScan true; Complete false].
    + fine [ReadLidarPacket true; BatchToScan false].
  - apply (shape_failed t _ []); [reflexivity|apply not_elem_of_nil].
Qed.

Lemma lidar_view_imu_shape st l t : shape t (imu_data sdk st l t).
Proof.
  unfold imu_data.
  destruct (has_flag st (IMU_DATA sdk)); [|now apply shape_same].
  destruct (read_imu_packet sdk (handle sdk l) (packet_buf sdk l) (pf sdk l))
    as [[ok buf] c'].
  fine [ReadImuPacket ok].
Qed.

Lemma lidar_view_iteration_shape l t : shape t (iteration sdk l t).
Proof.
  unfold iteration.
  destruct (poll_client sdk (handle sdk l)) as [st c'].
  destruct (has_flag st (CLIENT_ERROR sdk)).
  - fine [PollClient st].
  - apply (shape_after t (call (PollClient st) t) _ [PollClient st]);
      [reflexivity|no_failed_read|].
    apply shape_and_then; [apply lidar_view_lidar_shape|].
    intros s1 t1 _. apply lidar_view_imu_shape.
Qed.

Lemma lidar_view_loop_shape n : forall l t, shape t (loop sdk n l t).
Proof.
  induction n as [|n IH]; intros l t; cbn [loop].
  - now apply shape_same.
  - apply shape_and_then; [apply lidar_view_iteration_shape|].
    intros s1 t1 _. apply IH.
Qed.
End LidarViewExampleShape.

(** C6.  In every run of the loop of either program, a read of a lidar
    packet that fails is the last call the process makes, and the process
    has ended with [EXIT_FAILURE]: no call of the batcher, nor any other
    call, comes after it. *)
Theorem no_batch_after_failed_read sdk o :
  (forall mice s t, stops_at_failed_read (ViewTigr.loop sdk o mice s t) t)
  /\ (forall n l t, stops_at_failed_read (LidarViewExample.loop sdk n l t) t).
Proof.
  split.
  - intros mice s t. apply shape_stops, view_tigr_loop_shape.
  - intros n l t. apply shape_stops, lidar_view_loop_shape.
Qed.

Lemma no_batch_after_failed_read_witness :
  exists t',
    ViewTigr.loop (script_sdk true [(2, true); (2, false); (2, true)]) Trap
      [mkMouse 0 0 0 0 0; mkMouse 1 0 0 3 1; mkMouse 0 0 0 0 0]
      (example_app [(2, true); (2, false); (2, true)],
       example_thread [(2, true); (2, false); (2, true)]) no_io
    = Exited EXIT_FAILURE t'.
Proof.
  destruct (no_batch_after_failed_read
              (script_sdk true [(2, true); (2, false); (2, true)]) Trap) as [Hvt _].
  destruct (Hvt [mkMouse 0 0 0 0 0; mkMouse 1 0 0 3 1; mkMouse 0 0 0 0 0]
              (example_app [(2, true); (2, false); (2, true)],
               example_thread [(2, true); (2, false); (2, true)]) no_io)
    as (made & Hcalls & Hstop).
  vm_compute in Hcalls.
  apply (Hstop [PollClient 2; ReadLidarPacket true; BatchToScan true; Complete true;
                MutexLock; MutexUnlock; Cartesian; PollClient 2] []).
  symmetry. exact Hcalls.
Defined.

(** The shared bitmap changes only in a turn that takes the lock. *)
Lemma view_tigr_frame_under_lock sdk o app l t app' l' t' :
  ViewTigr.iteration sdk o (app, l) t = Running (app', l') t' ->
  ViewTigr.bmp sdk app' = ViewTigr.bmp sdk app
  \/ exists made, calls t' = calls t ++ made /\ MutexLock ∈ made /\ MutexUnlock ∈ made.
Proof.
  unfold ViewTigr.iteration, ViewTigr.lidar_data, ViewTigr.imu_data, ViewTigr.publish.
  destruct (ViewTigr.handle sdk app) as [c|]; [|discriminate].
  destruct (poll_client sdk c) as [st c1].
  destruct (has_flag st (CLIENT_ERROR sdk)); [discriminate|].
  destruct (has_flag st (LIDAR_DATA sdk)); simpl.
  - destruct (read_lidar_packet sdk c1 _ _) as [[ok buf] c2].
    destruct ok; simpl; [|discriminate].
    destruct (batch sdk _ buf _) as [[done bt] sc]. simpl.
    destruct done.
    + destruct (complete sdk sc _).
      * destruct (ViewTigr.bmp sdk app) as [b|]; [|discriminate].
        destruct (write_frame o sc b (ViewTigr.mouse sdk app)) as [[b' out]|e];
          [|discriminate].
        simpl. intros Hrun. right.
        destruct (has_flag st (IMU_DATA sdk)); simpl in Hrun.
        -- destruct (read_imu_packet sdk c2 _ _) as [[ok' buf'] c3].
           injection Hrun as <- <- <-.
           exists [PollClient st; ReadLidarPacket true; BatchToScan true; Complete true;
                   MutexLock; MutexUnlock; Cartesian; ReadImuPacket ok'].
           simpl. rewrite <- !app_assoc. split; [reflexivity|].
           split; apply list_elem_of_In; simpl; tauto.
        -- injection Hrun as <- <- <-.
           exists [PollClient st; ReadLidarPacket true; BatchToScan true; Complete true;
                   MutexLock; MutexUnlock; Cartesian].
           simpl. rewrite <- !app_assoc. split; [reflexivity|].
           split; apply list_elem_of_In; simpl; tauto.
      * simpl. destruct (has_flag st (IMU_DATA sdk)).
        -- destruct (read_imu_packet sdk c2 _ _) as [[ok' buf'] c3].
           intros [= <- <- <-]. now left.
        -- intros [= <- <- <-]. now left.
    + simpl. destruct (has_flag st (IMU_DATA sdk)).
      * destruct (read_imu_packet sdk c2 _ _) as [[ok' buf'] c3].
        intros [= <- <- <-]. now left.
      * intros [= <- <- <-]. now left.
  - destruct (has_flag st (IMU_DATA sdk)).
    + destruct (read_imu_packet sdk c1 _ _) as [[ok' buf'] c3].
      intros [= <- <- <-]. now left.
    + intros [= <- <- <-]. now left.
Qed.

(** ** The lock *)

Section LockDiscipline.
Context (o : overflow).
Import Locking.

Lemma lock_inv_initial s : initial s -> lock_inv s.
Proof.
  intros (Ha & Hd & Ho & _). unfold lock_inv. rewrite Ha, Hd, Ho. simpl.
  split; split; discriminate.
Qed.

Lemma lock_inv_step s th acc s' :
  lock_inv s -> step o s th acc s' -> lock_inv s'.
Proof.
  intros [Hacq Hdisp] Hstep. unfold lock_inv.
  destruct Hstep; simpl;
    repeat match goal with
           | H : pa _ = _ |- _ => rewrite H in *
           | H : pd _ = _ |- _ => rewrite H in *
           | H : owner _ = _ |- _ => rewrite H in *
           end;
    simpl in *;
    try (split; split; intros; try discriminate; try reflexivity; tauto).
  - (* the lock of render_thread *)
    split; [tauto|]. split; [|discriminate].
    intros Hr. apply Hdisp in Hr. discriminate.
  - (* the unlock of render_thread *)
    split; [split; discriminate|]. split; [|discriminate].
    intros Hr. apply Hdisp in Hr.
    assert (owner s = Some Acquisition) by now apply Hacq.
    congruence.
  - (* the lock of main *)
    split; [|tauto]. split; [|discriminate].
    intros Hw. apply Hacq in Hw. discriminate.
  - (* the unlock of main *)
    split; [|split; discriminate]. split; [|discriminate].
    intros Hw. apply Hacq in Hw.
    assert (owner s = Some Display) by now apply Hdisp.
    congruence.
Qed.

Lemma lock_inv_reachable s : reachable o s -> lock_inv s.
Proof.
  induction 1 as [s Hinit|s th acc s' _ IH Hstep].
  - now apply lock_inv_initial.
  - exact (lock_inv_step s th acc s' IH Hstep).
Qed.

(** A thread at its lock waits while the other one holds the mutex. *)
Lemma lock_waits s th acc s' :
  step o s th acc s' -> owner s <> None ->
  (pa s = ALock -> th = Display) /\ (pd s = DLock -> th = Acquisition).
Proof.
  intros Hstep Hheld.
  destruct Hstep; split; intros Hpc; try reflexivity; congruence.
Qed.

Lemma lock_inv_exclusive s :
  lock_inv s -> ~ (writing (pa s) = true /\ reading (pd s) = true).
Proof.
  intros [Hacq Hdisp] [Hw Hr].
  apply Hacq in Hw. apply Hdisp in Hr. congruence.
Qed.
End LockDiscipline.

(** C8.  In every state the process reaches, whatever the turns of the two
    threads: the mutex is held by [render_thread] exactly from its lock to
    its unlock, and by [main] exactly from its lock to its unlock, so the
    threads are never both there; every step that stores a pixel of the
    shared bitmap is a step of [render_thread] holding the mutex, before
    and after, while [main] is not in its blit; every step that copies a
    pixel of it is a step of [main] holding the mutex, before and after,
    while [render_thread] is not in its frame write; the bitmap changes
    in storing steps only, and not at all from the lock of [main] to its
    unlock. *)
Theorem frame_buffer_locked o s :
  Locking.reachable o s ->
  Locking.lock_inv s
  /\ ~ (Locking.writing (Locking.pa s) = true /\ Locking.reading (Locking.pd s) = true)
  /\ forall th acc s', Locking.step o s th acc s' ->
       (acc = Locking.Store ->
          th = Locking.Acquisition
          /\ Locking.owner s = Some Locking.Acquisition
          /\ Locking.owner s' = Some Locking.Acquisition
          /\ Locking.reading (Locking.pd s) = false)
       /\ (acc = Locking.Load ->
             th = Locking.Display
             /\ Locking.owner s = Some Locking.Display
             /\ Locking.owner s' = Some Locking.Display
             /\ Locking.writing (Locking.pa s) = false)
       /\ (Locking.bmp s' <> Locking.bmp s -> acc = Locking.Store)
       /\ (Locking.reading (Locking.pd s) = true -> Locking.bmp s' = Locking.bmp s).
Proof.
  intros Hreach.
  pose proof (lock_inv_reachable o s Hreach) as Hinv.
  pose proof (lock_inv_exclusive s Hinv) as Hex.
  split; [assumption|]. split; [assumption|].
  intros th acc s' Hstep.
  pose proof (lock_inv_step o s th acc s' Hinv Hstep) as Hinv'.
  destruct Hinv as [Hacq Hdisp], Hinv' as [Hacq' Hdisp'].
  assert (acc = Locking.Store ->
          th = Locking.Acquisition /\ Locking.writing (Locking.pa s) = true
          /\ Locking.writing (Locking.pa s') = true) as Hstore.
  { intros ->. inversion Hstep; subst; simpl;
      match goal with H : Locking.pa _ = _ |- _ => rewrite H end; auto. }
  assert (acc = Locking.Load ->
          th = Locking.Display /\ Locking.reading (Locking.pd s) = true
          /\ Locking.reading (Locking.pd s') = true) as Hload.
  { intros ->. inversion Hstep; subst; simpl;
      match goal with H : Locking.pd _ = _ |- _ => rewrite H end; auto. }
  assert (Locking.bmp s' <> Locking.bmp s -> acc = Locking.Store) as Hchange.
  { intros Hne. destruct Hstep; try reflexivity; now elim Hne. }
  repeat split.
  - now apply Hstore.
  - apply Hacq. now apply Hstore.
  - apply Hacq'. now apply Hstore.
  - destruct (Locking.reading (Locking.pd s)) eqn:Hr; [|reflexivity].
    exfalso. apply Hex. split; [now apply Hstore|reflexivity].
  - now apply Hload.
  - apply Hdisp. now apply Hload.
  - apply Hdisp'. now apply Hload.
  - destruct (Locking.writing (Locking.pa s)) eqn:Hw; [|reflexivity].
    exfalso. apply Hex. split; [reflexivity|now apply Hload].
  - assumption.
  - intros Hr.
    assert (acc <> Locking.Store -> Locking.bmp s' = Locking.bmp s) as Hkeep.
    { intros Hne. destruct Hstep; try reflexivity; now elim Hne. }
    destruct acc; [now apply Hkeep| |now apply Hkeep].
    exfalso. apply Hex. split; [|assumption]. now apply Hstore.
Qed.

Lemma frame_buffer_locked_witness :
  Locking.owner
    (Locking.at_a Locking.AScanToBmp
       (Locking.owned (Some Locking.Acquisition)
          (Locking.at_a Locking.ALock (Locking.batched even_scan lock_start))))
  = Some Locking.Acquisition
  /\ Locking.lock_inv
       (Locking.at_a Locking.AScanToBmp
          (Locking.owned (Some Locking.Acquisition)
             (Locking.at_a Locking.ALock (Locking.batched even_scan lock_start)))).
Proof.
  split; [reflexivity|].
  apply (frame_buffer_locked Trap).
  apply (Locking.reachable_step Trap
           (Locking.at_a Locking.ALock (Locking.batched even_scan lock_start))
           Locking.Acquisition Locking.Quiet).
  - apply (Locking.reachable_step Trap lock_start Locking.Acquisition Locking.Quiet).
    + apply Locking.reachable_initial. repeat split.
    + apply (Locking.a_frame Trap lock_start even_scan); reflexivity.
  - apply Locking.a_lock; reflexivity.
Defined.

(** ** The steps of the frame write are those of write_frame *)

Lemma for_from_seqZ {S : Type} (body : Z -> S -> result S) count :
  forall k s, for_from k count body s = for_each (seqZ k (Z.of_nat count)) body s.
Proof.
  induction count as [|n IH]; intros k s.
  - reflexivity.
  - rewrite seqZ_cons by lia. simpl.
    destruct (body k s) as [s'|e]; [|reflexivity]. simpl.
    rewrite IH. do 3 f_equal; lia.
Qed.

Lemma for_range_seqZ {S : Type} (body : Z -> S -> result S) n s :
  for_range n body s = for_each (seqZ 0 n) body s.
Proof.
  unfold for_range. rewrite for_from_seqZ.
  destruct (Z.le_gt_cases 0 n).
  - now rewrite Z2Nat.id.
  - rewrite (seqZ_nil 0 n) by lia.
    replace (Z.to_nat n) with O by lia. reflexivity.
Qed.

Lemma for_each_app {S A : Type} (body : A -> S -> result S) l1 l2 :
  forall s, for_each (l1 ++ l2) body s = (s' ← for_each l1 body s; for_each l2 body s').
Proof.
  induction l1 as [|c l1 IH]; intros s; simpl.
  - reflexivity.
  - destruct (body c s) as [s'|e]; [|reflexivity]. simpl. apply IH.
Qed.

Lemma for_each_ext {S A : Type} (f g : A -> S -> result S) l :
  (forall c s, f c s = g c s) -> forall s, for_each l f s = for_each l g s.
Proof.
  intros Hfg. induction l as [|c l IH]; intros s; simpl.
  - reflexivity.
  - rewrite Hfg. destruct (g c s) as [s'|e]; [|reflexivity]. simpl. apply IH.
Qed.

(** The two nested loops visit the cells in the order of [cells]. *)
Lemma nest_cells {S : Type} (body : Z -> Z -> S -> result S) scan s :
  for_range (int_w scan) (fun x => for_range (int_h scan) (body x)) s
  = for_each (cells scan) (fun c => body (fst c) (snd c)) s.
Proof.
  rewrite for_range_seqZ. unfold cells.
  generalize (seqZ 0 (int_w scan)) as xs. intros xs. revert s.
  induction xs as [|x xs IH]; intros s.
  - reflexivity.
  - rewrite bind_cons, for_each_app. simpl.
    rewrite for_range_seqZ.
    assert (forall ys t, for_each ys (body x) t
            = for_each (ys ≫= fun y => [(x, y)]) (fun c => body (fst c) (snd c)) t) as Hcol.
    { induction ys as [|y ys IHy]; intros t; [reflexivity|].
      rewrite bind_cons. simpl.
      destruct (body x y t) as [t'|e]; [|reflexivity]. simpl. apply IHy. }
    rewrite Hcol.
    destruct (for_each _ _ s) as [s'|e]; [|reflexivity]. simpl. apply IH.
Qed.

Section FrameWriteSteps.
Context (o : overflow).
Import Locking.

Lemma draw_steps min max todo : forall s b,
  alive s = true -> pa s = ADraw min max todo ->
  for_each todo (fun c => pixel_step o (scan s) RANGE min max (fst c) (snd c)) (bmp s)
  = Ok b ->
  rtc (acquisition_step o) s (at_a (ADraw min max []) (store b s)).
Proof.
  induction todo as [|[cx cy] todo IH]; intros s b Halive Hpc Hrun; simpl in Hrun.
  - injection Hrun as <-.
    replace (at_a (ADraw min max []) (store (bmp s) s)) with s; [apply rtc_refl|].
    destruct s; simpl in *. now subst.
  - destruct (pixel_step o (scan s) RANGE min max cx cy (bmp s)) as [b1|e] eqn:Hpix;
      [|discriminate].
    simpl in Hrun.
    eapply rtc_l.
    + exists Store. exact (a_draw o s min max cx cy todo b1 Halive Hpc Hpix).
    + exact (IH (at_a (ADraw min max todo) (store b1 s)) b Halive eq_refl Hrun).
Qed.

(** Left alone from its lock on, [render_thread] gets to its unlock with the
    bitmap that [write_frame] returns. *)
Lemma frame_write_steps s b out :
  alive s = true -> pa s = AScanToBmp ->
  write_frame o (scan s) (bmp s) (mouse s) = Ok (b, out) ->
  rtc (acquisition_step o) s (at_a AUnlock (store b s)).
Proof.
  intros Halive Hpc Hrun. unfold write_frame, scan_to_bmp in Hrun.
  destruct (scan_minmax (scan s) RANGE) as [[min max]|e] eqn:Hmm; [|discriminate].
  simpl in Hrun. rewrite nest_cells in Hrun.
  destruct (for_each (cells (scan s)) _ (bmp s)) as [b1|e] eqn:Hdraw; [|discriminate].
  simpl in Hrun.
  eapply rtc_l.
  { exists Quiet. exact (a_minmax o s min max Halive Hpc Hmm). }
  eapply rtc_trans.
  { apply (draw_steps min max (cells (scan s))
             (at_a (ADraw min max (cells (scan s))) s) b1 Halive eq_refl Hdraw). }
  eapply rtc_l.
  { exists Quiet. apply (a_drawn o _ min max); [exact Halive|reflexivity]. }
  destruct (Z.eqb_spec (btn (mouse s)) 0) as [Hbtn|Hbtn].
  - injection Hrun as <- _.
    apply rtc_once. exists Quiet.
    match goal with
    | |- step _ ?s1 _ _ _ => exact (a_no_probe o s1 Halive eq_refl Hbtn)
    end.
  - apply rtc_once. exists Store.
    match goal with
    | |- step _ ?s1 _ _ _ => exact (a_probe o s1 b out Halive eq_refl Hbtn Hrun)
    end.
Qed.
End FrameWriteSteps.

(** * More of the code *)

(** ** Loops that may fail *)

Section LoopCases.
Context {S : Type} (body : Z -> S -> result S) (I : Z -> S -> Prop) (Q : ub -> Prop).

(** A loop ends as its turns do: with the invariant, or with an error of
    the kind that a turn may end with. *)
Lemma for_from_cases count : forall k s,
  I k s ->
  (forall j t, k <= j < k + Z.of_nat count -> I j t ->
     match body j t with Ok t' => I (j + 1) t' | Err e => Q e end) ->
  match for_from k count body s with
  | Ok s' => I (k + Z.of_nat count) s'
  | Err e => Q e
  end.
Proof.
  induction count as [|n IH]; intros k s Hk Hstep; simpl.
  - now replace (k + Z.of_nat 0) with k by lia.
  - pose proof (Hstep k s ltac:(lia) Hk) as Hb.
    destruct (body k s) as [t|e]; simpl; [|assumption].
    replace (k + Z.of_nat (Datatypes.S n)) with ((k + 1) + Z.of_nat n) by lia.
    apply IH; [assumption|].
    intros j u Hj. apply Hstep. lia.
Qed.

Lemma for_range_cases n s :
  I 0 s ->
  (forall j t, 0 <= j < n -> I j t ->
     match body j t with Ok t' => I (j + 1) t' | Err e => Q e end) ->
  match for_range n body s with
  | Ok s' => I (Z.max 0 n) s'
  | Err e => Q e
  end.
Proof.
  unfold for_range. intros H0 Hstep.
  replace (Z.max 0 n) with (0 + Z.of_nat (Z.to_nat n)) by lia.
  apply for_from_cases; [assumption|].
  intros j t Hj. apply Hstep. lia.
Qed.
End LoopCases.

Section NestCases.
Context {S : Type} (body : Z -> Z -> S -> result S) (P : Z -> Z -> S -> Prop).
Context (Q : ub -> Prop) (cols rows : Z).
Hypothesis next_column :
  forall x t, 0 <= x < cols -> P x (Z.max 0 rows) t -> P (x + 1) 0 t.

Lemma nest_cases s :
  P 0 0 s ->
  (forall x y t, 0 <= x < cols -> 0 <= y < rows -> P x y t ->
     match body x y t with Ok t' => P x (y + 1) t' | Err e => Q e end) ->
  match for_range cols (fun x => for_range rows (body x)) s with
  | Ok s' => P (Z.max 0 cols) 0 s'
  | Err e => Q e
  end.
Proof.
  intros H0 Hstep.
  apply (for_range_cases _ (fun x t => P x 0 t) Q); [assumption|].
  intros x t Hx Ht.
  pose proof (for_range_cases (body x) (P x) Q rows t Ht) as Hcol.
  destruct (for_range rows (body x) t) as [t'|e].
  - apply next_column; [assumption|]. apply Hcol.
    intros y u Hy. now apply Hstep.
  - apply Hcol. intros y u Hy. now apply Hstep.
Qed.
End NestCases.

Lemma for_range_skip {S : Type} (body : Z -> S -> result S) n s :
  (forall k t, body k t = Ok t) -> for_range n body s = Ok s.
Proof.
  intros Hskip. unfold for_range. generalize 0 as k.
  induction (Z.to_nat n) as [|c IH]; intros k; simpl; [reflexivity|].
  rewrite Hskip. simpl. apply IH.
Qed.

Lemma for_range_none {S : Type} (body : Z -> S -> result S) n s :
  n <= 0 -> for_range n body s = Ok s.
Proof.
  intros Hn. unfold for_range. now replace (Z.to_nat n) with O by lia.
Qed.

(** ** A scan without cells *)

(** X1.  On a scan that has no column or no row, [scan_to_bmp] divides
    nothing and stores nothing: the minimum and maximum stay at their
    initial values [INT32_MAX] and [INT32_MIN], and the bitmap is returned
    as it was. *)
Theorem scan_to_bmp_empty o scan f bmp :
  int_w scan <= 0 \/ int_h scan <= 0 ->
  scan_minmax scan f = Ok (INT32_MAX, INT32_MIN)
  /\ scan_to_bmp o scan f bmp = Ok bmp.
Proof.
  intros Hempty.
  assert (forall (S : Type) (body : Z -> Z -> S -> result S) (s : S),
            for_range (int_w scan) (fun x => for_range (int_h scan) (body x)) s = Ok s)
    as Hnone.
  { intros S body s. destruct Hempty as [Hw|Hh].
    - now apply for_range_none.
    - apply for_range_skip. intros k t. now apply for_range_none. }
  assert (scan_minmax scan f = Ok (INT32_MAX, INT32_MIN)) as Hmm
    by apply (Hnone _ (minmax_step scan f)).
  split; [assumption|].
  unfold scan_to_bmp. rewrite Hmm. simpl.
  apply (Hnone _ (pixel_step o scan f INT32_MAX INT32_MIN)).
Qed.

Lemma scan_to_bmp_empty_witness :
  scan_minmax no_scan RANGE = Ok (INT32_MAX, INT32_MIN)
  /\ scan_to_bmp Trap no_scan RANGE even_bmp = Ok even_bmp.
Proof.
  apply (scan_to_bmp_empty Trap no_scan RANGE even_bmp).
  left. vm_compute. discriminate.
Defined.

(** ** The frame write and the memory *)

Lemma int32_cases o z : (exists v, int32 o z = Ok v) \/ int32 o z = Err SignedOverflow.
Proof.
  unfold int32. destruct (in_int32 z); [left; eauto|].
  destruct o; [now right|left; eauto].
Qed.

Lemma normalise_in_memory o min max v : in_memory (normalise o min max v).
Proof.
  unfold normalise, sub32, mul32, div32.
  destruct (int32_cases o (v - min)) as [[v1 ->]| ->]; simpl; [|now left].
  destruct (int32_cases o (v1 * 255)) as [[v2 ->]| ->]; simpl; [|now left].
  destruct (int32_cases o (max - min)) as [[d ->]| ->]; simpl; [|now left].
  destruct (d =? 0); [now right|].
  destruct (int32_cases Trap (Z.quot v2 d)) as [[q ->]| ->]; simpl; [exact I|now left].
Qed.

(** In a bitmap as wide and as long as the scan, the cell of a column and
    a row of the scan is a pixel of the bitmap. *)
Lemma paint_cell scan bmp x y vr vg vb va :
  Z.of_nat (length (pix bmp)) = scan_w scan * scan_h scan ->
  0 <= x < scan_w scan -> 0 <= y < scan_h scan ->
  paint bmp (y * scan_w scan + x) vr vg vb va
  = Ok (mkTigr (w bmp) (h bmp)
          (<[Z.to_nat (y * scan_w scan + x)
             := mkPixel (to_uint8 vr) (to_uint8 vg) (to_uint8 vb) (to_uint8 va)]>
             (pix bmp))).
Proof.
  intros Hlen Hx Hy. pose proof (cell_index scan x y Hx Hy) as Hi.
  rewrite paint_spec. unfold in_pix.
  now replace ((0 <=? y * scan_w scan + x)
               && (y * scan_w scan + x <? Z.of_nat (length (pix bmp)))) with true
    by (symmetry; rewrite andb_true_iff, Z.leb_le, Z.ltb_lt; lia).
Qed.

Lemma pixel_step_in_memory o scan f min max x y bmp t :
  field_ok scan f = true -> bmp_fits scan bmp = true -> same_shape bmp t ->
  0 <= x < scan_w scan -> 0 <= y < scan_h scan ->
  match pixel_step o scan f min max x y t with
  | Ok t' => same_shape bmp t'
  | Err e => arithmetic e
  end.
Proof.
  intros Hok Hfits (Hw & Hh & Hlen) Hx Hy.
  destruct (bmp_fits_spec _ _ Hfits) as (Hbw & Hbh & Hblen & Hsize).
  destruct (img_at_ok scan f x y Hok Hx Hy) as [Hread _].
  unfold pixel_step. rewrite Hread. simpl.
  pose proof (normalise_in_memory o min max (to_int32 (raw scan f x y))) as Hn.
  destruct (normalise o min max (to_int32 (raw scan f x y))) as [v|e]; simpl;
    [|assumption].
  rewrite (pix_index_exact o scan t x y) by (try assumption; congruence). simpl.
  rewrite (paint_cell scan t x y) by (try assumption; lia).
  repeat split; simpl; try assumption. now rewrite length_insert.
Qed.

Lemma scan_to_bmp_in_memory o scan f bmp :
  field_ok scan f = true -> bmp_fits scan bmp = true ->
  match scan_to_bmp o scan f bmp with
  | Ok bmp' => same_shape bmp bmp'
  | Err e => arithmetic e
  end.
Proof.
  intros Hok Hfits.
  destruct (int_dims _ _ Hok) as [Hiw Hih].
  destruct (scan_minmax_inv scan f Hok) as ([min max] & Hmm & _).
  unfold scan_to_bmp. rewrite Hmm, Hiw, Hih. simpl.
  apply (nest_cases (pixel_step o scan f min max) (fun _ _ t => same_shape bmp t)
           arithmetic).
  - intros; assumption.
  - repeat split.
  - intros x y t Hx Hy Ht. now apply pixel_step_in_memory.
Qed.

Lemma print_range_returns o scan f bmp x y :
  field_ok scan f = true -> bmp_fits scan bmp = true ->
  exists res, print_range o scan f bmp x y = Ok res.
Proof.
  intros Hok Hfits.
  destruct (decide (0 <= x < scan_w scan /\ 0 <= y < scan_h scan)) as [[Hx Hy]|Hout].
  - rewrite (print_range_probe o scan f bmp x y Hok Hfits Hx Hy). eauto.
  - rewrite (print_range_outside o scan f bmp x y Hout). eauto.
Qed.

(** X2.  With a bitmap of the scan's dimensions, neither [scan_to_bmp] nor
    [print_range] nor the frame write reads or stores outside of an array,
    whatever the values of the scan and wherever the cursor is:
    [scan_to_bmp] returns a bitmap of the same dimensions or stops at an
    overflow or a division by zero, and [print_range] always returns. *)
Theorem frame_write_in_memory o scan f bmp :
  field_ok scan f = true -> bmp_fits scan bmp = true ->
  match scan_to_bmp o scan f bmp with
  | Ok bmp' => same_shape bmp bmp'
  | Err e => arithmetic e
  end
  /\ (forall x y, exists res, print_range o scan f bmp x y = Ok res)
  /\ (forall mouse, field_ok scan RANGE = true ->
        in_memory (write_frame o scan bmp mouse)).
Proof.
  intros Hok Hfits. split; [now apply scan_to_bmp_in_memory|].
  split; [intros x y; now apply print_range_returns|].
  intros mouse Hrange. unfold write_frame.
  pose proof (scan_to_bmp_in_memory o scan RANGE bmp Hrange Hfits) as Hdraw.
  destruct (scan_to_bmp o scan RANGE bmp) as [bmp1|e]; simpl; [|assumption].
  destruct (btn mouse =? 0); [exact I|].
  destruct (print_range_returns o scan RANGE bmp1 (x mouse) (y mouse) Hrange)
    as [res ->]; [|exact I].
  now apply (same_shape_fits scan bmp).
Qed.

Lemma frame_write_in_memory_witness :
  in_memory (write_frame Trap far_scan far_bmp (mkMouse 1 0 0 1 0))
  /\ in_memory (write_frame Trap flat_scan (tigrBitmap 2 2) (mkMouse 1 0 0 1 0)).
Proof.
  split.
  - apply (frame_write_in_memory Trap far_scan RANGE far_bmp); reflexivity.
  - apply (frame_write_in_memory Trap flat_scan RANGE (tigrBitmap 2 2)); reflexivity.
Defined.

(** X3.  [scan_to_bmp] does not look at the length of the bitmap: when the
    arithmetic is within [int32_t] and the bitmap, as wide as the scan, has
    fewer pixels than the scan has cells, it stores outside of the pixel
    array. *)
Theorem scan_to_bmp_short_bitmap o scan f bmp lo hi :
  field_ok scan f = true ->
  is_minimum lo (to_int32 <$> field scan f) ->
  is_maximum hi (to_int32 <$> field scan f) ->
  lo < hi -> (hi - lo) * 255 <= INT32_MAX ->
  w bmp = scan_w scan -> scan_w scan * scan_h scan <= INT32_MAX ->
  Z.of_nat (length (pix bmp)) < scan_w scan * scan_h scan ->
  scan_to_bmp o scan f bmp = Err OutOfBounds.
Proof.
  intros Hok Hlo Hhi Hlt Hrange Hbw Hsize Hshort.
  destruct (int_dims _ _ Hok) as [Hiw Hih].
  pose proof Hlo as [Hin _].
  apply (field_cells scan f lo Hok) in Hin as (cx & cy & Hcx & Hcy & _).
  assert (match scan_to_bmp o scan f bmp with
          | Ok bmp' => True
          | Err e => e = OutOfBounds
          end) as Hcases.
  { unfold scan_to_bmp.
    rewrite (scan_minmax_spec scan f lo hi Hok Hlo Hhi), Hiw, Hih. simpl.
    pose proof (nest_cases (pixel_step o scan f lo hi) (fun _ _ t => same_shape bmp t)
                  (fun e => e = OutOfBounds) (scan_w scan) (scan_h scan)
                  ltac:(intros; assumption) bmp ltac:(repeat split)) as Hnest.
    destruct (for_range _ _ bmp) as [b|e]; [exact I|].
    apply Hnest. intros x y t Hx Hy (Hw & Hh & Hlen).
    destruct (img_at_ok scan f x y Hok Hx Hy) as [Hread _].
    destruct (normalise_exact o lo hi (value_at scan f x y)
                (minmax_bounds scan f lo hi x y Hok Hlo Hhi Hx Hy) Hlt Hrange)
      as [Hnorm _].
    unfold pixel_step. rewrite Hread. simpl.
    fold (value_at scan f x y). rewrite Hnorm. simpl.
    rewrite (pix_index_exact o scan t x y) by (try assumption; congruence). simpl.
    rewrite paint_spec. destruct (in_pix t _); [|reflexivity].
    repeat split; simpl; try assumption. now rewrite length_insert. }
  destruct (scan_to_bmp o scan f bmp) as [bmp'|e] eqn:Hrun; [|now subst].
  exfalso.
  destruct (scan_to_bmp_opaque o scan f bmp bmp' Hrun) as ((_ & _ & Hlen) & Hdone & _).
  rewrite Hiw, Hih in Hdone.
  destruct (Hdone (scan_w scan - 1) (scan_h scan - 1)
              ((scan_h scan - 1) * scan_w scan + (scan_w scan - 1)))
    as (p & Hp & _); try lia.
  - unfold visited. lia.
  - apply pix_index_exact; try assumption; lia.
  - apply lookup_lt_Some in Hp. rewrite Hlen in Hp. nia.
Qed.

Lemma scan_to_bmp_short_bitmap_witness :
  scan_to_bmp Trap even_scan RANGE short_bmp = Err OutOfBounds.
Proof.
  apply (scan_to_bmp_short_bitmap Trap even_scan RANGE short_bmp 0 1000).
  - reflexivity.
  - split; [apply list_elem_of_In; simpl; tauto|].
    repeat constructor; vm_compute; discriminate.
  - split; [apply list_elem_of_In; simpl; tauto|].
    repeat constructor; vm_compute; discriminate.
  - lia.
  - vm_compute. discriminate.
  - reflexivity.
  - vm_compute. discriminate.
  - vm_compute. reflexivity.
Defined.

(** ** What a frame is made of *)

Lemma cell_injective scan x y x' y' :
  0 <= x < scan_w scan -> 0 <= x' < scan_w scan -> 0 <= y -> 0 <= y' ->
  y * scan_w scan + x = y' * scan_w scan + x' -> x = x' /\ y = y'.
Proof.
  intros Hx Hx' Hy Hy' Heq.
  destruct (Z.lt_trichotomy y y') as [Hyy|[Hyy|Hyy]]; nia.
Qed.

(** Every pixel of a bitmap as long as the scan is the cell of a column and
    a row. *)
Lemma cell_of_index scan (j : nat) :
  0 <= scan_w scan ->
  Z.of_nat j < scan_w scan * scan_h scan ->
  exists x y, 0 <= x < scan_w scan /\ 0 <= y < scan_h scan
              /\ Z.to_nat (y * scan_w scan + x) = j.
Proof.
  intros Hw Hj.
  assert (0 < scan_w scan) as Hpos.
  { destruct (Z.eq_dec (scan_w scan) 0) as [Hz|Hnz]; [|lia].
    rewrite Hz in Hj. lia. }
  exists (Z.of_nat j mod scan_w scan), (Z.of_nat j / scan_w scan).
  pose proof (Z.mod_pos_bound (Z.of_nat j) (scan_w scan) Hpos) as Hm.
  pose proof (Z.div_mod (Z.of_nat j) (scan_w scan) ltac:(lia)) as Hdm.
  assert (0 <= Z.of_nat j / scan_w scan) as Hd0 by (apply Z.div_pos; lia).
  assert (Z.of_nat j / scan_w scan < scan_h scan) as Hd1.
  { apply Z.div_lt_upper_bound; lia. }
  repeat split; lia.
Qed.

(** Two bitmaps as long as the scan that agree on every cell are the same. *)
Lemma pix_of_cells scan (l1 l2 : list TPixel) :
  0 <= scan_w scan ->
  Z.of_nat (length l1) = scan_w scan * scan_h scan -> length l2 = length l1 ->
  (forall x y, 0 <= x < scan_w scan -> 0 <= y < scan_h scan ->
     l1 !! Z.to_nat (y * scan_w scan + x) = l2 !! Z.to_nat (y * scan_w scan + x)) ->
  l1 = l2.
Proof.
  intros Hw Hlen Hsame Hcells. apply list_eq. intros j.
  destruct (decide (j < length l1)%nat) as [Hj|Hj].
  - destruct (cell_of_index scan j Hw ltac:(lia)) as (x & y & Hx & Hy & <-).
    now apply Hcells.
  - rewrite !lookup_ge_None_2 by lia. reflexivity.
Qed.

Lemma pixel_loops_stored o scan f min max bmp bmp' :
  field_ok scan f = true -> bmp_fits scan bmp = true ->
  for_range (scan_w scan) (fun x =>
    for_range (scan_h scan) (fun y => pixel_step o scan f min max x y)) bmp = Ok bmp' ->
  stored_inv o scan f min max bmp (scan_w scan) 0 bmp'.
Proof.
  intros Hok Hfits Hrun.
  destruct (field_ok_spec _ _ Hok) as (Hw0 & Hh0 & _).
  destruct (bmp_fits_spec _ _ Hfits) as (Hbw & Hbh & Hblen & Hsize).
  assert (stored_inv o scan f min max bmp (Z.max 0 (scan_w scan)) 0 bmp') as Hend;
    [|now replace (Z.max 0 (scan_w scan)) with (scan_w scan) in Hend by lia].
  apply (nest_partial (pixel_step o scan f min max) (stored_inv o scan f min max bmp)
           (scan_w scan) (scan_h scan)) with (s := bmp); try assumption.
  - intros x t Hx [Hshape Hdone]. split; [assumption|].
    intros x' y' Hx' Hy' Hv. apply Hdone; try assumption. unfold visited in *. lia.
  - split; [repeat split|].
    intros x' y' Hx' Hy' Hv. unfold visited in Hv. lia.
  - intros x y t t' Hx Hy [(Hw & Hh & Hlen) Hdone] Hstep.
    apply pixel_step_Ok in Hstep as (u & v & i & Hread & Hnorm & Hi & Hin & ->).
    destruct (img_at_ok scan f x y Hok Hx Hy) as [Hread' _].
    rewrite Hread' in Hread. injection Hread as <-.
    rewrite (pix_index_exact o scan t x y) in Hi by (try assumption; congruence).
    injection Hi as <-.
    split; [repeat split; simpl; try assumption; now rewrite length_insert|].
    intros x' y' Hx' Hy' Hv. simpl.
    assert ((x' = x /\ y' = y) \/ visited x y x' y') as [[-> ->]|Hv']
      by (unfold visited in *; lia).
    + exists v. split; [assumption|]. apply list_lookup_insert_eq. lia.
    + destruct (Hdone x' y' Hx' Hy' Hv') as (v' & Hn' & Hp').
      exists v'. split; [assumption|].
      rewrite list_lookup_insert_ne; [assumption|].
      intros Heq. apply Z2Nat.inj in Heq; [|nia..].
      apply cell_injective in Heq; try lia.
      unfold visited in Hv'. lia.
Qed.

Lemma pixel_loops_return o scan f min max bmp :
  field_ok scan f = true -> bmp_fits scan bmp = true ->
  (forall x y, 0 <= x < scan_w scan -> 0 <= y < scan_h scan ->
     exists v, normalise o min max (value_at scan f x y) = Ok v) ->
  exists bmp',
    for_range (scan_w scan) (fun x =>
      for_range (scan_h scan) (fun y => pixel_step o scan f min max x y)) bmp = Ok bmp'.
Proof.
  intros Hok Hfits Hnorm.
  destruct (bmp_fits_spec _ _ Hfits) as (Hbw & Hbh & Hblen & Hsize).
  destruct (nest_total (pixel_step o scan f min max) (fun _ _ t => same_shape bmp t)
              (scan_w scan) (scan_h scan)) with (s := bmp) as (bmp' & Hrun & _).
  - intros; assumption.
  - repeat split.
  - intros x y t Hx Hy (Hw & Hh & Hlen).
    destruct (img_at_ok scan f x y Hok Hx Hy) as [Hread _].
    destruct (Hnorm x y Hx Hy) as [v Hv].
    unfold pixel_step. rewrite Hread. simpl.
    fold (value_at scan f x y). rewrite Hv. simpl.
    rewrite (pix_index_exact o scan t x y) by (try assumption; congruence). simpl.
    rewrite (paint_cell scan t x y) by (try assumption; lia).
    eexists. split; [reflexivity|].
    repeat split; simpl; try assumption. now rewrite length_insert.
  - eauto.
Qed.

(** X4.  A frame does not depend on the frame before it: when [scan_to_bmp]
    returns on a bitmap of the scan's dimensions, it returns the same bitmap
    on any other bitmap of these dimensions, whatever that holds; so
    drawing the scan a second time changes nothing. *)
Theorem scan_to_bmp_fresh o scan f bmp1 bmp2 frame :
  field_ok scan f = true ->
  bmp_fits scan bmp1 = true -> bmp_fits scan bmp2 = true ->
  scan_to_bmp o scan f bmp1 = Ok frame ->
  scan_to_bmp o scan f bmp2 = Ok frame /\ scan_to_bmp o scan f frame = Ok frame.
Proof.
  intros Hok Hfits1 Hfits2 Hrun.
  assert (forall bmp, bmp_fits scan bmp = true -> scan_to_bmp o scan f bmp = Ok frame)
    as Hany.
  { clear bmp2 Hfits2. intros bmp2 Hfits2.
    destruct (field_ok_spec _ _ Hok) as (Hw0 & Hh0 & _).
    destruct (int_dims _ _ Hok) as [Hiw Hih].
    destruct (scan_minmax_inv scan f Hok) as ([min max] & Hmm & _).
    unfold scan_to_bmp in *. rewrite Hmm, Hiw, Hih in *. simpl in *.
    destruct (pixel_loops_stored o scan f min max bmp1 frame Hok Hfits1 Hrun)
      as [(Hw1 & Hh1 & Hlen1) Hpix1].
    destruct (pixel_loops_return o scan f min max bmp2 Hok Hfits2) as [frame2 Hrun2].
    { intros x y Hx Hy.
      destruct (Hpix1 x y Hx Hy) as (v & Hv & _); [unfold visited; lia|eauto]. }
    rewrite Hrun2. f_equal.
    destruct (pixel_loops_stored o scan f min max bmp2 frame2 Hok Hfits2 Hrun2)
      as [(Hw2 & Hh2 & Hlen2) Hpix2].
    destruct (bmp_fits_spec _ _ Hfits1) as (Hbw1 & Hbh1 & Hblen1 & _).
    destruct (bmp_fits_spec _ _ Hfits2) as (Hbw2 & Hbh2 & Hblen2 & _).
    assert (pix frame2 = pix frame) as Hsame.
    { apply (pix_of_cells scan); try assumption; try lia.
      intros x y Hx Hy.
      destruct (Hpix1 x y Hx Hy) as (v1 & Hv1 & ->); [unfold visited; lia|].
      destruct (Hpix2 x y Hx Hy) as (v2 & Hv2 & ->); [unfold visited; lia|].
      congruence. }
    destruct frame, frame2; simpl in *. f_equal; congruence. }
  split; [now apply Hany|].
  apply Hany.
  pose proof (scan_to_bmp_in_memory o scan f bmp1 Hok Hfits1) as Hshape.
  rewrite Hrun in Hshape. now apply (same_shape_fits scan bmp1).
Qed.

Lemma scan_to_bmp_fresh_witness :
  scan_to_bmp Trap even_scan RANGE used_bmp = scan_to_bmp Trap even_scan RANGE even_bmp.
Proof.
  pose (frame := match scan_to_bmp Trap even_scan RANGE even_bmp with
                 | Ok b => b
                 | Err _ => even_bmp
                 end).
  assert (scan_to_bmp Trap even_scan RANGE even_bmp = Ok frame) as Hrun by reflexivity.
  rewrite Hrun.
  apply (scan_to_bmp_fresh Trap even_scan RANGE even_bmp used_bmp frame);
    [reflexivity..|exact Hrun].
Defined.

(** ** The order and the origin of the values *)

Lemma grey_of_intensity i : 0 <= i <= 255 -> grey i = mkPixel i i i 255.
Proof. intros Hi. unfold grey. now rewrite to_uint8_small. Qed.

(** X5.  The normalisation keeps the order of the values: when the
    arithmetic is within [int32_t], a cell with a larger value gets a pixel
    that is at least as bright, and cells with the same value get the same
    pixel. *)
Theorem scan_to_bmp_monotone o scan f bmp lo hi :
  field_ok scan f = true -> bmp_fits scan bmp = true ->
  is_minimum lo (to_int32 <$> field scan f) ->
  is_maximum hi (to_int32 <$> field scan f) ->
  lo < hi -> (hi - lo) * 255 <= INT32_MAX ->
  exists bmp',
    scan_to_bmp o scan f bmp = Ok bmp'
    /\ forall x1 y1 x2 y2,
         0 <= x1 < scan_w scan -> 0 <= y1 < scan_h scan ->
         0 <= x2 < scan_w scan -> 0 <= y2 < scan_h scan ->
         value_at scan f x1 y1 <= value_at scan f x2 y2 ->
         exists p1 p2,
           pix bmp' !! Z.to_nat (y1 * w bmp + x1) = Some p1
           /\ pix bmp' !! Z.to_nat (y2 * w bmp + x2) = Some p2
           /\ r p1 <= r p2
           /\ (value_at scan f x1 y1 = value_at scan f x2 y2 -> p1 = p2).
Proof.
  intros Hok Hfits Hlo Hhi Hlt Hrange.
  destruct (scan_to_bmp_grey o scan f bmp lo hi Hok Hfits Hlo Hhi Hlt Hrange)
    as (bmp' & Hrun & _ & Hpix).
  destruct (bmp_fits_spec _ _ Hfits) as (Hbw & _).
  exists bmp'. split; [assumption|].
  intros x1 y1 x2 y2 Hx1 Hy1 Hx2 Hy2 Hle.
  pose proof (minmax_bounds scan f lo hi x1 y1 Hok Hlo Hhi Hx1 Hy1) as Hv1.
  pose proof (minmax_bounds scan f lo hi x2 y2 Hok Hlo Hhi Hx2 Hy2) as Hv2.
  destruct (normalise_exact o lo hi _ Hv1 Hlt Hrange) as [_ Hi1].
  destruct (normalise_exact o lo hi _ Hv2 Hlt Hrange) as [_ Hi2].
  do 2 eexists. rewrite Hbw.
  split; [apply Hpix; try assumption; unfold visited; lia|].
  split; [apply Hpix; try assumption; unfold visited; lia|].
  rewrite !grey_of_intensity by assumption. simpl. split.
  - apply Z.div_le_mono; lia.
  - intros ->. reflexivity.
Qed.

Lemma scan_to_bmp_monotone_witness :
  exists bmp',
    scan_to_bmp Trap even_scan RANGE even_bmp = Ok bmp'
    /\ exists p1 p2,
         pix bmp' !! Z.to_nat (0 * 4 + 1) = Some p1
         /\ pix bmp' !! Z.to_nat (2 * 4 + 3) = Some p2
         /\ r p1 <= r p2.
Proof.
  destruct (scan_to_bmp_monotone Trap even_scan RANGE even_bmp 0 1000)
    as (bmp' & Hrun & Hmono).
  - reflexivity.
  - reflexivity.
  - split; [apply list_elem_of_In; simpl; tauto|].
    repeat constructor; vm_compute; discriminate.
  - split; [apply list_elem_of_In; simpl; tauto|].
    repeat constructor; vm_compute; discriminate.
  - lia.
  - vm_compute. discriminate.
  - exists bmp'. split; [assumption|].
    destruct (Hmono 1 0 3 2) as (p1 & p2 & Hp1 & Hp2 & Hle & _);
      try (simpl; lia); [vm_compute; discriminate|].
    exists p1, p2. auto.
Defined.

Lemma value_at_lookup scan f x y :
  field_ok scan f = true ->
  0 <= x < scan_w scan -> 0 <= y < scan_h scan ->
  (to_int32 <$> field scan f) !! Z.to_nat (y * scan_w scan + x)
  = Some (value_at scan f x y).
Proof.
  intros Hok Hx Hy.
  destruct (img_at_ok scan f x y Hok Hx Hy) as [_ Hu].
  rewrite list_lookup_fmap, Hu. reflexivity.
Qed.

(** X6.  The normalisation does not depend on where the values start: when
    the arithmetic is within [int32_t], a scan and the scan whose values,
    read as [int32_t], are all larger by the same amount give the same
    bitmap. *)
Theorem scan_to_bmp_offset o scan scan' f bmp c lo hi :
  field_ok scan f = true -> field_ok scan' f = true ->
  scan_w scan' = scan_w scan -> scan_h scan' = scan_h scan ->
  to_int32 <$> field scan' f = (fun v => v + c) <$> (to_int32 <$> field scan f) ->
  bmp_fits scan bmp = true ->
  is_minimum lo (to_int32 <$> field scan f) ->
  is_maximum hi (to_int32 <$> field scan f) ->
  lo < hi -> (hi - lo) * 255 <= INT32_MAX ->
  exists frame,
    scan_to_bmp o scan f bmp = Ok frame /\ scan_to_bmp o scan' f bmp = Ok frame.
Proof.
  intros Hok Hok' Hsw Hsh Hoff Hfits Hlo Hhi Hlt Hrange.
  assert (bmp_fits scan' bmp = true) as Hfits'.
  { unfold bmp_fits in *. now rewrite Hsw, Hsh. }
  assert (is_minimum (lo + c) (to_int32 <$> field scan' f)) as Hlo'.
  { rewrite Hoff. destruct Hlo as [Hin Hall]. split.
    - apply list_elem_of_fmap. eauto.
    - apply Forall_fmap. eapply Forall_impl; [exact Hall|]. simpl. intros; lia. }
  assert (is_maximum (hi + c) (to_int32 <$> field scan' f)) as Hhi'.
  { rewrite Hoff. destruct Hhi as [Hin Hall]. split.
    - apply list_elem_of_fmap. eauto.
    - apply Forall_fmap. eapply Forall_impl; [exact Hall|]. simpl. intros; lia. }
  destruct (scan_to_bmp_grey o scan f bmp lo hi Hok Hfits Hlo Hhi Hlt Hrange)
    as (frame & Hrun & (Hw & Hh & Hlen) & Hpix).
  destruct (scan_to_bmp_grey o scan' f bmp (lo + c) (hi + c) Hok' Hfits' Hlo' Hhi')
    as (frame' & Hrun' & (Hw' & Hh' & Hlen') & Hpix'); [lia..|].
  exists frame. split; [assumption|]. rewrite Hrun'. f_equal.
  destruct (field_ok_spec _ _ Hok) as (Hw0 & _).
  destruct (bmp_fits_spec _ _ Hfits) as (_ & _ & Hblen & _).
  assert (pix frame' = pix frame) as Hsame.
  { apply (pix_of_cells scan); try assumption; try lia.
    intros x y Hx Hy.
    rewrite (Hpix x y Hx Hy) by (unfold visited; lia).
    rewrite <- Hsw at 1.
    rewrite (Hpix' x y) by (rewrite ?Hsw, ?Hsh; unfold visited; lia).
    assert (value_at scan' f x y = value_at scan f x y + c) as ->.
    { pose proof (value_at_lookup scan' f x y Hok') as Hv'.
      rewrite Hsw, Hsh, Hoff, list_lookup_fmap in Hv'.
      rewrite (value_at_lookup scan f x y Hok Hx Hy) in Hv'.
      specialize (Hv' Hx Hy). simpl in Hv'. now injection Hv' as <-. }
    do 3 f_equal; lia. }
  destruct frame, frame'; simpl in *. f_equal; congruence.
Qed.

Lemma scan_to_bmp_offset_witness :
  exists frame,
    scan_to_bmp Trap even_scan RANGE even_bmp = Ok frame
    /\ scan_to_bmp Trap away_scan RANGE even_bmp = Ok frame.
Proof.
  apply (scan_to_bmp_offset Trap even_scan away_scan RANGE even_bmp 3000 0 1000).
  - reflexivity.
  - reflexivity.
  - reflexivity.
  - reflexivity.
  - reflexivity.
  - reflexivity.
  - split; [apply list_elem_of_In; simpl; tauto|].
    repeat constructor; vm_compute; discriminate.
  - split; [apply list_elem_of_In; simpl; tauto|].
    repeat constructor; vm_compute; discriminate.
  - lia.
  - vm_compute. discriminate.
Defined.

(** ** The two threads do not block each other *)

Section Progress.
Context (o : overflow).
Import Locking.

Lemma acquisition_steps s :
  alive s = true -> pa s <> ALock \/ owner s = None ->
  exists acc s', step o s Acquisition acc s'.
Proof.
  intros Halive Hfree.
  destruct (pa s) as [| | |min max todo| | |] eqn:Hpa.
  - do 2 eexists. now apply a_fatal.
  - destruct Hfree as [Hne|Hnone]; [contradiction|].
    do 2 eexists. now apply a_lock.
  - destruct (scan_minmax (scan s) RANGE) as [[min max]|e] eqn:Hmm.
    + do 2 eexists. exact (a_minmax o s min max Halive Hpa Hmm).
    + do 2 eexists. exact (a_minmax_undefined o s e Halive Hpa Hmm).
  - destruct todo as [|[cx cy] todo].
    + do 2 eexists. exact (a_drawn o s min max Halive Hpa).
    + destruct (pixel_step o (scan s) RANGE min max cx cy (bmp s)) as [b|e] eqn:Hpix.
      * do 2 eexists. exact (a_draw o s min max cx cy todo b Halive Hpa Hpix).
      * do 2 eexists. exact (a_draw_undefined o s min max cx cy todo e Halive Hpa Hpix).
  - destruct (decide (btn (mouse s) = 0)) as [Hbtn|Hbtn].
    + do 2 eexists. exact (a_no_probe o s Halive Hpa Hbtn).
    + destruct (print_range o (scan s) RANGE (bmp s) (x (mouse s)) (y (mouse s)))
        as [[b out]|e] eqn:Hprobe.
      * do 2 eexists. exact (a_probe o s b out Halive Hpa Hbtn Hprobe).
      * do 2 eexists. exact (a_probe_undefined o s e Halive Hpa Hbtn Hprobe).
  - do 2 eexists. now apply a_unlock.
  - do 2 eexists. now apply a_rest.
Qed.

Lemma at_lock_or_not (pc : acquisition_pc) : pc = ALock \/ pc <> ALock.
Proof. destruct pc; (now left) || (right; discriminate). Qed.

Lemma at_dlock_or_not (pc : display_pc) : pc = DLock \/ pc <> DLock.
Proof. destruct pc; (now left) || (right; discriminate). Qed.

Lemma display_steps s :
  alive s = true -> pd s <> DLock \/ owner s = None ->
  exists acc s', step o s Display acc s'.
Proof.
  intros Halive Hfree.
  destruct (pd s) as [| | | |k| | |] eqn:Hpd.
  - do 2 eexists. now apply d_open.
  - do 2 eexists. exact (d_input o s (mouse s) Halive Hpd).
  - do 2 eexists. now apply d_clear.
  - destruct Hfree as [Hne|Hnone]; [contradiction|].
    do 2 eexists. now apply d_lock.
  - destruct (pix (bmp s) !! k) as [p|] eqn:Hp.
    + do 2 eexists. exact (d_blit o s k p Halive Hpd Hp).
    + do 2 eexists. exact (d_blit_done o s k Halive Hpd Hp).
  - do 2 eexists. now apply d_unlock.
  - do 2 eexists. now apply d_update.
  - do 2 eexists. now apply d_free.
Qed.
End Progress.

(** X7.  The two threads never block each other for good: in every state
    the process reaches while it lives, each thread can take a step, unless
    it is at its [pthread_mutex_lock] and the other thread holds the mutex,
    and then the other thread is between its lock and its unlock and can
    take a step. *)
Theorem threads_never_stuck o s :
  Locking.reachable o s -> Locking.alive s = true ->
  ((exists acc s', Locking.step o s Locking.Acquisition acc s')
   \/ (Locking.pa s = Locking.ALock /\ Locking.owner s = Some Locking.Display
       /\ Locking.reading (Locking.pd s) = true
       /\ exists acc s', Locking.step o s Locking.Display acc s'))
  /\ ((exists acc s', Locking.step o s Locking.Display acc s')
      \/ (Locking.pd s = Locking.DLock /\ Locking.owner s = Some Locking.Acquisition
          /\ Locking.writing (Locking.pa s) = true
          /\ exists acc s', Locking.step o s Locking.Acquisition acc s')).
Proof.
  intros Hreach Halive.
  destruct (lock_inv_reachable o s Hreach) as [Hacq Hdisp].
  split.
  - destruct (at_lock_or_not (Locking.pa s)) as [Hpa|Hpa];
      [|left; apply acquisition_steps; auto].
    destruct (Locking.owner s) as [[|]|] eqn:Hown.
    + pose proof (proj2 Hacq eq_refl) as Hw. rewrite Hpa in Hw. discriminate.
    + right. pose proof (proj2 Hdisp eq_refl) as Hr.
      repeat split; try assumption.
      apply display_steps; [assumption|].
      left. intros Hpd. rewrite Hpd in Hr. discriminate.
    + left. apply acquisition_steps; auto.
  - destruct (at_dlock_or_not (Locking.pd s)) as [Hpd|Hpd];
      [|left; apply display_steps; auto].
    destruct (Locking.owner s) as [[|]|] eqn:Hown.
    + right. pose proof (proj2 Hacq eq_refl) as Hw.
      repeat split; try assumption.
      apply acquisition_steps; [assumption|].
      left. intros Hpa. rewrite Hpa in Hw. discriminate.
    + pose proof (proj2 Hdisp eq_refl) as Hr. rewrite Hpd in Hr. discriminate.
    + left. apply display_steps; auto.
Qed.

Lemma threads_never_stuck_witness :
  (exists acc s', Locking.step Trap lock_start Locking.Acquisition acc s')
  /\ (exists acc s', Locking.step Trap lock_start Locking.Display acc s').
Proof.
  destruct (threads_never_stuck Trap lock_start) as [Hacq Hdisp].
  - apply Locking.reachable_initial. repeat split.
  - reflexivity.
  - split.
    + destruct Hacq as [Hstep|(Hpa & _)]; [exact Hstep|discriminate Hpa].
    + destruct Hdisp as [Hstep|(Hpd & _)]; [exact Hstep|discriminate Hpd].
Defined.

(** ** What the window shows *)

Section Blit.
Context (o : overflow).
Import Locking.

Lemma blit_inv_step s th acc s' :
  lock_inv s -> blit_inv s -> step o s th acc s' -> blit_inv s'.
Proof.
  intros Hlock Hblit Hstep.
  pose proof (lock_inv_exclusive s Hlock) as Hex.
  unfold blit_inv, copied in *.
  destruct Hstep; simpl;
    try match goal with H : pd _ = _ |- _ => rewrite H in *; simpl in * end;
    try exact Hblit; try exact I.
  - (* a pixel is stored *)
    destruct (pd s) eqn:Hpd; try exact I; exfalso; apply Hex;
      (split; [rewrite H0; reflexivity|reflexivity]).
  - (* the probe *)
    destruct (pd s) eqn:Hpd; try exact I; exfalso; apply Hex;
      (split; [rewrite H0; reflexivity|reflexivity]).
  - (* the lock of main *)
    intros j Hj. lia.
  - (* a pixel is copied *)
    intros j Hj Hlen. rewrite length_insert in Hlen.
    destruct (decide (j = k)) as [->|Hne].
    + rewrite list_lookup_insert_eq by assumption. now symmetry.
    + rewrite list_lookup_insert_ne by congruence. apply Hblit; lia.
  - (* the blit is over *)
    intros j Hj Hlen. apply Hblit; [|assumption].
    apply lookup_ge_None in H1. lia.
Qed.

Lemma blit_inv_reachable s : reachable o s -> blit_inv s.
Proof.
  induction 1 as [s (_ & Hd & _)|s th acc s' Hreach IH Hstep].
  - unfold blit_inv. now rewrite Hd.
  - exact (blit_inv_step s th acc s' (lock_inv_reachable o s Hreach) IH Hstep).
Qed.
End Blit.

(** X8.  No torn frame: whenever [main] is at its unlock, in any state the
    process reaches, every pixel of the window that the shared bitmap has
    is the pixel of the bitmap as it is then (so a window as long as the
    bitmap holds the bitmap), and [render_thread] is not between its lock
    and its unlock. *)
Theorem blit_shows_bitmap o s :
  Locking.reachable o s -> Locking.pd s = Locking.DUnlock ->
  (forall j p, (j < length (pix (Locking.screen s)))%nat ->
     pix (Locking.bmp s) !! j = Some p -> pix (Locking.screen s) !! j = Some p)
  /\ (length (pix (Locking.screen s)) = length (pix (Locking.bmp s)) ->
      pix (Locking.screen s) = pix (Locking.bmp s))
  /\ Locking.writing (Locking.pa s) = false.
Proof.
  intros Hreach Hpd.
  pose proof (blit_inv_reachable o s Hreach) as Hblit.
  unfold blit_inv in Hblit. rewrite Hpd in Hblit.
  split; [|split].
  - intros j p Hj Hp. rewrite <- Hp. apply Hblit; [|assumption].
    eapply lookup_lt_Some, Hp.
  - intros Hlen. apply list_eq. intros j.
    destruct (decide (j < length (pix (Locking.screen s)))%nat) as [Hj|Hj].
    + apply Hblit; lia.
    + rewrite !lookup_ge_None_2 by lia. reflexivity.
  - destruct (Locking.writing (Locking.pa s)) eqn:Hw; [|reflexivity].
    exfalso. apply (lock_inv_exclusive s (lock_inv_reachable o s Hreach)).
    split; [assumption|]. now rewrite Hpd.
Qed.

Lemma blit_shows_bitmap_witness :
  exists s, Locking.reachable Trap s /\ Locking.pd s = Locking.DUnlock
            /\ pix (Locking.screen s) = [mkPixel 7 7 7 255].
Proof.
  assert (Locking.reachable Trap tiny_start) as R0
    by (apply Locking.reachable_initial; repeat split).
  pose proof (Locking.reachable_step _ _ _ _ _ R0
                (Locking.d_open Trap tiny_start eq_refl eq_refl)) as R1.
  match type of R1 with
  | Locking.reachable _ ?s1 =>
      pose proof (Locking.reachable_step _ _ _ _ _ R1
                    (Locking.d_input Trap s1 (mkMouse 0 0 0 0 0) eq_refl eq_refl)) as R2
  end.
  match type of R2 with
  | Locking.reachable _ ?s2 =>
      pose proof (Locking.reachable_step _ _ _ _ _ R2
                    (Locking.d_clear Trap s2 eq_refl eq_refl)) as R3
  end.
  match type of R3 with
  | Locking.reachable _ ?s3 =>
      pose proof (Locking.reachable_step _ _ _ _ _ R3
                    (Locking.d_lock Trap s3 eq_refl eq_refl eq_refl)) as R4
  end.
  match type of R4 with
  | Locking.reachable _ ?s4 =>
      pose proof (Locking.reachable_step _ _ _ _ _ R4
                    (Locking.d_blit Trap s4 0 (mkPixel 7 7 7 255)
                       eq_refl eq_refl eq_refl)) as R5
  end.
  match type of R5 with
  | Locking.reachable _ ?s5 =>
      pose proof (Locking.reachable_step _ _ _ _ _ R5
                    (Locking.d_blit_done Trap s5 1 eq_refl eq_refl eq_refl)) as R6
  end.
  eexists. split; [exact R6|]. split; [reflexivity|].
  apply (blit_shows_bitmap Trap _ R6 eq_refl). reflexivity.
Defined.

(** ** The arguments of lidar_view_example *)

(** X9.  lidar_view_example looks at the number of its arguments before
    anything else.  With a number other than one or two (a length of [argv]
    other than 2 or 3) the program never gets to its loop: it makes no
    call, writes nothing to the standard output, appends to [std::cerr]
    the version line and the usage text, and returns 0 when there is no
    argument and 1 otherwise.  With one or two arguments it first writes
    its greeting to [std::cerr], and its first calls are [init_logger] and
    [init_client] for the host [argv[1]] and the destination [argv[2]], or
    the empty string when that is absent. *)
Theorem lidar_view_example_arguments sdk argv t :
  (length argv <> 2%nat -> length argv <> 3%nat ->
   forall n, exists status t',
     LidarViewExample.run sdk n argv t = Exited status t'
     /\ (length argv = 1%nat -> status = 0)
     /\ (length argv <> 1%nat -> status = 1)
     /\ cerr t'
        = cerr t +:+ "Version: " +:+ SDK_VERSION_FULL sdk +:+ " ("
          +:+ BUILD_SYSTEM sdk +:+ ")

Usage: client_example <sensor_hostname> [<udp_destination>]

<udp_destination> is optional: leave blank for automatic destination detection
"
     /\ cout t' = cout t
     /\ calls t' = calls t)
  /\ (forall prog host dests,
        argv = prog :: host :: dests -> (length dests <= 1)%nat ->
        exists rest said,
          calls (io_of (LidarViewExample.main sdk argv t))
          = calls t
            ++ InitLogger
               :: InitClient host (default EmptyString (head dests))
                    (bool_decide
                       (is_Some (init_client sdk host (default EmptyString (head dests)))))
               :: rest
          /\ cerr (io_of (LidarViewExample.main sdk argv t))
             = cerr t +:+ greeting sdk host +:+ said).
Proof.
  split.
  - intros H2 H3 n. unfold LidarViewExample.run.
    rewrite (lidar_view_example_usage sdk argv t H2 H3). cbn [and_then].
    do 2 eexists. split; [reflexivity|]. simpl.
    split; [intros H1; now destruct (decide (length argv = 1%nat))|].
    split; [intros H1; now destruct (decide (length argv = 1%nat))|].
    split; [|split; reflexivity].
    unfold LidarViewExample.usage. reflexivity.
  - intros prog host dests -> Hlen.
    destruct dests as [|dest [|]]; simpl in Hlen; try lia.
    + unfold LidarViewExample.main. simpl.
      destruct (init_client sdk host EmptyString) as [c|]; simpl.
      * destruct (get_metadata sdk c) as [metadata c']. simpl.
        eexists.
        exists ("Connection to sensor succeeded" +:+ endl +:+ "Gathering metadata..."
                +:+ endl +:+ describe (parse_metadata sdk metadata)).
        split; [rewrite <- !app_assoc; simpl; reflexivity|].
        unfold greeting. rewrite !string_app_assoc. reflexivity.
      * eexists. exists ("Failed to connect" +:+ endl).
        split; [rewrite <- !app_assoc; simpl; reflexivity|].
        unfold greeting. rewrite !string_app_assoc. reflexivity.
    + unfold LidarViewExample.main. simpl.
      destruct (init_client sdk host dest) as [c|]; simpl.
      * destruct (get_metadata sdk c) as [metadata c']. simpl.
        eexists.
        exists ("Connection to sensor succeeded" +:+ endl +:+ "Gathering metadata..."
                +:+ endl +:+ describe (parse_metadata sdk metadata)).
        split; [rewrite <- !app_assoc; simpl; reflexivity|].
        unfold greeting. rewrite !string_app_assoc. reflexivity.
      * eexists. exists ("Failed to connect" +:+ endl).
        split; [rewrite <- !app_assoc; simpl; reflexivity|].
        unfold greeting. rewrite !string_app_assoc. reflexivity.
Qed.

Lemma lidar_view_example_arguments_witness :
  (exists t',
     LidarViewExample.run (script_sdk true []) 5 ["client_example"; "a"; "b"; "c"] no_io
     = Exited 1 t'
     /\ cerr t' = "Version: 0.4.1-example (example)

Usage: client_example <sensor_hostname> [<udp_destination>]

<udp_destination> is optional: leave blank for automatic destination detection
"
     /\ calls t' = [])
  /\ exists rest,
       calls (io_of (LidarViewExample.main (script_sdk true [])
                       ["client_example"; "os-1"; "10.0.0.1"] no_io))
       = InitLogger :: InitClient "os-1" "10.0.0.1" true :: rest.
Proof.
  split.
  - destruct (lidar_view_example_arguments (script_sdk true [])
                ["client_example"; "a"; "b"; "c"] no_io) as [Husage _].
    destruct (Husage ltac:(simpl; lia) ltac:(simpl; lia) 5%nat)
      as (status & t' & Hrun & _ & Hstatus & Hcerr & _ & Hcalls).
    rewrite (Hstatus ltac:(simpl; lia)) in Hrun.
    exists t'. split; [exact Hrun|]. split; [exact Hcerr|exact Hcalls].
  - destruct (lidar_view_example_arguments (script_sdk true [])
                ["client_example"; "os-1"; "10.0.0.1"] no_io) as [_ Hcalls].
    destruct (Hcalls "client_example" "os-1" ["10.0.0.1"] eq_refl)
      as (rest & said & Hrest & _); [simpl; lia|].
    exists rest. exact Hrest.
Defined.

(** ** The bitmap that main allocates *)

(** X10.  When [main] of view_tigr gets to the creation of the thread, the
    shared bitmap has as many pixels, all of them zero, as the sensor
    reports columns times rows, and it has the dimensions of the scan that
    [render_thread] then constructs: it is the bitmap that [scan_to_bmp]
    and [print_range] need.  (The dimensions are those of an [int], and
    [LidarScan{w, h, ...}] has the dimensions it is given.) *)
Theorem view_tigr_bitmap_fits sdk argv t app t1 app' l t2 :
  ViewTigr.main sdk argv t = Running app t1 ->
  ViewTigr.render_thread_start sdk app t1 = Running (app', l) t2 ->
  (forall cols rows profile,
     scan_w (new_scan sdk cols rows profile) = cols
     /\ scan_h (new_scan sdk cols rows profile) = rows) ->
  0 <= columns_per_frame (ViewTigr.info sdk app) <= INT32_MAX ->
  0 <= pixels_per_column (ViewTigr.info sdk app) <= INT32_MAX ->
  columns_per_frame (ViewTigr.info sdk app) * pixels_per_column (ViewTigr.info sdk app)
  <= INT32_MAX ->
  app' = app
  /\ exists b,
       ViewTigr.bmp sdk app = Some b
       /\ bmp_fits (ViewTigr.scan sdk l) b = true
       /\ w b = columns_per_frame (ViewTigr.info sdk app)
       /\ h b = pixels_per_column (ViewTigr.info sdk app)
       /\ Forall (fun p => p = mkPixel 0 0 0 0) (pix b).
Proof.
  intros Hmain Hstart Hscan Hcols Hrows Hsize.
  unfold ViewTigr.render_thread_start in Hstart. injection Hstart as <- <- _.
  split; [reflexivity|].
  unfold ViewTigr.main in Hmain.
  destruct (argv !! 1%nat) as [hostname|]; [|discriminate].
  unfold ViewTigr.init in Hmain. simpl in Hmain.
  destruct (init_client sdk hostname EmptyString) as [c|]; [|discriminate].
  destruct (get_metadata sdk c) as [metadata c']. simpl in Hmain.
  injection Hmain as <- _. simpl in *.
  set (info := parse_metadata sdk metadata) in *.
  rewrite !to_int32_small by (unfold INT32_MIN; lia).
  destruct (Hscan (columns_per_frame info) (pixels_per_column info)
              (udp_profile_lidar info)) as [Hsw Hsh].
  eexists. split; [reflexivity|].
  split; [|split; [reflexivity|split; [reflexivity|]]].
  - unfold bmp_fits, tigrBitmap. simpl. rewrite Hsw, Hsh, length_replicate.
    rewrite !andb_true_iff, !Z.eqb_eq, Z.leb_le. repeat split; try lia; nia.
  - unfold tigrBitmap. simpl. apply Forall_forall.
    intros p Hp. now apply elem_of_replicate in Hp as [-> _].
Qed.

Lemma view_tigr_bitmap_fits_witness :
  exists app t1 l t2 b,
    ViewTigr.main (script_sdk true []) ["view_tigr"; "os-1"] no_io = Running app t1
    /\ ViewTigr.render_thread_start (script_sdk true []) app t1 = Running (app, l) t2
    /\ ViewTigr.bmp _ app = Some b
    /\ bmp_fits (ViewTigr.scan _ l) b = true.
Proof.
  pose (out := ViewTigr.main (script_sdk true []) ["view_tigr"; "os-1"] no_io).
  assert (exists app t1, out = Running app t1) as (app & t1 & Hmain)
    by (do 2 eexists; reflexivity).
  pose (start := ViewTigr.render_thread_start (script_sdk true []) app t1).
  assert (exists l t2, start = Running (app, l) t2) as (l & t2 & Hstart)
    by (do 2 eexists; reflexivity).
  destruct (view_tigr_bitmap_fits (script_sdk true []) ["view_tigr"; "os-1"] no_io
              app t1 app l t2 Hmain Hstart) as (_ & b & Hb & Hfits & _).
  - intros cols rows profile. split; reflexivity.
  - injection Hmain as <- _. vm_compute. split; discriminate.
  - injection Hmain as <- _. vm_compute. split; discriminate.
  - injection Hmain as <- _. vm_compute. discriminate.
  - exists app, t1, l, t2, b. auto.
Defined.

(** ** What a turn of render_thread does to the shared state *)

(** X11.  A turn of the loop of [render_thread] that leaves the process
    running never changes the mouse nor the other members of [app] that
    [init] has set.  Either it leaves the bitmap, the lock and the standard
    output as they were, or it has replaced the bitmap by what [write_frame]
    returns for the scan just batched, the bitmap before and the mouse, has
    printed what [write_frame] printed, and has released the lock. *)
Theorem view_tigr_turn sdk o app l t app' l' t' :
  ViewTigr.iteration sdk o (app, l) t = Running (app', l') t' ->
  ViewTigr.mouse sdk app' = ViewTigr.mouse sdk app
  /\ ViewTigr.info sdk app' = ViewTigr.info sdk app
  /\ ViewTigr.app_w sdk app' = ViewTigr.app_w sdk app
  /\ ViewTigr.app_h sdk app' = ViewTigr.app_h sdk app
  /\ ((ViewTigr.bmp sdk app' = ViewTigr.bmp sdk app
       /\ ViewTigr.lock sdk app' = ViewTigr.lock sdk app
       /\ cout t' = cout t)
      \/ exists b b' out,
           ViewTigr.bmp sdk app = Some b
           /\ write_frame o (ViewTigr.scan sdk l') b (ViewTigr.mouse sdk app) = Ok (b', out)
           /\ ViewTigr.bmp sdk app' = Some b'
           /\ ViewTigr.lock sdk app' = false
           /\ cout t' = cout t +:+ String.concat EmptyString out).
Proof.
  unfold ViewTigr.iteration, ViewTigr.lidar_data, ViewTigr.imu_data, ViewTigr.publish.
  destruct (ViewTigr.handle sdk app) as [c|]; [|discriminate].
  destruct (poll_client sdk c) as [st c1].
  destruct (has_flag st (CLIENT_ERROR sdk)); [discriminate|].
  destruct (has_flag st (LIDAR_DATA sdk)); simpl.
  - destruct (read_lidar_packet sdk c1 _ _) as [[ok buf] c2].
    destruct ok; simpl; [|discriminate].
    destruct (batch sdk _ buf _) as [[done bt] sc]. simpl.
    destruct done.
    + destruct (complete sdk sc _).
      * destruct (ViewTigr.bmp sdk app) as [b|] eqn:Hb; [|discriminate].
        destruct (write_frame o sc b (ViewTigr.mouse sdk app)) as [[b' out]|e] eqn:Hw;
          [|discriminate].
        simpl. intros Hrun.
        destruct (has_flag st (IMU_DATA sdk)); simpl in Hrun.
        -- destruct (read_imu_packet sdk c2 _ _) as [[ok' buf'] c3].
           injection Hrun as <- <- <-. simpl.
           repeat split. right. exists b, b', out. auto.
        -- injection Hrun as <- <- <-. simpl.
           repeat split. right. exists b, b', out. auto.
      * simpl. destruct (has_flag st (IMU_DATA sdk)).
        -- destruct (read_imu_packet sdk c2 _ _) as [[ok' buf'] c3].
           intros [= <- <- <-]. simpl. repeat split. now left.
        -- intros [= <- <- <-]. simpl. repeat split. now left.
    + simpl. destruct (has_flag st (IMU_DATA sdk)).
      * destruct (read_imu_packet sdk c2 _ _) as [[ok' buf'] c3].
        intros [= <- <- <-]. simpl. repeat split. now left.
      * intros [= <- <- <-]. simpl. repeat split. now left.
  - destruct (has_flag st (IMU_DATA sdk)).
    + destruct (read_imu_packet sdk c1 _ _) as [[ok' buf'] c3].
      intros [= <- <- <-]. simpl. repeat split. now left.
    + intros [= <- <- <-]. simpl. repeat split. now left.
Qed.

Lemma view_tigr_turn_witness :
  exists app' l' t' b',
    ViewTigr.iteration (script_sdk true [(2, true)]) Trap
      (example_app [(2, true)], example_thread [(2, true)]) no_io
    = Running (app', l') t'
    /\ ViewTigr.bmp _ app' = Some b'
    /\ write_frame Trap even_scan even_bmp (mkMouse 0 0 0 0 0) = Ok (b', []).
Proof.
  assert (exists app' l' t',
            ViewTigr.iteration (script_sdk true [(2, true)]) Trap
              (example_app [(2, true)], example_thread [(2, true)]) no_io
            = Running (app', l') t') as (app' & l' & t' & Hrun)
    by (cbv -[new_packet_buf]; do 3 eexists; reflexivity).
  destruct (view_tigr_turn (script_sdk true [(2, true)]) Trap _ _ _ _ _ _ Hrun)
    as (_ & _ & _ & _ & [(Hsame & _)|(b & b' & out' & Hb & Hw & Hb' & _)]).
  - exfalso. cbv -[new_packet_buf] in Hrun. injection Hrun as <- _ _.
    vm_compute in Hsame. discriminate.
  - exists app', l', t', b'. split; [exact Hrun|]. split; [exact Hb'|].
    cbv -[new_packet_buf] in Hrun. injection Hrun as _ <- _.
    vm_compute in Hb. injection Hb as <-.
    vm_compute in Hw. injection Hw as <- _.
    vm_compute. reflexivity.
Defined.

(** ** The standard output *)

Lemma cout_and_then {A : Type} (out : outcome A) (k : A -> io -> outcome A) t :
  cout (io_of out) = cout t ->
  (forall s t1, out = Running s t1 -> cout (io_of (k s t1)) = cout t1) ->
  cout (io_of (and_then out k)) = cout t.
Proof.
  intros Hout Hk. destruct out as [s t1|status t1|e t1]; simpl in *; try assumption.
  rewrite (Hk s t1 eq_refl). assumption.
Qed.

Lemma lidar_view_iteration_cout sdk l t :
  cout (io_of (LidarViewExample.iteration sdk l t)) = cout t.
Proof.
  unfold LidarViewExample.iteration, LidarViewExample.lidar_data,
    LidarViewExample.imu_data.
  destruct (poll_client sdk _) as [st c1].
  destruct (has_flag st (CLIENT_ERROR sdk)); [reflexivity|].
  destruct (has_flag st (LIDAR_DATA sdk)); simpl.
  - destruct (read_lidar_packet sdk _ _ _) as [[ok buf] c2].
    destruct ok; simpl; [|reflexivity].
    destruct (batch sdk _ buf _) as [[done bt] sc]. simpl.
    destruct done; [destruct (complete sdk sc _)|]; simpl;
      (destruct (has_flag st (IMU_DATA sdk));
       [destruct (read_imu_packet sdk _ _ _) as [[ok' buf'] c3]|]; reflexivity).
  - destruct (has_flag st (IMU_DATA sdk));
      [destruct (read_imu_packet sdk _ _ _) as [[ok' buf'] c3]|]; reflexivity.
Qed.

Lemma write_frame_button_up o scan bmp mouse bmp' out :
  btn mouse = 0 -> write_frame o scan bmp mouse = Ok (bmp', out) -> out = [].
Proof.
  intros Hbtn. unfold write_frame.
  destruct (scan_to_bmp o scan RANGE bmp) as [b|e]; simpl; [|discriminate].
  rewrite Hbtn. simpl. now intros [= _ <-].
Qed.

Lemma view_tigr_iteration_cout sdk o app l t :
  btn (ViewTigr.mouse sdk app) = 0 ->
  cout (io_of (ViewTigr.iteration sdk o (app, l) t)) = cout t.
Proof.
  intros Hbtn.
  unfold ViewTigr.iteration, ViewTigr.lidar_data, ViewTigr.imu_data, ViewTigr.publish.
  destruct (ViewTigr.handle sdk app) as [c|]; [|reflexivity].
  destruct (poll_client sdk c) as [st c1].
  destruct (has_flag st (CLIENT_ERROR sdk)); [reflexivity|].
  destruct (has_flag st (LIDAR_DATA sdk)); simpl.
  - destruct (read_lidar_packet sdk c1 _ _) as [[ok buf] c2].
    destruct ok; simpl; [|reflexivity].
    destruct (batch sdk _ buf _) as [[done bt] sc]. simpl.
    destruct done.
    + destruct (complete sdk sc _).
      * destruct (ViewTigr.bmp sdk app) as [b|]; [|reflexivity].
        destruct (write_frame o sc b (ViewTigr.mouse sdk app)) as [[b' out]|e] eqn:Hw;
          [|reflexivity].
        apply (write_frame_button_up o sc b _ b' out Hbtn) in Hw as ->. simpl.
        destruct (has_flag st (IMU_DATA sdk));
          [destruct (read_imu_packet sdk c2 _ _) as [[ok' buf'] c3]|];
          simpl; apply append_empty.
      * simpl. destruct (has_flag st (IMU_DATA sdk));
          [destruct (read_imu_packet sdk c2 _ _) as [[ok' buf'] c3]|]; reflexivity.
    + simpl. destruct (has_flag st (IMU_DATA sdk));
        [destruct (read_imu_packet sdk c2 _ _) as [[ok' buf'] c3]|]; reflexivity.
  - destruct (has_flag st (IMU_DATA sdk));
      [destruct (read_imu_packet sdk c1 _ _) as [[ok' buf'] c3]|]; reflexivity.
Qed.

(** X12.  lidar_view_example writes nothing to the standard output, in any
    run and however it ends; neither does [main] of view_tigr up to the
    creation of the thread; and [render_thread] writes nothing to it in the
    turns it makes while the mouse button is up. *)
Theorem stdout_quiet sdk o :
  (forall n argv t, cout (io_of (LidarViewExample.run sdk n argv t)) = cout t)
  /\ (forall argv t, cout (io_of (ViewTigr.main sdk argv t)) = cout t)
  /\ (forall mice app t,
        Forall (fun m => btn m = 0) mice ->
        cout (io_of (ViewTigr.render_thread sdk o mice app t)) = cout t).
Proof.
  split; [|split].
  - intros n argv t. unfold LidarViewExample.run.
    apply cout_and_then.
    + unfold LidarViewExample.main.
      destruct (negb _ && negb _); [reflexivity|]. simpl.
      destruct (init_client sdk _ _) as [c|]; [|reflexivity].
      destruct (get_metadata sdk c) as [metadata c']. reflexivity.
    + intros l t1 _. revert l t1.
      induction n as [|n IH]; intros l t1; cbn [LidarViewExample.loop]; [reflexivity|].
      apply cout_and_then; [apply lidar_view_iteration_cout|].
      intros l2 t2 _. apply IH.
  - intros argv t. unfold ViewTigr.main.
    destruct (argv !! 1%nat) as [hostname|]; [|reflexivity].
    unfold ViewTigr.init. simpl.
    destruct (init_client sdk hostname EmptyString) as [c|]; [|reflexivity].
    destruct (get_metadata sdk c) as [metadata c']. reflexivity.
  - intros mice app t Hup. unfold ViewTigr.render_thread, ViewTigr.render_thread_start.
    cbn [and_then].
    generalize (app, ViewTigr.mkLocals sdk (ViewTigr.info sdk app)
                       (get_format sdk (ViewTigr.info sdk app))
                       (new_batcher sdk (columns_per_frame (ViewTigr.info sdk app))
                          (get_format sdk (ViewTigr.info sdk app)))
                       new_packet_buf
                       (new_scan sdk (columns_per_frame (ViewTigr.info sdk app))
                          (pixels_per_column (ViewTigr.info sdk app))
                          (udp_profile_lidar (ViewTigr.info sdk app)))
                       (make_xyz_lut sdk (ViewTigr.info sdk app))) as s.
    change (cout t) with (cout (to_cerr (describe (ViewTigr.info sdk app)) t)).
    generalize (to_cerr (describe (ViewTigr.info sdk app)) t) as t1.
    induction Hup as [|m mice Hm Hup IH]; intros t1 s; cbn [ViewTigr.loop];
      [reflexivity|].
    apply cout_and_then.
    + destruct s as [app1 l1]. now apply view_tigr_iteration_cout.
    + intros s2 t2 _. apply IH.
Qed.

Lemma stdout_quiet_witness :
  cout (io_of (ViewTigr.render_thread (script_sdk true [(2, true); (6, true)]) Trap
                 [mkMouse 0 0 0 3 1; mkMouse 0 1 0 2 2]
                 (example_app [(2, true); (6, true)]) no_io))
  = cout no_io.
Proof.
  apply (proj2 (proj2 (stdout_quiet (script_sdk true [(2, true); (6, true)]) Trap))
           [mkMouse 0 0 0 3 1; mkMouse 0 1 0 2 2]
           (example_app [(2, true); (6, true)]) no_io).
  repeat constructor.
Defined.

(** ** The cloud of lidar_view_example *)

Lemma and_then_running {A B : Type} (out : outcome A) (k : A -> io -> outcome B) s' t' :
  and_then out k = Running s' t' ->
  exists s t1, out = Running s t1 /\ k s t1 = Running s' t'.
Proof.
  destruct out as [s t1|status t1|e t1]; simpl; [|discriminate|discriminate].
  intros Hk. now exists s, t1.
Qed.

Lemma cloud_inv_same sdk (l l' : LidarViewExample.locals sdk) t t' made :
  LidarViewExample.xyz sdk l' = LidarViewExample.xyz sdk l ->
  LidarViewExample.info sdk l' = LidarViewExample.info sdk l ->
  LidarViewExample.lut sdk l' = LidarViewExample.lut sdk l ->
  calls t' = calls t ++ made ->
  Complete true ∉ made ->
  cloud_inv l t -> cloud_inv l' t'.
Proof.
  unfold cloud_inv, cloud_of_scan.
  intros -> -> -> -> Hmade (Hcloud & Hlut & Hnone).
  split; [exact Hcloud|]. split; [exact Hlut|].
  rewrite elem_of_app. tauto.
Qed.

Lemma cloud_inv_set sdk (l l' : LidarViewExample.locals sdk) t t' made sc :
  LidarViewExample.xyz sdk l'
  = Some (cartesian sdk sc (LidarViewExample.lut sdk l)) ->
  complete sdk sc (column_window (LidarViewExample.info sdk l)) = true ->
  LidarViewExample.info sdk l' = LidarViewExample.info sdk l ->
  LidarViewExample.lut sdk l' = LidarViewExample.lut sdk l ->
  calls t' = calls t ++ made ->
  Complete true ∈ made ->
  cloud_inv l t -> cloud_inv l' t'.
Proof.
  unfold cloud_inv, cloud_of_scan.
  intros -> Hc -> -> -> Hmade (Hcloud & Hlut & Hnone).
  split; [now exists sc|]. split; [exact Hlut|].
  rewrite elem_of_app. split; [intros _; now right|intros _; eexists; reflexivity].
Qed.

Lemma not_complete_in (made : list event) :
  Forall (fun e => e <> Complete true) made -> Complete true ∉ made.
Proof.
  intros Hall Hin. rewrite Forall_forall in Hall. now apply (Hall _ Hin).
Qed.

Lemma lidar_view_lidar_data_cloud sdk st l t l' t' :
  LidarViewExample.lidar_data sdk st l t = Running l' t' ->
  cloud_inv l t -> cloud_inv l' t'.
Proof.
  unfold LidarViewExample.lidar_data.
  destruct (has_flag st (LIDAR_DATA sdk)); [|now intros [= <- <-]].
  destruct (read_lidar_packet sdk _ _ _) as [[ok buf] c2].
  destruct ok; simpl; [|discriminate].
  destruct (batch sdk _ buf _) as [[done bt] sc]. simpl.
  destruct done.
  - destruct (complete sdk sc _) eqn:Hc.
    + intros [= <- <-].
      apply (cloud_inv_set sdk l _ t _
               [ReadLidarPacket true; BatchToScan true; Complete true;
                Cartesian; SetXyz; SetKey] sc);
        try reflexivity; [exact Hc| |].
      * simpl. now rewrite <- !app_assoc.
      * rewrite !elem_of_cons. tauto.
    + intros [= <- <-].
      apply (cloud_inv_same sdk l _ t _
               [ReadLidarPacket true; BatchToScan true; Complete false]);
        try reflexivity.
      * simpl. now rewrite <- !app_assoc.
      * apply not_complete_in. repeat constructor; discriminate.
  - intros [= <- <-].
    apply (cloud_inv_same sdk l _ t _ [ReadLidarPacket true; BatchToScan false]);
      try reflexivity.
    + simpl. now rewrite <- !app_assoc.
    + apply not_complete_in. repeat constructor; discriminate.
Qed.

Lemma lidar_view_imu_data_cloud sdk st l t l' t' :
  LidarViewExample.imu_data sdk st l t = Running l' t' ->
  cloud_inv l t -> cloud_inv l' t'.
Proof.
  unfold LidarViewExample.imu_data.
  destruct (has_flag st (IMU_DATA sdk)); [|now intros [= <- <-]].
  destruct (read_imu_packet sdk _ _ _) as [[ok buf] c2].
  intros [= <- <-].
  apply (cloud_inv_same sdk l _ t _ [ReadImuPacket ok]); try reflexivity.
  apply not_complete_in. repeat constructor; discriminate.
Qed.

Lemma lidar_view_iteration_cloud sdk l t l' t' :
  LidarViewExample.iteration sdk l t = Running l' t' ->
  cloud_inv l t -> cloud_inv l' t'.
Proof.
  unfold LidarViewExample.iteration.
  destruct (poll_client sdk _) as [st c1].
  destruct (has_flag st (CLIENT_ERROR sdk)); [discriminate|].
  intros Hrun Hinv.
  apply and_then_running in Hrun as (l1 & t1 & Hlidar & Himu).
  apply (lidar_view_imu_data_cloud sdk st l1 t1 l' t' Himu).
  apply (lidar_view_lidar_data_cloud sdk st _ _ l1 t1 Hlidar).
  apply (cloud_inv_same sdk l _ t _ [PollClient st]); try reflexivity; [|exact Hinv].
  apply not_complete_in. repeat constructor; discriminate.
Qed.

Lemma lidar_view_loop_cloud sdk n l t l' t' :
  LidarViewExample.loop sdk n l t = Running l' t' ->
  cloud_inv l t -> cloud_inv l' t'.
Proof.
  revert l t. induction n as [|n IH]; intros l t; cbn [LidarViewExample.loop].
  - now intros [= <- <-].
  - intros Hrun Hinv.
    apply and_then_running in Hrun as (l1 & t1 & Hturn & Hrest).
    apply (IH l1 t1 Hrest).
    exact (lidar_view_iteration_cloud sdk l t l1 t1 Hturn Hinv).
Qed.

Lemma lidar_view_main_cloud sdk argv t l t1 :
  LidarViewExample.main sdk argv t = Running l t1 ->
  Complete true ∉ calls t ->
  cloud_inv l t1.
Proof.
  unfold LidarViewExample.main.
  destruct (negb _ && negb _); [discriminate|]. simpl.
  destruct (init_client sdk _ _) as [c|]; [|discriminate].
  destruct (get_metadata sdk c) as [metadata c'].
  intros [= <- <-] Hnot. unfold cloud_inv, cloud_of_scan. simpl.
  split; [exact I|]. split; [reflexivity|].
  split; [intros [p Hp]; discriminate|]. intros Hin. exfalso.
  rewrite !elem_of_app in Hin.
  assert (forall e, e <> Complete true -> Complete true ∈ [e] -> False) as Hone
    by (intros e He Hin'; apply list_elem_of_singleton in Hin'; congruence).
  decompose [or] Hin; [now apply Hnot|..]; eapply Hone; try eassumption; discriminate.
Qed.

(** X13.  In lidar_view_example, whenever the loop of [main] is about to
    start a turn, the cloud has been given points if and only if [complete]
    has accepted a scan since the start of the program; the points it was
    last given are the image by [cartesian] of a scan that [complete]
    accepted for the column window of the sensor, made with the look-up
    table of the metadata read at the start. *)
Theorem lidar_view_cloud sdk n argv t l t' :
  LidarViewExample.run sdk n argv t = Running l t' ->
  Complete true ∉ calls t ->
  cloud_of_scan l
  /\ LidarViewExample.lut sdk l = make_xyz_lut sdk (LidarViewExample.info sdk l)
  /\ (is_Some (LidarViewExample.xyz sdk l) <-> Complete true ∈ calls t').
Proof.
  unfold LidarViewExample.run. intros Hrun Hnot.
  apply and_then_running in Hrun as (l1 & t1 & Hmain & Hloop).
  pose proof (lidar_view_main_cloud sdk argv t l1 t1 Hmain Hnot) as Hinv.
  apply (lidar_view_loop_cloud sdk n l1 t1 l t' Hloop) in Hinv.
  exact Hinv.
Qed.

Lemma lidar_view_cloud_witness :
  exists l t',
    LidarViewExample.run (script_sdk true [(2, true)]) 1 ["client_example"; "os-1"] no_io
    = Running l t'
    /\ Complete true ∈ calls t'.
Proof.
  assert (exists l t',
            LidarViewExample.run (script_sdk true [(2, true)]) 1
              ["client_example"; "os-1"] no_io = Running l t'
            /\ is_Some (LidarViewExample.xyz _ l)) as (l & t' & Hrun & Hset)
    by (do 2 eexists; split; [reflexivity|lazy; eexists; reflexivity]).
  exists l, t'. split; [exact Hrun|].
  apply (lidar_view_cloud _ _ _ _ _ _ Hrun); [apply not_elem_of_nil|exact Hset].
Defined.
